(** * advanced-vector: [RawMemory<T>] and [Vector<T>] of vector.h

    A shallow embedding of vector.h.  The element type [T] is abstract; what
    the container can observe of it (its traits, which of its operations
    throw, what a move leaves behind) is the class [Elem].  Memory is a
    store of blocks of slots; each slot records whether an object lives in
    it.  Every member function is a computation in a state-and-exception
    monad over that store.

    Conventions.
    - [size_t] is [nat]: a block of [n] slots is a list of length [n], so the
      sizes that occur are those of blocks that exist, and [size_ * 2] does
      not wrap.
    - [assert] failures, accesses outside a block, reads of raw memory and
      destruction of raw memory are [Undefined].
    - The lifetime of an object starts with a constructor and ends with its
      destructor.  An assignment stores a value and leaves the lifetime of
      the target as it was: assigning into a slot without a live object
      yields a [Husk], a value with no object around it. *)

From stdpp Require Import base gmap list.

(** ** The element type *)

Class Elem (T : Type) := {
  (** [std::is_nothrow_move_constructible_v<T>] *)
  nothrow_move_constructible : bool;
  (** [std::is_copy_constructible_v<T>] *)
  copy_constructible : bool;
  (** the value of [T()] *)
  value_initialized : T;
  (** what a move (constructor or assignment) leaves in its source *)
  moved_from : T → T;
  (** which calls throw *)
  value_init_throws : bool;
  copy_ctor_throws : T → bool;
  move_ctor_throws : T → bool;
  copy_assign_throws : T → bool;
  move_assign_throws : T → bool;
  (** a move constructor declared [noexcept] does not throw *)
  nothrow_move_sound :
    nothrow_move_constructible = true → ∀ v, move_ctor_throws v = false
}.

(** The global memory source: [alloc_fails n] says that [operator new] for
    [n] elements throws [std::bad_alloc]. *)
Class MemorySource := { alloc_fails : nat → bool }.

(** ** Memory, pointers, the monad *)

Module Mem.
Section defs.
Context {T : Type}.

Inductive slot :=
  | Raw              (* uninitialized memory *)
  | Obj (v : T)      (* a constructed object *)
  | Husk (v : T).    (* a value assigned into memory that holds no object *)

(** [T*]: a block and an offset into it; [nullptr] is [Ptr None 0]. *)
Record ptr := Ptr { blk : option nat; off : nat }.

Definition nullptr : ptr := Ptr None 0.
Definition ptr_add (p : ptr) (k : nat) : ptr := Ptr (blk p) (off p + k).

(** The calls of [T]'s special members, in program order. *)
Inductive event :=
  | ECtor (v : T)           (* T(args...) *)
  | EValueInit              (* T() *)
  | ECopyCtor (v : T)       (* T(const T&) *)
  | EMoveCtor (v : T)       (* T(T&&) *)
  | ECopyAssign (v : T)     (* operator=(const T&) *)
  | EMoveAssign (v : T)     (* operator=(T&&) *)
  | EDtor (v : T).          (* ~T() *)

Record RawMemory := MkRaw { buffer_ : option nat; capacity_ : nat }.
Record Vector := MkVec { data_ : RawMemory; size_ : nat }.

Record state := MkState {
  vecs : gmap nat Vector;          (* the Vector objects, by address *)
  blocks : gmap nat (list slot);   (* the blocks handed out by operator new *)
  trace : list event
}.

Definition set_vecs (f : gmap nat Vector → gmap nat Vector) (s : state) :=
  MkState (f (vecs s)) (blocks s) (trace s).
Definition set_blocks (f : gmap nat (list slot) → gmap nat (list slot)) (s : state) :=
  MkState (vecs s) (f (blocks s)) (trace s).
Definition set_trace (f : list event → list event) (s : state) :=
  MkState (vecs s) (blocks s) (f (trace s)).

Inductive result (A : Type) :=
  | Ret (a : A) (s : state)
  | Throw (s : state)
  | Undefined.
Global Arguments Ret {A} a s.
Global Arguments Throw {A} s.
Global Arguments Undefined {A}.

Definition M (A : Type) := state → result A.

Definition ret {A} (a : A) : M A := Ret a.
Definition bind {A B} (m : M A) (f : A → M B) : M B :=
  λ s, match m s with
       | Ret a s' => f a s'
       | Throw s' => Throw s'
       | Undefined => Undefined
       end.
Definition throw {A} : M A := Throw.
Definition undefined {A} : M A := λ _, Undefined.
Definition assert (b : bool) : M unit := if b then ret tt else undefined.

(** [try { m } catch (...) { cleanup; throw; }] *)
Definition unwinding {A} (m : M A) (cleanup : M unit) : M A :=
  λ s, match m s with
       | Throw s' => match cleanup s' with
                     | Ret _ s'' | Throw s'' => Throw s''
                     | Undefined => Undefined
                     end
       | r => r
       end.

Definition emit (e : event) : M unit :=
  λ s, Ret tt (set_trace (λ t, t ++ [e]) s).

Definition slot_value (x : slot) : option T :=
  match x with Raw => None | Obj v | Husk v => Some v end.

Definition load (p : ptr) (s : state) : option slot :=
  match blk p with
  | Some b => match blocks s !! b with
              | Some l => l !! off p
              | None => None
              end
  | None => None
  end.

Definition store (p : ptr) (x : slot) : M unit :=
  λ s, match blk p with
       | Some b =>
           match blocks s !! b with
           | Some l =>
               if decide (off p < length l)
               then Ret tt (set_blocks <[b := <[off p := x]> l]> s)
               else Undefined
           | None => Undefined
           end
       | None => Undefined
       end.

(** Reading the value of [*p]. *)
Definition read (p : ptr) : M T :=
  λ s, match load p s with
       | Some (Obj v) | Some (Husk v) => Ret v s
       | _ => Undefined
       end.

(** Storing a value into [*p] without touching its lifetime. *)
Definition assign (p : ptr) (v : T) : M unit :=
  λ s, match load p s with
       | Some (Obj _) => store p (Obj v) s
       | Some _ => store p (Husk v) s
       | None => Undefined
       end.
End defs.
Global Arguments slot : clear implicits.
Global Arguments ptr : clear implicits.
Global Arguments event : clear implicits.
Global Arguments state : clear implicits.
Global Arguments result : clear implicits.
Global Arguments M : clear implicits.
End Mem.
Export Mem.

Global Instance M_ret {T} : MRet (M T) := λ A, ret.
Global Instance M_bind {T} : MBind (M T) := λ A B f m, bind m f.

Notation "p +ₚ k" := (ptr_add p k) (at level 50, left associativity).

(** ** Calls of [T]'s special members *)

Module Obj.
Section defs.
Context {T : Type} `{!Elem T}.

(** What a constructor call is given: arguments that build [v]
    ([T(args...)]), arguments whose constructor throws, a [const T&], or a
    [T&&].  A reference is the address of the object referred to, so that
    it can refer to an element of the vector itself. *)
Inductive args :=
  | Build (v : T)
  | BuildFails
  | CopyOf (p : ptr)
  | MoveOf (p : ptr).

(** The value a constructor call gives the new object.  Reading it throws
    when the constructor does; a move leaves its source moved-from. *)
Definition fetch (a : args) : M T T :=
  match a with
  | Build v => mret v
  | BuildFails => throw
  | CopyOf p => v ← read p;
                if copy_ctor_throws v then throw else mret v
  | MoveOf p => v ← read p;
                if move_ctor_throws v then throw
                else assign p (moved_from v);; mret v
  end.

Definition ctor_event (a : args) (v : T) : event T :=
  match a with
  | Build _ | BuildFails => ECtor v
  | CopyOf _ => ECopyCtor v
  | MoveOf _ => EMoveCtor v
  end.

(** [new (dst) T(std::forward<Args>(args)...)] *)
Definition construct (dst : ptr) (a : args) : M T unit :=
  v ← fetch a; store dst (Obj v);; emit (ctor_event a v).

(** [new (dst) T(x)] and [new (dst) T(std::move(x))] for [x = *src] *)
Definition copy_construct (src dst : ptr) : M T unit := construct dst (CopyOf src).
Definition move_construct (src dst : ptr) : M T unit := construct dst (MoveOf src).

(** [new (dst) T()] *)
Definition value_construct (dst : ptr) : M T unit :=
  if value_init_throws then throw
  else store dst (Obj value_initialized);; emit EValueInit.

(** [y = x] for [x = *src], [y = *dst] *)
Definition copy_assign (src dst : ptr) : M T unit :=
  v ← read src;
  if copy_assign_throws v then throw
  else assign dst v;; emit (ECopyAssign v).

(** [y = std::move(x)] for [x = *src], [y = *dst] *)
Definition move_assign (src dst : ptr) : M T unit :=
  v ← read src;
  if move_assign_throws v then throw
  else assign src (moved_from v);; assign dst v;; emit (EMoveAssign v).

(** [p->~T()] *)
Definition destroy_at (p : ptr) : M T unit :=
  v ← read p; emit (EDtor v);; store p Raw.
End defs.
Global Arguments args : clear implicits.
End Obj.
Export Obj.

(** ** The algorithms of <memory> and <algorithm> that vector.h calls *)

Module Std.
Section defs.
Context {T : Type} `{!Elem T}.

(** [last - first] for [first <= last] in one block. *)
Definition distance (first last : ptr) : M T nat :=
  assert (bool_decide (blk first = blk last ∧ off first ≤ off last));;
  mret (off last - off first).

Fixpoint destroy_n (p : ptr) (n : nat) : M T unit :=
  match n with
  | 0 => mret tt
  | S n' => destroy_at p;; destroy_n (p +ₚ 1) n'
  end.

(** The uninitialized_* algorithms destroy what they constructed when a
    constructor throws, and rethrow. *)
Fixpoint uninitialized_value_construct_n (p : ptr) (n : nat) : M T unit :=
  match n with
  | 0 => mret tt
  | S n' => value_construct p;;
            unwinding (uninitialized_value_construct_n (p +ₚ 1) n')
                      (destroy_at p)
  end.

Fixpoint uninitialized_copy_n (src : ptr) (n : nat) (dst : ptr) : M T unit :=
  match n with
  | 0 => mret tt
  | S n' => copy_construct src dst;;
            unwinding (uninitialized_copy_n (src +ₚ 1) n' (dst +ₚ 1))
                      (destroy_at dst)
  end.

Fixpoint uninitialized_move_n (src : ptr) (n : nat) (dst : ptr) : M T unit :=
  match n with
  | 0 => mret tt
  | S n' => move_construct src dst;;
            unwinding (uninitialized_move_n (src +ₚ 1) n' (dst +ₚ 1))
                      (destroy_at dst)
  end.

Fixpoint copy_n (src : ptr) (n : nat) (dst : ptr) : M T unit :=
  match n with
  | 0 => mret tt
  | S n' => copy_assign src dst;; copy_n (src +ₚ 1) n' (dst +ₚ 1)
  end.

Fixpoint move_n (src : ptr) (n : nat) (dst : ptr) : M T unit :=
  match n with
  | 0 => mret tt
  | S n' => move_assign src dst;; move_n (src +ₚ 1) n' (dst +ₚ 1)
  end.

(** [std::copy(first, last, d_first)] *)
Definition copy (first last d_first : ptr) : M T unit :=
  n ← distance first last; copy_n first n d_first.

(** [std::move(first, last, d_first)] *)
Definition move (first last d_first : ptr) : M T unit :=
  n ← distance first last; move_n first n d_first.

(** Moves [first[n-1]] to [d_first[n-1]], then [first[n-2]], and so on. *)
Fixpoint move_backward_n (first : ptr) (n : nat) (d_first : ptr) : M T unit :=
  match n with
  | 0 => mret tt
  | S n' => move_assign (first +ₚ n') (d_first +ₚ n');;
            move_backward_n first n' d_first
  end.

(** [std::move_backward(first, last, d_last)]; [d_last - n] needs
    [n <= d_last]. *)
Definition move_backward (first last d_last : ptr) : M T unit :=
  n ← distance first last;
  assert (bool_decide (n ≤ off d_last));;
  move_backward_n first n (Ptr (blk d_last) (off d_last - n)).
End defs.
End Std.

(** ** [class RawMemory] *)

Module RawMemory.
Section defs.
Context {T : Type} `{!Elem T} `{!MemorySource}.

(** [operator new(n * sizeof(T))]: a fresh block of [n] raw slots, or
    [std::bad_alloc]. *)
Definition operator_new (n : nat) : M T (option nat) :=
  λ s, if alloc_fails n then Throw s
       else let b := fresh (dom (blocks s)) in
            Ret (Some b) (set_blocks <[b := replicate n Raw]> s).

(** [operator delete(buf)]: of a null pointer it does nothing; of a block
    that is not allocated it is undefined. *)
Definition operator_delete (buf : option nat) : M T unit :=
  match buf with
  | None => mret tt
  | Some b => λ s, match blocks s !! b with
                   | Some _ => Ret tt (set_blocks (delete b) s)
                   | None => Undefined
                   end
  end.

(** [static T* Allocate(size_t n)] *)
Definition Allocate (n : nat) : M T (option nat) :=
  if decide (n ≠ 0) then operator_new n else mret None.

(** [static void Deallocate(T* buf)] *)
Definition Deallocate (buf : option nat) : M T unit := operator_delete buf.

(** [RawMemory() = default] *)
Definition empty : RawMemory := MkRaw None 0.

(** [explicit RawMemory(size_t capacity)] *)
Definition ctor (capacity : nat) : M T RawMemory :=
  buffer ← Allocate capacity; mret (MkRaw buffer capacity).

(** [~RawMemory()] *)
Definition dtor (m : RawMemory) : M T unit := Deallocate (buffer_ m).

Definition GetAddress (m : RawMemory) : ptr := Ptr (buffer_ m) 0.
Definition Capacity (m : RawMemory) : nat := capacity_ m.

(** [T* operator+(size_t offset)] *)
Definition plus (m : RawMemory) (offset : nat) : M T ptr :=
  assert (bool_decide (offset ≤ capacity_ m));;
  mret (GetAddress m +ₚ offset).

(** [T& operator[](size_t index)] *)
Definition index (m : RawMemory) (i : nat) : M T ptr :=
  assert (bool_decide (i < capacity_ m));;
  mret (GetAddress m +ₚ i).

(** [void Swap(RawMemory& other)], on two distinct objects: the pair
    (this, other) after the call. *)
Definition Swap (this other : RawMemory) : RawMemory * RawMemory :=
  (MkRaw (buffer_ other) (capacity_ other),
   MkRaw (buffer_ this) (capacity_ this)).

(** A local [RawMemory<T> buffer(capacity)] and the statements in its
    scope.  The body returns the buffer as it is when the scope is left;
    when the body throws, the buffer is the one constructed, because
    [Swap], the only statement that changes it, comes last and does not
    throw.  Leaving the scope either way runs [~RawMemory]. *)
Definition scope {A} (capacity : nat) (body : RawMemory → M T (RawMemory * A))
  : M T A :=
  buffer ← ctor capacity;
  ((λ s, match body buffer s with
         | Ret (buffer', a) s' => (dtor buffer';; mret a) s'
         | Throw s' => (dtor buffer;; throw) s'
         | Undefined => Undefined
         end) : M T A).

(** RawMemory objects that are referred to by address: [this != &rhs]
    compares addresses. *)
Definition objects := gmap nat RawMemory.

(** [void Swap(RawMemory& other)] at addresses [this] and [other]. *)
Definition Swap_at (this other : nat) (σ : objects) : option objects :=
  a ← σ !! this; b ← σ !! other;
  Some (<[other := MkRaw (buffer_ a) (capacity_ a)]>
          (<[this := MkRaw (buffer_ b) (capacity_ b)]> σ)).

(** [RawMemory(RawMemory&& other)]: the members of the new object take
    their default initializers, then [this->Swap(other)]. *)
Definition move_ctor (this other : nat) (σ : objects) : option objects :=
  Swap_at this other (<[this := empty]> σ).

(** [RawMemory& operator=(RawMemory&& rhs)] *)
Definition move_assign (this rhs : nat) (σ : objects) : option objects :=
  if decide (this ≠ rhs) then Swap_at this rhs σ else Some σ.
End defs.
End RawMemory.

(** ** [class Vector] *)

Module Vector.
Section defs.
Context {T : Type} `{!Elem T} `{!MemorySource}.

(** Access to the object at address [this]. *)
Definition get (this : nat) : M T Vector :=
  λ s, match vecs s !! this with
       | Some v => Ret v s
       | None => Undefined
       end.
Definition put (this : nat) (v : Vector) : M T unit :=
  λ s, Ret tt (set_vecs <[this := v]> s).
Definition set_data (this : nat) (d : RawMemory) : M T unit :=
  v ← get this; put this (MkVec d (size_ v)).
Definition set_size (this : nat) (n : nat) : M T unit :=
  v ← get this; put this (MkVec (data_ v) n).

Definition Size (v : Vector) : nat := size_ v.
Definition Capacity (v : Vector) : nat := RawMemory.Capacity (data_ v).
Definition begin (v : Vector) : ptr := RawMemory.GetAddress (data_ v).
Definition end_ (v : Vector) : ptr := RawMemory.GetAddress (data_ v) +ₚ size_ v.

(** [T& operator[](size_t index)] *)
Definition index (this : nat) (i : nat) : M T ptr :=
  v ← get this;
  assert (bool_decide (i < size_ v));;
  RawMemory.index (data_ v) i.

(** The condition of the two [if constexpr]: move rather than copy. *)
Definition use_move : bool :=
  nothrow_move_constructible || negb copy_constructible.

(** [void MoveOrCopy(T* src, size_t n, T* dest)] *)
Definition MoveOrCopy (src : ptr) (n : nat) (dest : ptr) : M T unit :=
  if use_move then Std.uninitialized_move_n src n dest
  else Std.uninitialized_copy_n src n dest.

(** [void MoveOrCopyAndSwap(RawMemory<T>& data, size_t n_elems,
    RawMemory<T>& buf)]; every call passes [data_] of [this] for [data].
    The result is [buf] after the swap. *)
Definition MoveOrCopyAndSwap (this : nat) (n_elems : nat) (buf : RawMemory)
  : M T RawMemory :=
  v ← get this;
  MoveOrCopy (RawMemory.GetAddress (data_ v)) n_elems (RawMemory.GetAddress buf);;
  Std.destroy_n (RawMemory.GetAddress (data_ v)) n_elems;;
  set_data this (RawMemory.Swap (data_ v) buf).1;;
  mret (RawMemory.Swap (data_ v) buf).2.

(** [Vector() = default] *)
Definition ctor (this : nat) : M T unit := put this (MkVec RawMemory.empty 0).

(** [Vector(size_t size)]; when the body throws, the member [data_] is
    destroyed. *)
Definition ctor_size (this : nat) (size : nat) : M T unit :=
  data ← RawMemory.ctor size;
  unwinding
    (Std.uninitialized_value_construct_n (RawMemory.GetAddress data) size)
    (RawMemory.dtor data);;
  put this (MkVec data size).

(** [Vector(const Vector& other)] *)
Definition copy_ctor (this other : nat) : M T unit :=
  o ← get other;
  data ← RawMemory.ctor (Size o);
  unwinding
    (Std.uninitialized_copy_n (RawMemory.GetAddress (data_ o)) (Size o)
                              (RawMemory.GetAddress data))
    (RawMemory.dtor data);;
  put this (MkVec data (Size o)).

(** [void Swap(Vector& other)] *)
Definition Swap (this other : nat) : M T unit :=
  a ← get this;
  b ← get other;
  put this (MkVec (RawMemory.Swap (data_ a) (data_ b)).1 (size_ b));;
  put other (MkVec (RawMemory.Swap (data_ a) (data_ b)).2 (size_ a)).

(** [Vector(Vector&& rhs)] *)
Definition move_ctor (this rhs : nat) : M T unit :=
  ctor this;; Swap this rhs.

(** [~Vector()], then the destructor of the member [data_]; the object
    is gone afterwards. *)
Definition dtor (this : nat) : M T unit :=
  v ← get this;
  Std.destroy_n (RawMemory.GetAddress (data_ v)) (size_ v);;
  RawMemory.dtor (data_ v);;
  ((λ s, Ret tt (set_vecs (delete this) s)) : M T unit).

(** [void Reserve(size_t new_capacity)] *)
Definition Reserve (this : nat) (new_capacity : nat) : M T unit :=
  v ← get this;
  if decide (new_capacity ≤ RawMemory.Capacity (data_ v)) then mret tt
  else RawMemory.scope new_capacity (λ buffer,
         buffer' ← MoveOrCopyAndSwap this (size_ v) buffer;
         mret (buffer', tt)).

(** [void Resize(size_t new_size)] *)
Definition Resize (this : nat) (new_size : nat) : M T unit :=
  v ← get this;
  if decide (new_size = size_ v) then mret tt
  else
    (if decide (size_ v < new_size) then
       (if decide (Capacity v < new_size) then Reserve this new_size
        else mret tt);;
       v' ← get this;
       Std.uninitialized_value_construct_n
         (RawMemory.GetAddress (data_ v') +ₚ size_ v') (new_size - size_ v')
     else
       Std.destroy_n (RawMemory.GetAddress (data_ v) +ₚ new_size)
                     (size_ v - new_size));;
    set_size this new_size.

(** The capacity of the block a full vector grows into. *)
Definition grown (size : nat) : nat := if decide (size = 0) then 1 else size * 2.

(** [template <typename... Args> T& EmplaceBack(Args&&... args)] *)
Definition EmplaceBack (this : nat) (a : args T) : M T ptr :=
  v ← get this;
  (if decide (size_ v = Capacity v) then
     RawMemory.scope (grown (size_ v)) (λ buffer,
       p ← RawMemory.index buffer (size_ v);
       construct p a;;
       buffer' ← MoveOrCopyAndSwap this (size_ v) buffer;
       mret (buffer', tt))
   else
     p ← RawMemory.index (data_ v) (size_ v);
     construct p a);;
  v' ← get this;
  set_size this (S (size_ v'));;
  index this (S (size_ v') - 1).

(** [void PushBack(const T& value)] and [void PushBack(T&& value)] *)
Definition PushBack (this : nat) (value : ptr) : M T unit :=
  EmplaceBack this (CopyOf value);; mret tt.
Definition PushBack_rvalue (this : nat) (value : ptr) : M T unit :=
  EmplaceBack this (MoveOf value);; mret tt.

(** [void PopBack()] *)
Definition PopBack (this : nat) : M T unit :=
  v ← get this;
  if decide (0 < size_ v) then
    p ← RawMemory.index (data_ v) (size_ v - 1);
    destroy_at p;;
    set_size this (size_ v - 1)
  else mret tt.

(** [new T(args...)]: one object in a block of its own; the block is
    released when the constructor throws. *)
Definition new_object (a : args T) : M T ptr :=
  b ← RawMemory.operator_new 1;
  unwinding (construct (Ptr b 0) a) (RawMemory.operator_delete b);;
  mret (Ptr b 0).

(** [assert(pos >= this->begin() && pos <= this->end())] *)
Definition in_range (v : Vector) (pos : ptr) : bool :=
  bool_decide (blk pos = buffer_ (data_ v) ∧ off pos ≤ size_ v).

(** [template <typename... Args> iterator Emplace(const_iterator pos,
    Args&&... args)] *)
Definition Emplace (this : nat) (pos : ptr) (a : args T) : M T ptr :=
  v ← get this;
  assert (in_range v pos);;
  dist ← Std.distance (begin v) pos;
  position ←
    (if decide (size_ v = Capacity v) then
       RawMemory.scope (grown (size_ v)) (λ buffer,
         let position := RawMemory.GetAddress buffer +ₚ dist in
         construct position a;;
         MoveOrCopy (RawMemory.GetAddress (data_ v)) dist
                    (RawMemory.GetAddress buffer);;
         MoveOrCopy (RawMemory.GetAddress (data_ v) +ₚ dist) (size_ v - dist)
                    (RawMemory.GetAddress buffer +ₚ (dist + 1));;
         Std.destroy_n (RawMemory.GetAddress (data_ v)) (size_ v);;
         set_data this (RawMemory.Swap (data_ v) buffer).1;;
         mret ((RawMemory.Swap (data_ v) buffer).2, position))
     else
       let position := begin v +ₚ dist in
       (if decide (dist = size_ v) then construct position a
        else
          temp ← new_object a;
          last ← RawMemory.index (data_ v) (size_ v - 1);
          move_construct last (end_ v);;
          Std.move_backward position (Ptr (blk (end_ v)) (off (end_ v) - 1))
                            (end_ v);;
          destroy_at position;;
          target ← RawMemory.index (data_ v) dist;
          move_assign temp target);;
       mret position);
  v' ← get this;
  set_size this (S (size_ v'));;
  mret position.

(** [iterator Insert(const_iterator pos, const T& value)] and
    [iterator Insert(const_iterator pos, T&& value)] *)
Definition Insert (this : nat) (pos : ptr) (value : ptr) : M T ptr :=
  Emplace this pos (CopyOf value).
Definition Insert_rvalue (this : nat) (pos : ptr) (value : ptr) : M T ptr :=
  Emplace this pos (MoveOf value).

(** [iterator Erase(const_iterator pos)] *)
Definition Erase (this : nat) (pos : ptr) : M T ptr :=
  v ← get this;
  assert (in_range v pos);;
  dist ← Std.distance (RawMemory.GetAddress (data_ v)) pos;
  let position := RawMemory.GetAddress (data_ v) +ₚ dist in
  destroy_at position;;
  (if use_move then Std.move (position +ₚ 1) (end_ v) position
   else Std.copy (position +ₚ 1) (end_ v) position);;
  set_size this (size_ v - 1);;
  mret position.

(** [void CopyToFilledVector(Vector& lhs, const Vector& rhs)] *)
Definition CopyToFilledVector (lhs rhs : nat) : M T unit :=
  l ← get lhs;
  r ← get rhs;
  let lhs_size := size_ l in
  let rhs_size := Size r in
  let min_size := lhs_size `min` rhs_size in
  Std.copy (begin r) (end_ r) (begin l);;
  (if decide (min_size = lhs_size) then
     Std.uninitialized_copy_n (RawMemory.GetAddress (data_ r) +ₚ lhs_size)
                              (rhs_size - lhs_size)
                              (RawMemory.GetAddress (data_ l) +ₚ lhs_size)
   else mret tt);;
  (if decide (min_size = rhs_size ∧ rhs_size ≠ lhs_size) then
     Std.destroy_n (RawMemory.GetAddress (data_ l) +ₚ rhs_size)
                   (lhs_size - rhs_size)
   else mret tt);;
  set_size lhs rhs_size.

(** [Vector& operator=(const Vector& rhs)]; the local [temp] is an object
    at an unused address. *)
Definition copy_assign (this rhs : nat) : M T unit :=
  if decide (this ≠ rhs) then
    l ← get this;
    r ← get rhs;
    if decide (RawMemory.Capacity (data_ l) < size_ r) then
      temp ← ((λ s, Ret (fresh (dom (vecs s))) s) : M T nat);
      copy_ctor temp rhs;;
      Swap this temp;;
      dtor temp
    else CopyToFilledVector this rhs
  else mret tt.

(** [Vector& operator=(Vector&& other)] *)
Definition move_assign (this other : nat) : M T unit :=
  if decide (this ≠ other) then Swap this other else mret tt.
End defs.
End Vector.

(** ** Describing stores *)

Section descr.
Context {T : Type} `{!Elem T}.

(** The cell [c] after a value is assigned into it. *)
Definition set_val (c : slot T) (v : T) : slot T :=
  match c with
  | Obj _ => Obj v
  | Raw | Husk _ => Husk v
  end.

(** The cells [c0 :: cs] after each cell of [cs] in turn was assigned to its
    predecessor, the source keeping [leave v] of its value [v]: with
    [moved_from] this is a shift by move, with [id] a shift by copy. *)
Fixpoint shift (leave : T → T) (c0 : slot T) (cs : list (slot T)) : list (slot T) :=
  match cs with
  | [] => [c0]
  | c :: cs' =>
      match slot_value c with
      | Some v => set_val c0 v :: shift leave (set_val c (leave v)) cs'
      | None => [c0]
      end
  end.

(** The source cell of a move, afterwards. *)
Definition moved (c : slot T) : slot T :=
  match slot_value c with
  | Some v => set_val c (moved_from v)
  | None => c
  end.

(** What relocation does to its source, the call it makes, and whether that
    call throws. *)
Definition relocated (c : slot T) : slot T := if Vector.use_move then moved c else c.
Definition reloc_event (v : T) : event T :=
  if Vector.use_move then EMoveCtor v else ECopyCtor v.
Definition reloc_throws (v : T) : bool :=
  if Vector.use_move then move_ctor_throws v else copy_ctor_throws v.

(** The cells hold the values [xs], whatever their lifetimes. *)
Definition has_values (cells : list (slot T)) (xs : list T) : Prop :=
  slot_value <$> cells = Some <$> xs.

(** The cells that the pointer [ob] to the start of a block leads to; the
    null pointer leads to none. *)
Definition cells_at (bl : gmap nat (list (slot T))) (ob : option nat)
    (cells : list (slot T)) : Prop :=
  match ob with
  | Some b => bl !! b = Some cells
  | None => cells = []
  end.

(** The cells of the block of [m]. *)
Definition block_is (s : state T) (m : RawMemory) (cells : list (slot T)) : Prop :=
  capacity_ m = length cells ∧ cells_at (blocks s) (buffer_ m) cells.

(** The vector at [this] has storage [m], whose block starts with [cells],
    one per element, and ends with [rest]. *)
Definition repr (s : state T) (this : nat) (m : RawMemory)
    (cells rest : list (slot T)) : Prop :=
  vecs s !! this = Some (MkVec m (length cells)) ∧ block_is s m (cells ++ rest).

(** The vector at [this] has the elements [xs] and capacity [cap]. *)
Definition vector_is (s : state T) (this : nat) (xs : list T) (cap : nat) : Prop :=
  ∃ m cells rest,
    repr s this m cells rest ∧ has_values cells xs ∧ capacity_ m = cap.

(** The invariant of the data model: the first [size_] slots of the block
    hold constructed objects, the others are raw memory. *)
Definition well_formed (s : state T) (this : nat) : Prop :=
  ∃ m xs n, repr s this m (Obj <$> xs) (replicate n Raw).

(** A result with its store changed by [f]. *)
Definition result_map {A} (f : state T → state T) (r : result T A) : result T A :=
  match r with
  | Ret a s => Ret a (f s)
  | Throw s => Throw (f s)
  | Undefined => Undefined
  end.

(** The arguments do not move from an object in the block [ob]. *)
Definition detached (a : args T) (ob : option nat) : Prop :=
  match a with
  | MoveOf p => blk p ≠ ob
  | _ => True
  end.

(** What relocation leaves of a value in the old block. *)
Definition left_behind (v : T) : T := if Vector.use_move then moved_from v else v.

(** The blocks after [operator delete] of [ob]. *)
Definition released (ob : option nat) (bl : gmap nat (list (slot T)))
  : gmap nat (list (slot T)) :=
  match ob with
  | Some b => delete b bl
  | None => bl
  end.

(** The blocks with the cells of block [ob] replaced. *)
Definition put_block (ob : option nat) (l : list (slot T))
    (bl : gmap nat (list (slot T))) : gmap nat (list (slot T)) :=
  match ob with
  | Some b => <[b := l]> bl
  | None => bl
  end.

(** What the shift of [Erase] leaves in its sources, the call it makes, and
    whether that call throws. *)
Definition shift_leave (v : T) : T := if Vector.use_move then moved_from v else v.
Definition shift_event (v : T) : event T :=
  if Vector.use_move then EMoveAssign v else ECopyAssign v.
Definition shift_throws (v : T) : bool :=
  if Vector.use_move then move_assign_throws v else copy_assign_throws v.

(** The computation [m] leaves the Vector objects as they are. *)
Definition keeps_vecs {A} (m : M T A) : Prop :=
  ∀ s, match m s with
       | Ret _ s' | Throw s' => vecs s' = vecs s
       | Undefined => True
       end.

(** The vector at [this] has capacity [c] at least. *)
Definition cap_ge (this c : nat) (vs : gmap nat Vector) : Prop :=
  ∃ v, vs !! this = Some v ∧ c ≤ capacity_ (data_ v).

(** From Vector objects that satisfy [P], the computation [m] returns with
    objects that satisfy [Q], or throws with the capacity of [this] at
    least [c]. *)
Definition triple (this c : nat) (P : gmap nat Vector → Prop) {A} (m : M T A)
    (Q : A → gmap nat Vector → Prop) : Prop :=
  ∀ s, P (vecs s) →
       match m s with
       | Ret a s' => Q a (vecs s')
       | Throw s' => cap_ge this c (vecs s')
       | Undefined => True
       end.

(** The vector at [this] has storage [m] and the elements [xs], and
    satisfies the invariant of the data model: an object in each of the
    first [length xs] slots of its block, raw memory in the others. *)
Definition valid (s : state T) (this : nat) (m : RawMemory) (xs : list T) : Prop :=
  repr s this m (Obj <$> xs) (replicate (capacity_ m - length xs) Raw).
End descr.

(** ** The public operations on one vector *)

Section calls.
Context {T : Type} `{!Elem T} `{!MemorySource}.

Inductive operation :=
  | OpReserve (new_capacity : nat)
  | OpResize (new_size : nat)
  | OpPushBack (value : ptr)
  | OpPushBackRvalue (value : ptr)
  | OpEmplaceBack (a : args T)
  | OpPopBack
  | OpEmplace (pos : ptr) (a : args T)
  | OpInsert (pos value : ptr)
  | OpInsertRvalue (pos value : ptr)
  | OpErase (pos : ptr)
  | OpIndex (i : nat)
  | OpCopyAssign (rhs : nat).

(** The call [this->o], its result dropped. *)
Definition call (this : nat) (o : operation) : M T unit :=
  match o with
  | OpReserve n => Vector.Reserve this n
  | OpResize n => Vector.Resize this n
  | OpPushBack value => Vector.PushBack this value
  | OpPushBackRvalue value => Vector.PushBack_rvalue this value
  | OpEmplaceBack a => Vector.EmplaceBack this a;; mret tt
  | OpPopBack => Vector.PopBack this
  | OpEmplace pos a => Vector.Emplace this pos a;; mret tt
  | OpInsert pos value => Vector.Insert this pos value;; mret tt
  | OpInsertRvalue pos value => Vector.Insert_rvalue this pos value;; mret tt
  | OpErase pos => Vector.Erase this pos;; mret tt
  | OpIndex i => Vector.index this i;; mret tt
  | OpCopyAssign rhs => Vector.copy_assign this rhs
  end.
End calls.
Global Arguments operation : clear implicits.

(** ** Element types and stores of the examples *)

Module Examples.

(** A memory source that never fails. *)
Definition plenty : MemorySource := {| alloc_fails := λ _, false |}.

(** A type like [std::string], with natural numbers for values: all its
    special members exist, none throws, and a move leaves [0] behind. *)
Definition string_like : Elem nat := {|
  nothrow_move_constructible := true;
  copy_constructible := true;
  value_initialized := 0;
  moved_from := λ _, 0;
  value_init_throws := false;
  copy_ctor_throws := λ _, false;
  move_ctor_throws := λ _, false;
  copy_assign_throws := λ _, false;
  move_assign_throws := λ _, false;
  nothrow_move_sound := λ _ _, eq_refl
|}.

(** A type that cannot be copied and whose move constructor, not declared
    [noexcept], throws for the value [2]. *)
Definition move_only : Elem nat := {|
  nothrow_move_constructible := false;
  copy_constructible := false;
  value_initialized := 0;
  moved_from := λ _, 0;
  value_init_throws := false;
  copy_ctor_throws := λ _, false;
  move_ctor_throws := λ v, Nat.eqb v 2;
  copy_assign_throws := λ _, false;
  move_assign_throws := λ _, false;
  nothrow_move_sound := λ H, match Bool.diff_false_true H with end
|}.

(** A type whose move constructor is not declared [noexcept] and whose copy
    constructor throws for the value [2]. *)
Definition copy_throws : Elem nat := {|
  nothrow_move_constructible := false;
  copy_constructible := true;
  value_initialized := 0;
  moved_from := λ _, 0;
  value_init_throws := false;
  copy_ctor_throws := λ v, Nat.eqb v 2;
  move_ctor_throws := λ _, false;
  copy_assign_throws := λ _, false;
  move_assign_throws := λ _, false;
  nothrow_move_sound := λ H, match Bool.diff_false_true H with end
|}.

(** The vector {1, 2, 3} at address 7, its block full. *)
Definition v123 : state nat :=
  MkState {[7 := MkVec (MkRaw (Some 0) 3) 3]} {[0 := [Obj 1; Obj 2; Obj 3]]} [].

(** The vector {1, 2, 3} at address 7 with room for one more. *)
Definition v123_ : state nat :=
  MkState {[7 := MkVec (MkRaw (Some 0) 4) 3]} {[0 := [Obj 1; Obj 2; Obj 3; Raw]]} [].

(** The vector {1, 2} at address 7, its block full. *)
Definition v12 : state nat :=
  MkState {[7 := MkVec (MkRaw (Some 0) 2) 2]} {[0 := [Obj 1; Obj 2]]} [].

(** a = {1} with capacity 3 at address 1, b = {7, 8, 9} at address 2. *)
Definition a1_b789 : state nat :=
  MkState {[1 := MkVec (MkRaw (Some 0) 3) 1; 2 := MkVec (MkRaw (Some 1) 3) 3]}
          {[0 := [Obj 1; Raw; Raw]; 1 := [Obj 7; Obj 8; Obj 9]]} [].

(** a = {1} with capacity 4 at address 1, b = {5} with capacity 1 at
    address 2. *)
Definition a1_b5 : state nat :=
  MkState {[1 := MkVec (MkRaw (Some 0) 4) 1; 2 := MkVec (MkRaw (Some 1) 1) 1]}
          {[0 := [Obj 1; Raw; Raw; Raw]; 1 := [Obj 5]]} [].

(** Two RawMemory objects, each with a block. *)
Definition two_buffers : RawMemory.objects :=
  {[1 := MkRaw (Some 10) 2; 2 := MkRaw (Some 20) 3]}.

(** The number of assignments among the calls. *)
Definition is_assignment (e : event nat) : bool :=
  match e with
  | ECopyAssign _ | EMoveAssign _ => true
  | _ => false
  end.
Definition assignments (t : list (event nat)) : nat :=
  length (filter (λ e, is_assignment e = true) t).
End Examples.

(** ** More stores for examples *)

Module MoreExamples.

(** A memory source that always fails. *)
Definition no_memory : MemorySource := {| alloc_fails := λ _, true |}.

(** a = {5} with capacity 1 at address 1, b = {7, 8, 9} at address 2. *)
Definition a5_b789 : state nat :=
  MkState {[1 := MkVec (MkRaw (Some 0) 1) 1; 2 := MkVec (MkRaw (Some 1) 3) 3]}
          {[0 := [Obj 5]; 1 := [Obj 7; Obj 8; Obj 9]]} [].
End MoreExamples.

(** * Properties *)

Section basics.
Context {T : Type} `{!Elem T}.
Implicit Types (s : state T) (vs : gmap nat Vector) (bl : gmap nat (list (slot T)))
  (tr : list (event T)) (c : slot T) (l pre post : list (slot T)).

Lemma bind_unfold {A B} (m : M T A) (f : A → M T B) s :
  (m ≫= f) s = match m s with
               | Ret a s' => f a s'
               | Throw s' => Throw s'
               | Undefined => Undefined
               end.
Proof. reflexivity. Qed.

Lemma bind_ret {A B} (m : M T A) (f : A → M T B) s a s' :
  m s = Ret a s' → (m ≫= f) s = f a s'.
Proof. intros E. by rewrite bind_unfold, E. Qed.

Lemma bind_throw {A B} (m : M T A) (f : A → M T B) s s' :
  m s = Throw s' → (m ≫= f) s = Throw s'.
Proof. intros E. by rewrite bind_unfold, E. Qed.

Lemma set_val_set_val c v w : set_val (set_val c v) w = set_val c w.
Proof. by destruct c. Qed.

Lemma slot_value_set_val c v : slot_value (set_val c v) = Some v.
Proof. by destruct c. Qed.

Lemma set_val_id c v : slot_value c = Some v → set_val c v = c.
Proof. destruct c; naive_solver. Qed.

Lemma insert_middle pre c post x :
  <[length pre := x]> (pre ++ c :: post) = pre ++ x :: post.
Proof. by rewrite <-(Nat.add_0_r (length pre)), insert_app_r. Qed.

Lemma read_at vs bl tr b pre c post i v :
  bl !! b = Some (pre ++ c :: post) → i = length pre → slot_value c = Some v →
  read (Ptr (Some b) i) (MkState vs bl tr) = Ret v (MkState vs bl tr).
Proof.
  intros Hb -> Hv. unfold read, load; simpl. rewrite Hb, list_lookup_middle by done.
  destruct c; naive_solver.
Qed.

Lemma store_at vs bl tr b pre c post i x :
  bl !! b = Some (pre ++ c :: post) → i = length pre →
  store (Ptr (Some b) i) x (MkState vs bl tr)
  = Ret tt (MkState vs (<[b := pre ++ x :: post]> bl) tr).
Proof.
  intros Hb ->. unfold store; simpl. rewrite Hb.
  rewrite decide_True by (rewrite length_app; simpl; lia).
  unfold set_blocks; simpl. by rewrite insert_middle.
Qed.

Lemma assign_at vs bl tr b pre c post i v :
  bl !! b = Some (pre ++ c :: post) → i = length pre →
  assign (Ptr (Some b) i) v (MkState vs bl tr)
  = Ret tt (MkState vs (<[b := pre ++ set_val c v :: post]> bl) tr).
Proof.
  intros Hb ->. unfold assign, load; simpl. rewrite Hb, list_lookup_middle by done.
  destruct c; simpl; by erewrite store_at.
Qed.

Lemma emit_at vs bl tr e :
  emit e (MkState vs bl tr) = Ret tt (MkState vs bl (tr ++ [e])).
Proof. reflexivity. Qed.

Lemma destroy_at_at vs bl tr b pre c post i v :
  bl !! b = Some (pre ++ c :: post) → i = length pre → slot_value c = Some v →
  destroy_at (Ptr (Some b) i) (MkState vs bl tr)
  = Ret tt (MkState vs (<[b := pre ++ Raw :: post]> bl) (tr ++ [EDtor v])).
Proof.
  intros Hb -> Hv. unfold destroy_at.
  erewrite bind_ret by (by eapply read_at).
  erewrite bind_ret by apply emit_at.
  by erewrite store_at.
Qed.
End basics.

Section loops.
Context {T : Type} `{!Elem T}.
Implicit Types (s : state T) (vs : gmap nat Vector) (bl : gmap nat (list (slot T)))
  (tr : list (event T)) (c : slot T) (l pre post cs : list (slot T)) (xs : list T).

Lemma has_values_nil_inv xs : has_values [] xs → xs = [].
Proof. unfold has_values. by destruct xs. Qed.

Lemma has_values_cons_inv c cs xs :
  has_values (c :: cs) xs →
  ∃ x xs', xs = x :: xs' ∧ slot_value c = Some x ∧ has_values cs xs'.
Proof. unfold has_values. destruct xs as [|x xs']; naive_solver. Qed.

Lemma has_values_length cs xs : has_values cs xs → length cs = length xs.
Proof.
  unfold has_values. intros E. apply (f_equal length) in E.
  by rewrite !length_fmap in E.
Qed.

Lemma has_values_app cs1 cs2 xs1 xs2 :
  has_values cs1 xs1 → has_values cs2 xs2 → has_values (cs1 ++ cs2) (xs1 ++ xs2).
Proof. unfold has_values. intros E1 E2. by rewrite !fmap_app, E1, E2. Qed.

Lemma has_values_Obj xs : has_values (Obj <$> xs) xs.
Proof. unfold has_values. by rewrite <-list_fmap_compose. Qed.

Lemma has_values_app_inv cs xs1 xs2 :
  has_values cs (xs1 ++ xs2) →
  ∃ cs1 cs2, cs = cs1 ++ cs2 ∧ has_values cs1 xs1 ∧ has_values cs2 xs2.
Proof.
  unfold has_values. rewrite fmap_app. intros E.
  apply fmap_app_inv in E as (cs1 & cs2 & E1 & E2 & ->). eauto.
Qed.

Lemma ptr_add_Ptr (b : option nat) (i k : nat) : Ptr b i +ₚ k = Ptr b (i + k).
Proof. reflexivity. Qed.

Lemma destroy_n_at vs b cs : ∀ xs pre post bl tr i,
  bl !! b = Some (pre ++ cs ++ post) → i = length pre → has_values cs xs →
  Std.destroy_n (Ptr (Some b) i) (length cs) (MkState vs bl tr)
  = Ret tt (MkState vs (<[b := pre ++ replicate (length cs) Raw ++ post]> bl)
                    (tr ++ (EDtor <$> xs))).
Proof.
  induction cs as [|c cs IH]; intros xs pre post bl tr i Hb -> Hv.
  - apply has_values_nil_inv in Hv as ->. simpl.
    by rewrite app_nil_r, insert_id.
  - apply has_values_cons_inv in Hv as (x & xs' & -> & Hx & Hv).
    cbn [length Std.destroy_n].
    erewrite bind_ret by (by eapply destroy_at_at).
    rewrite ptr_add_Ptr.
    erewrite (IH xs' (pre ++ [Raw]) post); [|by rewrite lookup_insert_eq, <-app_assoc
                                            |by rewrite length_app|done].
    by rewrite insert_insert_eq, <-!app_assoc.
Qed.

(** Evaluating constructor arguments. *)
Lemma fetch_CopyOf vs bl tr b pre c post i v :
  bl !! b = Some (pre ++ c :: post) → i = length pre → slot_value c = Some v →
  fetch (CopyOf (Ptr (Some b) i)) (MkState vs bl tr)
  = if copy_ctor_throws v then Throw (MkState vs bl tr)
    else Ret v (MkState vs bl tr).
Proof.
  intros Hb -> Hv. unfold fetch.
  erewrite bind_ret by (by eapply read_at). by destruct (copy_ctor_throws v).
Qed.

Lemma fetch_MoveOf vs bl tr b pre c post i v :
  bl !! b = Some (pre ++ c :: post) → i = length pre → slot_value c = Some v →
  fetch (MoveOf (Ptr (Some b) i)) (MkState vs bl tr)
  = if move_ctor_throws v then Throw (MkState vs bl tr)
    else Ret v (MkState vs (<[b := pre ++ set_val c (moved_from v) :: post]> bl) tr).
Proof.
  intros Hb -> Hv. unfold fetch.
  erewrite bind_ret by (by eapply read_at). destruct (move_ctor_throws v); [done|].
  by erewrite bind_ret by (by eapply assign_at).
Qed.

Lemma construct_at vs bl bl1 tr b pre c post i a x :
  fetch a (MkState vs bl tr) = Ret x (MkState vs bl1 tr) →
  bl1 !! b = Some (pre ++ c :: post) → i = length pre →
  construct (Ptr (Some b) i) a (MkState vs bl tr)
  = Ret tt (MkState vs (<[b := pre ++ Obj x :: post]> bl1) (tr ++ [ctor_event a x])).
Proof.
  intros Hf Hb ->. unfold construct.
  erewrite bind_ret by done.
  by erewrite bind_ret by (by eapply store_at).
Qed.

Lemma construct_throw a s s' b i :
  fetch a s = Throw s' → construct (Ptr b i) a s = Throw s'.
Proof. intros Hf. unfold construct. by erewrite bind_throw. Qed.

Lemma unwinding_ret {A} (m : M T A) (h : M T unit) s a s' :
  m s = Ret a s' → unwinding m h s = Ret a s'.
Proof. intros E. unfold unwinding. by rewrite E. Qed.

Lemma unwinding_throw {A} (m : M T A) (h : M T unit) s s' s'' :
  m s = Throw s' → h s' = Ret tt s'' → unwinding m h s = Throw s''.
Proof. intros E1 E2. unfold unwinding. by rewrite E1, E2. Qed.

(** [uninitialized_copy_n] between two blocks. *)
Lemma uninitialized_copy_n_ok vs bs bd xs : ∀ sc dm spre spost dpre dpost bl tr i j,
  bs ≠ bd →
  bl !! bs = Some (spre ++ sc ++ spost) → i = length spre →
  bl !! bd = Some (dpre ++ dm ++ dpost) → j = length dpre →
  has_values sc xs → length dm = length xs →
  Forall (λ v, copy_ctor_throws v = false) xs →
  Std.uninitialized_copy_n (Ptr (Some bs) i) (length xs) (Ptr (Some bd) j)
                           (MkState vs bl tr)
  = Ret tt (MkState vs (<[bd := dpre ++ (Obj <$> xs) ++ dpost]> bl)
                    (tr ++ (ECopyCtor <$> xs))).
Proof.
  induction xs as [|x xs IH];
    intros sc dm spre spost dpre dpost bl tr i j Hne Hs -> Hd -> Hv Hlen Hok.
  - destruct dm; [|done]. simpl. by rewrite app_nil_r, insert_id.
  - destruct sc as [|c sc]; [done|]. destruct dm as [|d dm]; [done|].
    apply has_values_cons_inv in Hv as (x' & xs' & [= <- <-] & Hx & Hv).
    apply Forall_cons in Hok as [Hx0 Hok].
    cbn [length Std.uninitialized_copy_n]. unfold copy_construct.
    erewrite bind_ret; last first.
    { eapply construct_at; [|exact Hd|done].
      erewrite fetch_CopyOf by done. by rewrite Hx0. }
    rewrite !ptr_add_Ptr.
    erewrite unwinding_ret; last first.
    { eapply (IH sc dm (spre ++ [c]) spost (dpre ++ [Obj x]) dpost); try done.
      - by rewrite lookup_insert_ne, <-app_assoc.
      - by rewrite length_app.
      - by rewrite lookup_insert_eq, <-app_assoc.
      - by rewrite length_app.
      - simpl in Hlen. lia. }
    by rewrite insert_insert_eq, <-!app_assoc.
Qed.

(** A copy that throws at the first value of [xs] whose copy constructor
    throws: the copies made so far are destroyed. *)
Lemma uninitialized_copy_n_fail vs bs bd xs1 : ∀ x xs2 sc dm spre spost dpre dpost bl tr i j,
  bs ≠ bd →
  bl !! bs = Some (spre ++ sc ++ spost) → i = length spre →
  bl !! bd = Some (dpre ++ dm ++ dpost) → j = length dpre →
  has_values sc (xs1 ++ x :: xs2) → length dm = length (xs1 ++ x :: xs2) →
  Forall (λ v, copy_ctor_throws v = false) xs1 → copy_ctor_throws x = true →
  Std.uninitialized_copy_n (Ptr (Some bs) i) (length (xs1 ++ x :: xs2))
                           (Ptr (Some bd) j) (MkState vs bl tr)
  = Throw (MkState vs
             (<[bd := dpre ++ replicate (length xs1) Raw ++ drop (length xs1) dm ++ dpost]> bl)
             (tr ++ (ECopyCtor <$> xs1) ++ (EDtor <$> reverse xs1))).
Proof.
  induction xs1 as [|x1 xs1 IH];
    intros x xs2 sc dm spre spost dpre dpost bl tr i j Hne Hs -> Hd -> Hv Hlen Hok Hx.
  - destruct sc as [|c sc]; [done|]. destruct dm as [|d dm]; [done|].
    apply has_values_cons_inv in Hv as (x' & xs' & [= <- <-] & Hc & Hv).
    cbn [length app Std.uninitialized_copy_n]. unfold copy_construct.
    erewrite bind_throw; last first.
    { apply construct_throw. erewrite fetch_CopyOf by done. by rewrite Hx. }
    simpl. by rewrite app_nil_r, insert_id.
  - destruct sc as [|c sc]; [done|]. destruct dm as [|d dm]; [done|].
    apply has_values_cons_inv in Hv as (x' & xs' & [= <- <-] & Hc & Hv).
    apply Forall_cons in Hok as [Hx0 Hok].
    cbn [length app Std.uninitialized_copy_n]. unfold copy_construct.
    erewrite bind_ret; last first.
    { eapply construct_at; [|exact Hd|done].
      erewrite fetch_CopyOf by done. by rewrite Hx0. }
    rewrite !ptr_add_Ptr.
    erewrite unwinding_throw; [|
      eapply (IH x xs2 sc dm (spre ++ [c]) spost (dpre ++ [Obj x1]) dpost); try done|
      eapply (destroy_at_at _ _ _ bd dpre (Obj x1)); [|done|done] ].
    + rewrite !insert_insert_eq. simpl.
      by rewrite reverse_cons, fmap_app, <-!app_assoc.
    + by rewrite lookup_insert_ne, <-app_assoc.
    + by rewrite length_app.
    + by rewrite lookup_insert_eq, <-app_assoc.
    + by rewrite length_app.
    + simpl in Hlen. lia.
    + by rewrite lookup_insert_eq, <-app_assoc.
Qed.

Lemma uninitialized_move_n_ok vs bs bd xs : ∀ sc dm spre spost dpre dpost bl tr i j,
  bs ≠ bd →
  bl !! bs = Some (spre ++ sc ++ spost) → i = length spre →
  bl !! bd = Some (dpre ++ dm ++ dpost) → j = length dpre →
  has_values sc xs → length dm = length xs →
  Forall (λ v, move_ctor_throws v = false) xs →
  Std.uninitialized_move_n (Ptr (Some bs) i) (length xs) (Ptr (Some bd) j)
                           (MkState vs bl tr)
  = Ret tt (MkState vs (<[bd := dpre ++ (Obj <$> xs) ++ dpost]>
                          (<[bs := spre ++ (moved <$> sc) ++ spost]> bl))
                    (tr ++ (EMoveCtor <$> xs))).
Proof.
  induction xs as [|x xs IH];
    intros sc dm spre spost dpre dpost bl tr i j Hne Hs -> Hd -> Hv Hlen Hok.
  - destruct dm; [|done]. destruct sc; [|done]. simpl.
    by rewrite app_nil_r, (insert_id _ bs), insert_id.
  - destruct sc as [|c sc]; [done|]. destruct dm as [|d dm]; [done|].
    apply has_values_cons_inv in Hv as (x' & xs' & [= <- <-] & Hx & Hv).
    apply Forall_cons in Hok as [Hx0 Hok].
    cbn [length Std.uninitialized_move_n]. unfold move_construct.
    erewrite bind_ret; last first.
    { eapply construct_at; [|by rewrite lookup_insert_ne|done].
      erewrite fetch_MoveOf by done. by rewrite Hx0. }
    rewrite !ptr_add_Ptr.
    erewrite unwinding_ret; last first.
    { eapply (IH sc dm (spre ++ [set_val c (moved_from x)]) spost
                 (dpre ++ [Obj x]) dpost); try done.
      - by rewrite lookup_insert_ne, lookup_insert_eq, <-app_assoc.
      - by rewrite length_app.
      - by rewrite lookup_insert_eq, <-app_assoc.
      - by rewrite length_app.
      - simpl in Hlen. lia. }
    rewrite (insert_insert_ne _ bs bd) by done.
    rewrite !insert_insert_eq.
    rewrite <-!app_assoc. simpl. unfold moved at 2. by rewrite Hx.
Qed.

Lemma MoveOrCopy_ok vs bs bd xs sc dm spre spost dpre dpost bl tr i j :
  bs ≠ bd →
  bl !! bs = Some (spre ++ sc ++ spost) → i = length spre →
  bl !! bd = Some (dpre ++ dm ++ dpost) → j = length dpre →
  has_values sc xs → length dm = length xs →
  Forall (λ v, reloc_throws v = false) xs →
  Vector.MoveOrCopy (Ptr (Some bs) i) (length xs) (Ptr (Some bd) j)
                    (MkState vs bl tr)
  = Ret tt (MkState vs (<[bd := dpre ++ (Obj <$> xs) ++ dpost]>
                          (<[bs := spre ++ (relocated <$> sc) ++ spost]> bl))
                    (tr ++ (reloc_event <$> xs))).
Proof.
  intros Hne Hs -> Hd -> Hv Hlen Hok.
  unfold Vector.MoveOrCopy, relocated, reloc_event, reloc_throws in *.
  destruct Vector.use_move.
  - by eapply uninitialized_move_n_ok.
  - erewrite uninitialized_copy_n_ok by done.
    by rewrite list_fmap_id, (insert_id _ bs).
Qed.

Lemma uninitialized_value_construct_n_ok vs b dm : ∀ pre post bl tr i,
  bl !! b = Some (pre ++ dm ++ post) → i = length pre →
  value_init_throws = false →
  Std.uninitialized_value_construct_n (Ptr (Some b) i) (length dm) (MkState vs bl tr)
  = Ret tt (MkState vs
              (<[b := pre ++ replicate (length dm) (Obj value_initialized) ++ post]> bl)
              (tr ++ replicate (length dm) EValueInit)).
Proof.
  induction dm as [|d dm IH]; intros pre post bl tr i Hb -> Hok.
  - simpl. by rewrite app_nil_r, insert_id.
  - cbn [length Std.uninitialized_value_construct_n]. unfold value_construct.
    rewrite Hok.
    erewrite bind_ret; last first.
    { erewrite bind_ret by (by eapply store_at). apply emit_at. }
    rewrite ptr_add_Ptr.
    erewrite unwinding_ret; last first.
    { eapply (IH (pre ++ [Obj value_initialized]) post); try done.
      - by rewrite lookup_insert_eq, <-app_assoc.
      - by rewrite length_app. }
    by rewrite insert_insert_eq, <-!app_assoc.
Qed.

(** Assignments between neighbouring cells of one block. *)
Lemma move_assign_left vs bl tr b pre c0 c post i x :
  bl !! b = Some (pre ++ c0 :: c :: post) → i = length pre →
  slot_value c = Some x → move_assign_throws x = false →
  move_assign (Ptr (Some b) (i + 1)) (Ptr (Some b) i) (MkState vs bl tr)
  = Ret tt (MkState vs (<[b := pre ++ set_val c0 x :: set_val c (moved_from x) :: post]> bl)
                    (tr ++ [EMoveAssign x])).
Proof.
  intros Hb -> Hx Hx0. unfold move_assign.
  erewrite bind_ret; last first.
  { eapply (read_at _ _ _ b (pre ++ [c0]) c post); [|by rewrite length_app|done].
    by rewrite <-app_assoc. }
  rewrite Hx0.
  erewrite bind_ret; last first.
  { eapply (assign_at _ _ _ b (pre ++ [c0]) c post); [|by rewrite length_app].
    by rewrite <-app_assoc. }
  erewrite bind_ret; last first.
  { eapply (assign_at _ _ _ b pre c0); [|done].
    by rewrite lookup_insert_eq, <-app_assoc. }
  by rewrite emit_at, insert_insert_eq.
Qed.

Lemma move_assign_right vs bl tr b pre c cn post i x :
  bl !! b = Some (pre ++ c :: cn :: post) → i = length pre →
  slot_value c = Some x → move_assign_throws x = false →
  move_assign (Ptr (Some b) i) (Ptr (Some b) (i + 1)) (MkState vs bl tr)
  = Ret tt (MkState vs (<[b := pre ++ set_val c (moved_from x) :: set_val cn x :: post]> bl)
                    (tr ++ [EMoveAssign x])).
Proof.
  intros Hb -> Hx Hx0. unfold move_assign.
  erewrite bind_ret by (by eapply read_at).
  rewrite Hx0.
  erewrite bind_ret by (by eapply assign_at).
  erewrite bind_ret; last first.
  { eapply (assign_at _ _ _ b (pre ++ [set_val c (moved_from x)]) cn post);
      [|by rewrite length_app].
    by rewrite lookup_insert_eq, <-app_assoc. }
  by rewrite emit_at, insert_insert_eq, <-app_assoc.
Qed.

Lemma copy_assign_left vs bl tr b pre c0 c post i x :
  bl !! b = Some (pre ++ c0 :: c :: post) → i = length pre →
  slot_value c = Some x → copy_assign_throws x = false →
  copy_assign (Ptr (Some b) (i + 1)) (Ptr (Some b) i) (MkState vs bl tr)
  = Ret tt (MkState vs (<[b := pre ++ set_val c0 x :: c :: post]> bl)
                    (tr ++ [ECopyAssign x])).
Proof.
  intros Hb -> Hx Hx0. unfold copy_assign.
  erewrite bind_ret; last first.
  { eapply (read_at _ _ _ b (pre ++ [c0]) c post); [|by rewrite length_app|done].
    by rewrite <-app_assoc. }
  rewrite Hx0.
  erewrite bind_ret by (by eapply assign_at).
  by rewrite emit_at.
Qed.

(** Shifting within one block: [move_n] and [copy_n] from the cell after
    [c0] onto [c0]. *)
Lemma move_n_shift vs b cs : ∀ xs c0 pre post bl tr i,
  bl !! b = Some (pre ++ c0 :: cs ++ post) → i = length pre →
  has_values cs xs → Forall (λ v, move_assign_throws v = false) xs →
  Std.move_n (Ptr (Some b) (i + 1)) (length cs) (Ptr (Some b) i) (MkState vs bl tr)
  = Ret tt (MkState vs (<[b := pre ++ shift moved_from c0 cs ++ post]> bl)
                    (tr ++ (EMoveAssign <$> xs))).
Proof.
  induction cs as [|c cs IH]; intros xs c0 pre post bl tr i Hb -> Hv Hok.
  - apply has_values_nil_inv in Hv as ->. simpl.
    by rewrite app_nil_r, insert_id.
  - apply has_values_cons_inv in Hv as (x & xs' & -> & Hx & Hv).
    apply Forall_cons in Hok as [Hx0 Hok].
    cbn [length Std.move_n].
    erewrite bind_ret by (by eapply move_assign_left).
    rewrite !ptr_add_Ptr.
    erewrite (IH xs' (set_val c (moved_from x)) (pre ++ [set_val c0 x]) post);
      [|by rewrite lookup_insert_eq, <-app_assoc|by rewrite length_app|done|done].
    rewrite !insert_insert_eq. cbn [shift]. rewrite Hx.
    by rewrite <-!app_assoc.
Qed.

Lemma copy_n_shift vs b cs : ∀ xs c0 pre post bl tr i,
  bl !! b = Some (pre ++ c0 :: cs ++ post) → i = length pre →
  has_values cs xs → Forall (λ v, copy_assign_throws v = false) xs →
  Std.copy_n (Ptr (Some b) (i + 1)) (length cs) (Ptr (Some b) i) (MkState vs bl tr)
  = Ret tt (MkState vs (<[b := pre ++ shift id c0 cs ++ post]> bl)
                    (tr ++ (ECopyAssign <$> xs))).
Proof.
  induction cs as [|c cs IH]; intros xs c0 pre post bl tr i Hb -> Hv Hok.
  - apply has_values_nil_inv in Hv as ->. simpl.
    by rewrite app_nil_r, insert_id.
  - apply has_values_cons_inv in Hv as (x & xs' & -> & Hx & Hv).
    apply Forall_cons in Hok as [Hx0 Hok].
    cbn [length Std.copy_n].
    erewrite bind_ret by (by eapply copy_assign_left).
    rewrite !ptr_add_Ptr.
    erewrite (IH xs' c (pre ++ [set_val c0 x]) post);
      [|by rewrite lookup_insert_eq, <-app_assoc|by rewrite length_app|done|done].
    rewrite !insert_insert_eq. cbn [shift]. rewrite Hx. simpl.
    by rewrite (set_val_id c x), <-!app_assoc.
Qed.

(** [move_backward_n] from the cells [cs] onto the cells one further. *)
Lemma move_backward_n_shift vs b cs : ∀ xs cn pre post bl tr i,
  bl !! b = Some (pre ++ cs ++ cn :: post) → i = length pre →
  has_values cs xs → Forall (λ v, move_assign_throws v = false) xs →
  Std.move_backward_n (Ptr (Some b) i) (length cs) (Ptr (Some b) (i + 1))
                      (MkState vs bl tr)
  = Ret tt (MkState vs
              (<[b := pre ++ reverse (shift moved_from cn (reverse cs)) ++ post]> bl)
              (tr ++ (EMoveAssign <$> reverse xs))).
Proof.
  induction cs as [|c cs IH] using rev_ind; intros xs cn pre post bl tr i Hb -> Hv Hok.
  - apply has_values_nil_inv in Hv as ->. simpl.
    by rewrite app_nil_r, insert_id.
  - assert (∃ xs' x, xs = xs' ++ [x] ∧ has_values cs xs' ∧ slot_value c = Some x)
      as (xs' & x & -> & Hv' & Hx).
    { unfold has_values in *. rewrite fmap_app in Hv. symmetry in Hv.
      apply fmap_app_inv in Hv as (xs1 & xs2 & E1 & E2 & ->).
      destruct xs2 as [|x [|??]]; try done. exists xs1, x. naive_solver. }
    apply Forall_app in Hok as [Hok Hx0]. apply Forall_cons in Hx0 as [Hx0 _].
    rewrite length_app, Nat.add_comm. cbn [length Nat.add Std.move_backward_n].
    rewrite !ptr_add_Ptr.
    replace (length pre + 1 + length cs) with (length pre + length cs + 1) by lia.
    erewrite bind_ret; last first.
    { eapply (move_assign_right _ _ _ b (pre ++ cs) c cn post);
        [|by rewrite length_app|done|done].
      by rewrite Hb, <-!app_assoc. }
    erewrite (IH xs' (set_val c (moved_from x)) pre (set_val cn x :: post));
      [|by rewrite lookup_insert_eq, <-!app_assoc|done|done|done].
    rewrite !insert_insert_eq, !reverse_app. cbn [reverse app shift]. simpl.
    by rewrite Hx, reverse_cons, <-!app_assoc.
Qed.
End loops.

Section ops.
Context {T : Type} `{!Elem T} `{!MemorySource}.
Implicit Types (s : state T) (vs : gmap nat Vector) (bl : gmap nat (list (slot T)))
  (tr : list (event T)) (c : slot T) (l pre post cs cells rest : list (slot T))
  (xs : list T) (m : RawMemory) (a : args T).

Lemma state_eta s : s = MkState (vecs s) (blocks s) (trace s).
Proof. by destruct s. Qed.

Lemma get_at vs bl tr this v :
  vs !! this = Some v →
  Vector.get this (MkState vs bl tr) = Ret v (MkState vs bl tr).
Proof. intros E. unfold Vector.get; simpl. by rewrite E. Qed.

Lemma put_at vs bl tr this v :
  Vector.put this v (MkState vs bl tr) = Ret tt (MkState (<[this := v]> vs) bl tr).
Proof. reflexivity. Qed.

Lemma set_size_at vs bl tr this v n :
  vs !! this = Some v →
  Vector.set_size this n (MkState vs bl tr)
  = Ret tt (MkState (<[this := MkVec (data_ v) n]> vs) bl tr).
Proof. intros E. unfold Vector.set_size. by erewrite bind_ret by (by apply get_at). Qed.

Lemma set_data_at vs bl tr this v d :
  vs !! this = Some v →
  Vector.set_data this d (MkState vs bl tr)
  = Ret tt (MkState (<[this := MkVec d (size_ v)]> vs) bl tr).
Proof. intros E. unfold Vector.set_data. by erewrite bind_ret by (by apply get_at). Qed.

Lemma assert_true s (P : Prop) `{!Decision P} :
  P → assert (bool_decide P) s = Ret tt s.
Proof. intros HP. by rewrite bool_decide_eq_true_2. Qed.

Lemma operator_new_at vs bl tr n :
  alloc_fails n = false →
  RawMemory.operator_new n (MkState vs bl tr)
  = Ret (Some (fresh (dom bl)))
        (MkState vs (<[fresh (dom bl) := replicate n Raw]> bl) tr).
Proof. intros E. unfold RawMemory.operator_new. by rewrite E. Qed.

Lemma operator_delete_at vs bl tr ob :
  (∀ b, ob = Some b → is_Some (bl !! b)) →
  RawMemory.operator_delete ob (MkState vs bl tr)
  = Ret tt (MkState vs (released ob bl) tr).
Proof.
  intros Hb. destruct ob as [b|]; [|done]. simpl.
  by destruct (Hb b eq_refl) as [l ->].
Qed.

Lemma fresh_block bl : bl !! fresh (dom bl) = None.
Proof. apply not_elem_of_dom, is_fresh. Qed.

(** The outcomes of reading constructor arguments. *)
Lemma read_inv (p : ptr) s :
  read p s = Undefined ∨ ∃ v c, read p s = Ret v s ∧ load p s = Some c ∧ slot_value c = Some v.
Proof.
  unfold read. destruct (load p s) as [[|v|v]|]; try (by left);
    right; by eexists _, _.
Qed.

Lemma load_Some (p : ptr) s c :
  load p s = Some c →
  ∃ b l pre post, blk p = Some b ∧ blocks s !! b = Some l ∧
                  l = pre ++ c :: post ∧ off p = length pre.
Proof.
  unfold load. destruct (blk p) as [b|]; [|done].
  destruct (blocks s !! b) as [l|] eqn:El; [|done]. intros Hc.
  exists b, l, (take (off p) l), (drop (S (off p)) l). split_and!; try done.
  - by rewrite take_drop_middle.
  - rewrite length_take. apply lookup_lt_Some in Hc. lia.
Qed.

Lemma fetch_inv a vs bl tr :
  match fetch a (MkState vs bl tr) with
  | Ret x s1 => vecs s1 = vs ∧ trace s1 = tr ∧ dom (blocks s1) = dom bl ∧
                ∀ b, detached a (Some b) → blocks s1 !! b = bl !! b
  | Throw s1 => s1 = MkState vs bl tr
  | Undefined => True
  end.
Proof.
  destruct a as [v| |p|p]; simpl; try done.
  - rewrite bind_unfold.
    destruct (read_inv p (MkState vs bl tr)) as [->|(v & c & -> & _)]; [done|].
    by destruct (copy_ctor_throws v).
  - rewrite bind_unfold.
    destruct (read_inv p (MkState vs bl tr)) as [->|(v & c & -> & Hl & Hv)]; [done|].
    destruct (move_ctor_throws v); [done|].
    apply load_Some in Hl as (b & l & pre & post & Hb & Hbl & -> & Hoff). simpl in *.
    destruct p as [pb po]; simpl in *; subst.
    erewrite bind_ret by (by eapply assign_at). simpl. split_and!; try done.
    + rewrite dom_insert_L. apply elem_of_dom_2 in Hbl.
      by apply subseteq_union_1_L, singleton_subseteq_l.
    + intros b' Hne. rewrite lookup_insert_ne; [done|congruence].
Qed.

Lemma fetch_fresh a vs bl tr b' n :
  bl !! b' = None →
  fetch a (MkState vs (<[b' := replicate n Raw]> bl) tr)
  = result_map (set_blocks <[b' := replicate n Raw]>) (fetch a (MkState vs bl tr)).
Proof.
  intros Hb'.
  assert (∀ p, read p (MkState vs (<[b' := replicate n Raw]> bl) tr)
               = result_map (set_blocks <[b' := replicate n Raw]>)
                            (read p (MkState vs bl tr))) as Hread.
  { intros [[b|] i]; [|done]. unfold read, load; simpl.
    destruct (decide (b = b')) as [->|Hne].
    - rewrite lookup_insert_eq, Hb'.
      destruct (replicate n Raw !! i) as [c|] eqn:E; [|done].
      by apply lookup_replicate in E as [-> _].
    - rewrite lookup_insert_ne by done.
      by destruct (bl !! b) as [l|]; [destruct (l !! i) as [[]|]|]. }
  destruct a as [v| |p|p]; simpl; try done.
  - rewrite !bind_unfold, Hread.
    destruct (read p (MkState vs bl tr)) as [v s1| |]; simpl; try done.
    by destruct (copy_ctor_throws v).
  - rewrite !bind_unfold, Hread.
    destruct (read_inv p (MkState vs bl tr)) as [->|(v & c & -> & Hl & Hv)]; [done|].
    simpl. destruct (move_ctor_throws v); [done|].
    apply load_Some in Hl as (b & l & pre & post & Hb & Hbl & -> & Hoff). simpl in *.
    destruct p as [pb po]; simpl in *; subst.
    assert (b ≠ b') by congruence.
    erewrite (bind_ret _ _ (MkState vs bl tr)) by (by eapply assign_at).
    erewrite bind_ret; last first.
    { eapply assign_at; [|done]. by rewrite lookup_insert_ne. }
    simpl. unfold set_blocks; simpl. by rewrite insert_insert_ne.
Qed.

Lemma has_values_moved cells xs :
  has_values cells xs → has_values (moved <$> cells) (moved_from <$> xs).
Proof.
  revert xs. induction cells as [|c cells IH]; intros [|x xs] Hv; try done.
  apply has_values_cons_inv in Hv as (x' & xs' & [= <- <-] & Hc & Hv).
  unfold has_values. rewrite !fmap_cons. f_equal.
  - unfold moved. rewrite Hc. apply slot_value_set_val.
  - by apply IH.
Qed.

Lemma has_values_relocated cells xs :
  has_values cells xs → has_values (relocated <$> cells) (left_behind <$> xs).
Proof.
  intros Hv. unfold relocated, left_behind.
  destruct Vector.use_move; [by apply has_values_moved|].
  by rewrite !list_fmap_id.
Qed.

Lemma MoveOrCopy_0 (p q : ptr) s : Vector.MoveOrCopy p 0 q s = Ret tt s.
Proof. unfold Vector.MoveOrCopy. by destruct Vector.use_move. Qed.

Lemma Raw_eta m : MkRaw (buffer_ m) (capacity_ m) = m.
Proof. by destruct m. Qed.

Lemma MoveOrCopyAndSwap_ok vs bl tr this m cells rest xs b' cap' dm dpost :
  vs !! this = Some (MkVec m (length cells)) →
  block_is (MkState vs bl tr) m (cells ++ rest) →
  has_values cells xs →
  buffer_ m ≠ Some b' →
  bl !! b' = Some (dm ++ dpost) → length dm = length xs →
  Forall (λ v, reloc_throws v = false) xs →
  Vector.MoveOrCopyAndSwap this (length cells) (MkRaw (Some b') cap') (MkState vs bl tr)
  = Ret m (MkState (<[this := MkVec (MkRaw (Some b') cap') (length cells)]> vs)
             (<[b' := (Obj <$> xs) ++ dpost]>
                (put_block (buffer_ m) (replicate (length cells) Raw ++ rest) bl))
             (tr ++ (reloc_event <$> xs) ++ (EDtor <$> (left_behind <$> xs)))).
Proof.
  intros Hthis [Hcap Hblock] Hv Hne Hd Hlen Hok.
  pose proof (has_values_length _ _ Hv) as Hl.
  unfold Vector.MoveOrCopyAndSwap.
  erewrite bind_ret by (by apply get_at).
  destruct m as [[b|] cap]; simpl in Hcap, Hblock, Hne; cbn [data_ buffer_ put_block].
  - assert (b ≠ b') by congruence.
    unfold RawMemory.GetAddress; simpl.
    erewrite bind_ret; last first.
    { rewrite Hl.
      by eapply (MoveOrCopy_ok _ b b' xs cells dm [] rest [] dpost). }
    erewrite bind_ret; last first.
    { rewrite <-(length_fmap relocated cells).
      eapply (destroy_n_at _ b (relocated <$> cells) (left_behind <$> xs) [] rest);
        [|done|by apply has_values_relocated].
      by rewrite lookup_insert_ne, lookup_insert_eq. }
    erewrite bind_ret by (by apply set_data_at). simpl.
    rewrite length_fmap, (insert_insert_ne _ b b') by done.
    by rewrite insert_insert_eq, <-app_assoc.
  - destruct cells; [|done]. simpl in Hblock. subst rest.
    apply has_values_nil_inv in Hv as ->. destruct dm; [|done]. simpl in Hd.
    cbn [length].
    rewrite (bind_ret _ _ _ _ _ (MoveOrCopy_0 _ _ _)).
    cbn [Std.destroy_n]. rewrite bind_unfold. cbn [mret M_ret ret].
    erewrite bind_ret by (by apply set_data_at). simpl.
    by rewrite app_nil_r, (insert_id bl).
Qed.

(** Leaving the scope of a local buffer. *)
Lemma scope_ret {A} cap (body : RawMemory → M T (RawMemory * A)) vs bl tr buffer'
    (r : A) s2 s3 :
  cap ≠ 0 → alloc_fails cap = false →
  body (MkRaw (Some (fresh (dom bl))) cap)
       (MkState vs (<[fresh (dom bl) := replicate cap Raw]> bl) tr)
  = Ret (buffer', r) s2 →
  RawMemory.dtor buffer' s2 = Ret tt s3 →
  RawMemory.scope cap body (MkState vs bl tr) = Ret r s3.
Proof.
  intros Hcap Hal Hbody Hd. unfold RawMemory.scope, RawMemory.ctor, RawMemory.Allocate.
  rewrite decide_True by done.
  erewrite bind_ret; last first.
  { erewrite bind_ret by (by apply operator_new_at). reflexivity. }
  rewrite Hbody. by erewrite bind_ret by done.
Qed.

Lemma scope_throw {A} cap (body : RawMemory → M T (RawMemory * A)) vs bl tr s2 s3 :
  cap ≠ 0 → alloc_fails cap = false →
  body (MkRaw (Some (fresh (dom bl))) cap)
       (MkState vs (<[fresh (dom bl) := replicate cap Raw]> bl) tr)
  = Throw s2 →
  RawMemory.dtor (MkRaw (Some (fresh (dom bl))) cap) s2 = Ret tt s3 →
  RawMemory.scope cap body (MkState vs bl tr) = Throw s3.
Proof.
  intros Hcap Hal Hbody Hd. unfold RawMemory.scope, RawMemory.ctor, RawMemory.Allocate.
  rewrite decide_True by done.
  erewrite bind_ret; last first.
  { erewrite bind_ret by (by apply operator_new_at). reflexivity. }
  rewrite Hbody. by erewrite bind_ret by done.
Qed.

Lemma scope_bad_alloc {A} cap (body : RawMemory → M T (RawMemory * A)) s :
  cap ≠ 0 → alloc_fails cap = true → RawMemory.scope cap body s = Throw s.
Proof.
  intros Hcap Hal. unfold RawMemory.scope, RawMemory.ctor, RawMemory.Allocate.
  rewrite decide_True by done.
  erewrite bind_throw; [done|]. erewrite bind_throw; [done|].
  unfold RawMemory.operator_new. by rewrite Hal.
Qed.

Lemma released_put ob b' X Y Z bl :
  ob ≠ Some b' →
  released ob (<[b' := X]> (put_block ob Y (<[b' := Z]> bl)))
  = <[b' := X]> (released ob bl).
Proof.
  intros Hne. destruct ob as [b|]; simpl.
  - assert (b ≠ b') by congruence.
    rewrite (insert_insert_ne _ b b') by done.
    by rewrite insert_insert_eq, delete_insert_ne, delete_insert_eq.
  - by rewrite insert_insert_eq.
Qed.

Lemma block_is_fresh vs bl tr m cells :
  block_is (MkState vs bl tr) m cells → buffer_ m ≠ Some (fresh (dom bl)).
Proof.
  intros [_ Hb] E. rewrite E in Hb. simpl in Hb. by rewrite fresh_block in Hb.
Qed.

Lemma block_is_alloc vs bl tr m cells b l :
  block_is (MkState vs bl tr) m cells → bl !! b = None →
  block_is (MkState vs (<[b := l]> bl) tr) m cells.
Proof.
  intros [Hc Hb] Hf. split; [done|]. destruct (buffer_ m) as [b0|]; [|done].
  simpl in *. rewrite lookup_insert_ne; [done|congruence].
Qed.

Lemma block_is_Some vs bl tr m cells :
  block_is (MkState vs bl tr) m cells → ∀ b, buffer_ m = Some b → is_Some (bl !! b).
Proof. intros [_ Hb] b E. rewrite E in Hb. by eexists. Qed.

Lemma released_put_block ob Y bl : released ob (put_block ob Y bl) = released ob bl.
Proof. destruct ob as [b|]; [|done]. simpl. by rewrite delete_insert_eq. Qed.

Lemma released_insert ob b' X bl :
  ob ≠ Some b' → released ob (<[b' := X]> bl) = <[b' := X]> (released ob bl).
Proof.
  intros Hne. destruct ob as [b|]; [|done]. simpl.
  rewrite delete_insert_ne; [done|congruence].
Qed.

(** [Reserve] beyond the capacity. *)
Lemma Reserve_grow vs bl tr this m cells rest xs new_capacity :
  vs !! this = Some (MkVec m (length cells)) →
  block_is (MkState vs bl tr) m (cells ++ rest) →
  has_values cells xs →
  capacity_ m < new_capacity →
  alloc_fails new_capacity = false →
  Forall (λ v, reloc_throws v = false) xs →
  Vector.Reserve this new_capacity (MkState vs bl tr)
  = Ret tt (MkState
              (<[this := MkVec (MkRaw (Some (fresh (dom bl))) new_capacity) (length cells)]> vs)
              (<[fresh (dom bl) := (Obj <$> xs) ++ replicate (new_capacity - length xs) Raw]>
                 (released (buffer_ m) bl))
              (tr ++ (reloc_event <$> xs) ++ (EDtor <$> (left_behind <$> xs)))).
Proof.
  intros Hthis Hblock Hv Hcap Hal Hok.
  pose proof (has_values_length _ _ Hv) as Hl.
  pose proof Hblock as [Hc _]. rewrite length_app in Hc.
  unfold Vector.Reserve.
  erewrite bind_ret by (by apply get_at). cbn [data_ size_].
  unfold RawMemory.Capacity. rewrite decide_False by lia.
  eapply scope_ret; [lia|done| |].
  - erewrite bind_ret; [reflexivity|].
    eapply (MoveOrCopyAndSwap_ok _ _ _ _ _ _ _ _ _ _ (replicate (length xs) Raw)
              (replicate (new_capacity - length xs) Raw)); try done.
    + by apply block_is_alloc, fresh_block.
    + by eapply block_is_fresh.
    + rewrite lookup_insert_eq, <-replicate_add. f_equal. f_equal. lia.
    + by rewrite length_replicate.
  - unfold RawMemory.dtor, RawMemory.Deallocate.
    erewrite operator_delete_at.
    + rewrite released_put; [done|by eapply block_is_fresh].
    + intros b Eb. destruct (block_is_Some _ _ _ _ _ Hblock b Eb) as [l Hl'].
      assert (b ≠ fresh (dom bl)).
      { intros ->. by rewrite fresh_block in Hl'. }
      rewrite lookup_insert_ne by done. rewrite Eb. simpl.
      rewrite lookup_insert_eq. by eexists.
Qed.

Lemma fetch_alloc a vs bl bl1 tr x n :
  fetch a (MkState vs bl tr) = Ret x (MkState vs bl1 tr) →
  fetch a (MkState vs (<[fresh (dom bl) := replicate n Raw]> bl) tr)
  = Ret x (MkState vs (<[fresh (dom bl) := replicate n Raw]> bl1) tr)
  ∧ bl1 !! fresh (dom bl) = None.
Proof.
  intros Hf. split.
  - by rewrite fetch_fresh, Hf by apply fresh_block.
  - pose proof (fetch_inv a vs bl tr) as Hi. rewrite Hf in Hi.
    destruct Hi as (_ & _ & Hdom & _). simpl in Hdom.
    apply not_elem_of_dom. rewrite Hdom. apply is_fresh.
Qed.

Lemma grown_gt n : n < Vector.grown n.
Proof. unfold Vector.grown. case_decide; lia. Qed.

Lemma cells_at_insert_ne bl ob b' X cells :
  ob ≠ Some b' → cells_at bl ob cells → cells_at (<[b' := X]> bl) ob cells.
Proof.
  intros Hne Hc. destruct ob as [b|]; [|done]. simpl in *.
  rewrite lookup_insert_ne; [done|congruence].
Qed.

Lemma cells_at_None bl ob cells b' :
  cells_at bl ob cells → bl !! b' = None → ob ≠ Some b'.
Proof. intros Hc Hn ->. simpl in Hc. congruence. Qed.

Lemma cells_at_Some bl ob cells :
  cells_at bl ob cells → ∀ b, ob = Some b → is_Some (bl !! b).
Proof. intros Hc b ->. by eexists. Qed.

(** [EmplaceBack] into a full vector. *)
Lemma EmplaceBack_grow vs bl bl1 tr this m cells xs a x :
  vs !! this = Some (MkVec m (length cells)) →
  fetch a (MkState vs bl tr) = Ret x (MkState vs bl1 tr) →
  block_is (MkState vs bl1 tr) m cells →
  has_values cells xs →
  alloc_fails (Vector.grown (length cells)) = false →
  Forall (λ v, reloc_throws v = false) xs →
  Vector.EmplaceBack this a (MkState vs bl tr)
  = Ret (Ptr (Some (fresh (dom bl))) (length cells))
        (MkState
           (<[this := MkVec (MkRaw (Some (fresh (dom bl))) (Vector.grown (length cells)))
                            (S (length cells))]> vs)
           (<[fresh (dom bl) :=
                (Obj <$> xs) ++ Obj x
                  :: replicate (Vector.grown (length cells) - S (length cells)) Raw]>
              (released (buffer_ m) bl1))
           (tr ++ [ctor_event a x] ++ (reloc_event <$> xs)
               ++ (EDtor <$> (left_behind <$> xs)))).
Proof.
  intros Hthis Hf Hblock Hv Hal Hok.
  pose proof (has_values_length _ _ Hv) as Hl.
  pose proof Hblock as [Hc Hat]. simpl in Hat.
  pose proof (grown_gt (length cells)) as Hg.
  destruct (fetch_alloc _ _ _ _ _ _ (Vector.grown (length cells)) Hf) as [Hf' Hfresh].
  set (b' := fresh (dom bl)) in *.
  set (g := Vector.grown (length cells)) in *.
  pose proof (cells_at_None _ _ _ _ Hat Hfresh) as Hne.
  unfold Vector.EmplaceBack.
  erewrite bind_ret by (by apply get_at). cbn [data_ size_].
  unfold Vector.Capacity, RawMemory.Capacity. cbn [data_].
  rewrite decide_True by done.
  erewrite bind_ret; last first.
  { eapply scope_ret; [unfold g; lia|done| |].
    - unfold RawMemory.index. cbn [capacity_].
      erewrite bind_ret; last first.
      { erewrite bind_ret by (by apply assert_true). reflexivity. }
      unfold RawMemory.GetAddress. cbn [buffer_]. rewrite ptr_add_Ptr.
      erewrite bind_ret; last first.
      { eapply (construct_at _ _ _ _ _ (replicate (length cells) Raw) Raw
                  (replicate (g - S (length cells)) Raw)); [exact Hf'| |].
        - rewrite lookup_insert_eq. f_equal.
          change (Raw :: replicate (g - S (length cells)) (@Raw T))
            with (replicate (S (g - S (length cells))) (@Raw T)).
          rewrite <-replicate_add. f_equal. lia.
        - by rewrite length_replicate. }
      erewrite bind_ret; [reflexivity|].
      eapply (MoveOrCopyAndSwap_ok _ _ _ _ m cells [] xs b' g
                (replicate (length cells) Raw));
        [exact Hthis| |exact Hv|exact Hne| |by rewrite length_replicate|exact Hok].
      + split; [by rewrite app_nil_r|]. simpl. rewrite app_nil_r.
        by apply cells_at_insert_ne; [|apply cells_at_insert_ne].
      + apply lookup_insert_eq.
    - unfold RawMemory.dtor, RawMemory.Deallocate.
      erewrite operator_delete_at; [reflexivity|].
      intros b Eb. destruct (cells_at_Some _ _ _ Hat b Eb) as [l Hl'].
      assert (b ≠ b') by congruence.
      rewrite lookup_insert_ne by done. rewrite Eb. simpl.
      rewrite lookup_insert_eq. by eexists. }
  erewrite bind_ret by (apply get_at, lookup_insert_eq). cbn [data_ size_].
  erewrite bind_ret by (apply set_size_at, lookup_insert_eq). cbn [data_ size_].
  unfold Vector.index.
  erewrite bind_ret by (apply get_at, lookup_insert_eq). cbn [data_ size_].
  erewrite bind_ret by (apply assert_true; lia).
  unfold RawMemory.index. cbn [capacity_].
  erewrite bind_ret by (apply assert_true; lia).
  unfold RawMemory.GetAddress. cbn [buffer_]. rewrite ptr_add_Ptr.
  cbn [mret M_ret ret]. f_equal.
  - f_equal. lia.
  - rewrite !insert_insert_eq, app_nil_r.
    rewrite released_put by done. by rewrite <-!app_assoc.
Qed.

(** [EmplaceBack] into a vector with room. *)
Lemma EmplaceBack_room vs bl bl1 tr this m b cells r0 rest a x :
  vs !! this = Some (MkVec m (length cells)) →
  buffer_ m = Some b → capacity_ m = length (cells ++ r0 :: rest) →
  fetch a (MkState vs bl tr) = Ret x (MkState vs bl1 tr) →
  bl1 !! b = Some (cells ++ r0 :: rest) →
  Vector.EmplaceBack this a (MkState vs bl tr)
  = Ret (Ptr (Some b) (length cells))
        (MkState (<[this := MkVec m (S (length cells))]> vs)
                 (<[b := cells ++ Obj x :: rest]> bl1)
                 (tr ++ [ctor_event a x])).
Proof.
  intros Hthis Hb Hc Hf Hbl. rewrite length_app in Hc. simpl in Hc.
  unfold Vector.EmplaceBack.
  erewrite bind_ret by (by apply get_at). cbn [data_ size_].
  unfold Vector.Capacity, RawMemory.Capacity. cbn [data_].
  rewrite decide_False by lia.
  erewrite bind_ret; last first.
  { unfold RawMemory.index.
    erewrite bind_ret; last first.
    { erewrite bind_ret by (apply assert_true; lia). reflexivity. }
    unfold RawMemory.GetAddress. rewrite Hb, ptr_add_Ptr.
    by eapply construct_at. }
  erewrite bind_ret by (by apply get_at). cbn [data_ size_].
  erewrite bind_ret by (by apply set_size_at). cbn [data_ size_].
  unfold Vector.index.
  erewrite bind_ret by (apply get_at, lookup_insert_eq). cbn [data_ size_].
  erewrite bind_ret by (apply assert_true; lia).
  unfold RawMemory.index.
  erewrite bind_ret by (apply assert_true; lia).
  unfold RawMemory.GetAddress. rewrite Hb, ptr_add_Ptr.
  cbn [mret M_ret ret]. do 2 f_equal. lia.
Qed.

(** Relocation and destruction from a block that may be absent. *)
Lemma MoveOrCopy_from vs ob bd xs sc dm spre spost dpre dpost bl tr i j k :
  ob ≠ Some bd →
  cells_at bl ob (spre ++ sc ++ spost) → i = length spre →
  bl !! bd = Some (dpre ++ dm ++ dpost) → j = length dpre →
  has_values sc xs → length dm = length xs → k = length xs →
  Forall (λ v, reloc_throws v = false) xs →
  Vector.MoveOrCopy (Ptr ob i) k (Ptr (Some bd) j) (MkState vs bl tr)
  = Ret tt (MkState vs (<[bd := dpre ++ (Obj <$> xs) ++ dpost]>
                          (put_block ob (spre ++ (relocated <$> sc) ++ spost) bl))
                    (tr ++ (reloc_event <$> xs))).
Proof.
  intros Hne Hs -> Hd -> Hv Hlen -> Hok. destruct ob as [bs|]; simpl in Hs |- *.
  - eapply MoveOrCopy_ok; try done. congruence.
  - destruct spre; [|done]. destruct sc; [|done].
    apply has_values_nil_inv in Hv as ->. destruct dm; [|done].
    rewrite MoveOrCopy_0. simpl. by rewrite app_nil_r, insert_id.
Qed.

Lemma destroy_n_from vs ob cs xs pre post bl tr i k :
  cells_at bl ob (pre ++ cs ++ post) → i = length pre → has_values cs xs →
  k = length cs →
  Std.destroy_n (Ptr ob i) k (MkState vs bl tr)
  = Ret tt (MkState vs (put_block ob (pre ++ replicate (length cs) Raw ++ post) bl)
                    (tr ++ (EDtor <$> xs))).
Proof.
  intros Hs -> Hv ->. destruct ob as [b|]; simpl in Hs |- *.
  - by eapply destroy_n_at.
  - destruct pre; [|done]. destruct cs; [|done].
    apply has_values_nil_inv in Hv as ->. simpl. by rewrite app_nil_r.
Qed.

Lemma cells_at_put bl ob cells cells' :
  cells_at bl ob cells → length cells' = length cells →
  cells_at (put_block ob cells' bl) ob cells'.
Proof.
  intros Hc Hl. destruct ob as [b|]; simpl in *.
  - apply lookup_insert_eq.
  - subst cells. by destruct cells'.
Qed.

Lemma distance_at (b : option nat) (i j : nat) s :
  i ≤ j → Std.distance (Ptr b i) (Ptr b j) s = Ret (j - i) s.
Proof.
  intros Hij. unfold Std.distance. cbn [blk off].
  by erewrite bind_ret by (by apply assert_true).
Qed.

(** [Emplace] into a full vector. *)
Lemma Emplace_grow vs bl bl1 tr this m pre suf xs1 xs2 a x :
  vs !! this = Some (MkVec m (length (pre ++ suf))) →
  fetch a (MkState vs bl tr) = Ret x (MkState vs bl1 tr) →
  block_is (MkState vs bl1 tr) m (pre ++ suf) →
  has_values pre xs1 → has_values suf xs2 →
  alloc_fails (Vector.grown (length (pre ++ suf))) = false →
  Forall (λ v, reloc_throws v = false) (xs1 ++ xs2) →
  Vector.Emplace this (Ptr (buffer_ m) (length pre)) a (MkState vs bl tr)
  = Ret (Ptr (Some (fresh (dom bl))) (length pre))
        (MkState
           (<[this := MkVec (MkRaw (Some (fresh (dom bl)))
                                   (Vector.grown (length (pre ++ suf))))
                            (S (length (pre ++ suf)))]> vs)
           (<[fresh (dom bl) :=
                (Obj <$> xs1) ++ Obj x :: (Obj <$> xs2)
                  ++ replicate (Vector.grown (length (pre ++ suf))
                                - S (length (pre ++ suf))) Raw]>
              (released (buffer_ m) bl1))
           (tr ++ [ctor_event a x] ++ (reloc_event <$> (xs1 ++ xs2))
               ++ (EDtor <$> (left_behind <$> (xs1 ++ xs2))))).
Proof.
  intros Hthis Hf Hblock Hv1 Hv2 Hal Hok.
  pose proof (has_values_length _ _ Hv1) as Hl1.
  pose proof (has_values_length _ _ Hv2) as Hl2.
  pose proof Hblock as [Hc Hat]. simpl in Hat.
  pose proof (grown_gt (length (pre ++ suf))) as Hg.
  destruct (fetch_alloc _ _ _ _ _ _ (Vector.grown (length (pre ++ suf))) Hf)
    as [Hf' Hfresh].
  apply Forall_app in Hok as [Hok1 Hok2].
  set (b' := fresh (dom bl)) in *.
  set (n := length (pre ++ suf)) in *.
  set (g := Vector.grown n) in *.
  assert (Hn : n = length pre + length suf) by (unfold n; by rewrite length_app).
  pose proof (cells_at_None _ _ _ _ Hat Hfresh) as Hne.
  unfold Vector.Emplace.
  erewrite bind_ret by (by apply get_at). cbn [data_ size_].
  unfold Vector.in_range. cbn [data_ size_ blk off].
  erewrite bind_ret by (apply assert_true; split; [done|lia]).
  unfold Vector.begin, RawMemory.GetAddress. cbn [data_].
  erewrite bind_ret by (apply distance_at; lia).
  rewrite !Nat.sub_0_r.
  unfold Vector.Capacity, RawMemory.Capacity. cbn [data_].
  rewrite decide_True by done.
  erewrite bind_ret; last first.
  { eapply scope_ret; [unfold g; lia|done| |].
    - cbn [buffer_]. rewrite !ptr_add_Ptr. cbn [Nat.add].
      erewrite bind_ret; last first.
      { eapply (construct_at _ _ _ _ _ (replicate (length pre) Raw) Raw
                  (replicate (g - S (length pre)) Raw)); [exact Hf'| |].
        - rewrite lookup_insert_eq. f_equal.
          change (Raw :: replicate (g - S (length pre)) (@Raw T))
            with (replicate (S (g - S (length pre))) (@Raw T)).
          rewrite <-replicate_add. f_equal. lia.
        - by rewrite length_replicate. }
      erewrite bind_ret; last first.
      { eapply (MoveOrCopy_from _ (buffer_ m) b' xs1 pre (replicate (length pre) Raw)
                  [] suf [] (Obj x :: replicate (g - S (length pre)) Raw));
          [exact Hne| |done| |done|exact Hv1|by rewrite length_replicate|done
          |exact Hok1].
        - by apply cells_at_insert_ne; [|apply cells_at_insert_ne].
        - apply lookup_insert_eq. }
      erewrite bind_ret; last first.
      { eapply (MoveOrCopy_from _ (buffer_ m) b' xs2 suf (replicate (length suf) Raw)
                  (relocated <$> pre) [] ((Obj <$> xs1) ++ [Obj x])
                  (replicate (g - S n) Raw));
          [exact Hne| | | | |exact Hv2|by rewrite length_replicate|lia|exact Hok2].
        - apply cells_at_insert_ne; [done|]. rewrite app_nil_r.
          eapply (cells_at_put _ _ (pre ++ suf)).
          + by apply cells_at_insert_ne; [|apply cells_at_insert_ne].
          + by rewrite !length_app, length_fmap.
        - by rewrite length_fmap.
        - rewrite lookup_insert_eq. f_equal. simpl. rewrite <-!app_assoc. simpl.
          do 2 f_equal. rewrite <-replicate_add. f_equal. lia.
        - rewrite length_app, length_fmap. simpl. lia. }
      erewrite bind_ret; last first.
      { eapply (destroy_n_from _ (buffer_ m) ((relocated <$> pre) ++ (relocated <$> suf))
                  (left_behind <$> (xs1 ++ xs2)) [] []);
          [|done| |by rewrite length_app, !length_fmap].
        - rewrite !app_nil_r. simpl.
          apply cells_at_insert_ne; [done|].
          eapply (cells_at_put _ _ ((relocated <$> pre) ++ suf)).
          + apply cells_at_insert_ne; [done|].
            eapply (cells_at_put _ _ (pre ++ suf)).
            * by apply cells_at_insert_ne; [|apply cells_at_insert_ne].
            * by rewrite !length_app, length_fmap.
          + by rewrite !length_app, !length_fmap.
        - rewrite fmap_app. by apply has_values_app; apply has_values_relocated. }
      erewrite bind_ret by (by apply set_data_at). cbn [data_ size_ fst snd RawMemory.Swap].
      reflexivity.
    - unfold RawMemory.dtor, RawMemory.Deallocate. cbn [buffer_ capacity_].
      erewrite operator_delete_at; [reflexivity|].
      intros b Eb. rewrite Eb in *. simpl in Hat |- *.
      rewrite lookup_insert_eq. by eexists. }
  erewrite bind_ret; last first.
  { apply get_at. apply lookup_insert_eq. }
  cbn [data_ size_].
  erewrite bind_ret by (apply set_size_at, lookup_insert_eq). cbn [data_ size_].
  cbn [mret M_ret ret]. subst b'. f_equal.
  rewrite insert_insert_eq. f_equal.
  - rewrite !released_put_block, !released_insert by done.
    rewrite !released_put_block, !released_insert by done.
    rewrite !released_put_block, !released_insert by done.
    rewrite !insert_insert_eq. by rewrite <-!app_assoc.
  - by rewrite !fmap_app, <-!app_assoc.
Qed.
End ops.

Section ops2.
Context {T : Type} `{!Elem T} `{!MemorySource}.
Implicit Types (s : state T) (vs : gmap nat Vector) (bl : gmap nat (list (slot T)))
  (tr : list (event T)) (c : slot T) (l pre post cs cells rest : list (slot T))
  (xs : list T) (m : RawMemory) (a : args T).

(** [Emplace] at the end of a vector with room. *)
Lemma Emplace_end vs bl bl1 tr this m b cells r0 rest a x :
  vs !! this = Some (MkVec m (length cells)) →
  buffer_ m = Some b → capacity_ m = length (cells ++ r0 :: rest) →
  fetch a (MkState vs bl tr) = Ret x (MkState vs bl1 tr) →
  bl1 !! b = Some (cells ++ r0 :: rest) →
  Vector.Emplace this (Ptr (Some b) (length cells)) a (MkState vs bl tr)
  = Ret (Ptr (Some b) (length cells))
        (MkState (<[this := MkVec m (S (length cells))]> vs)
                 (<[b := cells ++ Obj x :: rest]> bl1)
                 (tr ++ [ctor_event a x])).
Proof.
  intros Hthis Hb Hc Hf Hbl. rewrite length_app in Hc. simpl in Hc.
  unfold Vector.Emplace.
  erewrite bind_ret by (by apply get_at). cbn [data_ size_].
  unfold Vector.in_range. cbn [data_ size_ blk off].
  erewrite bind_ret by (by apply assert_true).
  unfold Vector.begin, RawMemory.GetAddress. cbn [data_]. rewrite Hb.
  erewrite bind_ret by (apply distance_at; lia).
  rewrite !Nat.sub_0_r.
  unfold Vector.Capacity, RawMemory.Capacity. cbn [data_].
  rewrite decide_False by lia. rewrite decide_True by done.
  rewrite ptr_add_Ptr. cbn [Nat.add].
  erewrite bind_ret; last first.
  { erewrite bind_ret by (by eapply construct_at). reflexivity. }
  erewrite bind_ret by (by apply get_at). cbn [data_ size_].
  by erewrite bind_ret by (by apply set_size_at).
Qed.

(** The cells of a shift. *)
Lemma shift_snoc leave cs : ∀ c0 xs,
  has_values cs xs →
  ∃ init h, shift leave c0 cs = init ++ [h] ∧ has_values init xs ∧
            (cs = [] → h = c0) ∧
            (is_Some (slot_value c0) ∨ cs ≠ [] → is_Some (slot_value h)).
Proof.
  induction cs as [|c cs IH]; intros c0 xs Hv.
  - apply has_values_nil_inv in Hv as ->. exists [], c0.
    split_and!; [done|done|done|]. by intros [?|?].
  - apply has_values_cons_inv in Hv as (x & xs' & -> & Hx & Hv).
    destruct (IH (set_val c (leave x)) xs' Hv) as (init & h & E & Hi & _ & Hh).
    exists (set_val c0 x :: init), h. simpl. rewrite Hx, E. split_and!; try done.
    + unfold has_values in *. rewrite !fmap_cons, Hi. f_equal.
      apply slot_value_set_val.
    + intros _. apply Hh. left. by rewrite slot_value_set_val.
Qed.

Lemma has_values_reverse cs xs :
  has_values cs xs → has_values (reverse cs) (reverse xs).
Proof. unfold has_values. intros E. by rewrite !fmap_reverse, E. Qed.

Lemma move_assign_across vs bl tr bs bd spre c spost dpre d dpost i j x :
  bs ≠ bd →
  bl !! bs = Some (spre ++ c :: spost) → i = length spre →
  bl !! bd = Some (dpre ++ d :: dpost) → j = length dpre →
  slot_value c = Some x → move_assign_throws x = false →
  move_assign (Ptr (Some bs) i) (Ptr (Some bd) j) (MkState vs bl tr)
  = Ret tt (MkState vs (<[bd := dpre ++ set_val d x :: dpost]>
                          (<[bs := spre ++ set_val c (moved_from x) :: spost]> bl))
                    (tr ++ [EMoveAssign x])).
Proof.
  intros Hne Hs -> Hd -> Hx Hx0. unfold move_assign.
  erewrite bind_ret by (by eapply read_at).
  rewrite Hx0.
  erewrite bind_ret by (by eapply assign_at).
  erewrite bind_ret; last first.
  { eapply assign_at; [|done]. by rewrite lookup_insert_ne. }
  by rewrite emit_at.
Qed.

(** [Erase] of the element held by [c]. *)
Lemma Erase_ok vs bl tr this m b pre c cs rest x xs :
  vs !! this = Some (MkVec m (length (pre ++ c :: cs))) →
  buffer_ m = Some b →
  bl !! b = Some (pre ++ c :: cs ++ rest) →
  slot_value c = Some x → has_values cs xs →
  Forall (λ v, shift_throws v = false) xs →
  Vector.Erase this (Ptr (Some b) (length pre)) (MkState vs bl tr)
  = Ret (Ptr (Some b) (length pre))
        (MkState (<[this := MkVec m (length (pre ++ c :: cs) - 1)]> vs)
                 (<[b := pre ++ shift shift_leave Raw cs ++ rest]> bl)
                 (tr ++ [EDtor x] ++ (shift_event <$> xs))).
Proof.
  intros Hthis Hb Hbl Hx Hv Hok.
  assert (Hn : length (pre ++ c :: cs) = length pre + S (length cs))
    by (by rewrite length_app).
  unfold Vector.Erase.
  erewrite bind_ret by (by apply get_at). cbn [data_ size_].
  unfold Vector.in_range. cbn [data_ size_ blk off].
  erewrite bind_ret; last first.
  { apply assert_true; split; [done|]. rewrite Hn. lia. }
  unfold RawMemory.GetAddress. rewrite Hb.
  erewrite bind_ret by (apply distance_at; lia).
  rewrite !Nat.sub_0_r, !ptr_add_Ptr, !Nat.add_0_l.
  erewrite bind_ret by (by eapply destroy_at_at).
  unfold Vector.end_, RawMemory.GetAddress. cbn [data_ size_].
  rewrite Hb, !ptr_add_Ptr, !Nat.add_0_l.
  unfold shift_throws, shift_event, shift_leave in *.
  destruct Vector.use_move.
  - erewrite bind_ret; last first.
    { unfold Std.move. erewrite bind_ret by (apply distance_at; lia).
      replace (length (pre ++ c :: cs) - (length pre + 1)) with (length cs) by lia.
      eapply (move_n_shift _ b cs xs Raw pre rest); [|done|done|done].
      apply lookup_insert_eq. }
    erewrite bind_ret by (by apply set_size_at). cbn [data_ size_].
    cbn [mret M_ret ret]. by rewrite insert_insert_eq, <-app_assoc.
  - erewrite bind_ret; last first.
    { unfold Std.copy. erewrite bind_ret by (apply distance_at; lia).
      replace (length (pre ++ c :: cs) - (length pre + 1)) with (length cs) by lia.
      eapply (copy_n_shift _ b cs xs Raw pre rest); [|done|done|done].
      apply lookup_insert_eq. }
    erewrite bind_ret by (by apply set_size_at). cbn [data_ size_].
    cbn [mret M_ret ret]. by rewrite insert_insert_eq, <-app_assoc.
Qed.

Lemma RawMemory_index_at m i s :
  i < capacity_ m → RawMemory.index m i s = Ret (Ptr (buffer_ m) i) s.
Proof.
  intros Hi. unfold RawMemory.index.
  by erewrite bind_ret by (by apply assert_true).
Qed.

Lemma new_object_at vs bl bl1 tr a x :
  fetch a (MkState vs bl tr) = Ret x (MkState vs bl1 tr) →
  alloc_fails 1 = false →
  Vector.new_object a (MkState vs bl tr)
  = Ret (Ptr (Some (fresh (dom bl))) 0)
        (MkState vs (<[fresh (dom bl) := [Obj x]]> bl1) (tr ++ [ctor_event a x])).
Proof.
  intros Hf Hal. destruct (fetch_alloc _ _ _ _ _ _ 1 Hf) as [Hf' Hfresh].
  unfold Vector.new_object.
  erewrite bind_ret by (by apply operator_new_at).
  erewrite bind_ret; last first.
  { eapply unwinding_ret.
    eapply (construct_at _ _ _ _ _ [] Raw []); [exact Hf'| |done].
    apply lookup_insert_eq. }
  cbn [mret M_ret ret]. by rewrite insert_insert_eq.
Qed.

(** [Emplace] before an element of a vector with room.  [cl] holds the last
    element, [cs] the elements from the position up to it. *)
Lemma Emplace_interior vs bl bl1 tr this m b pre cs cl r0 rest a x xs2 xl init h y :
  vs !! this = Some (MkVec m (length (pre ++ cs ++ [cl]))) →
  buffer_ m = Some b →
  capacity_ m = length (pre ++ cs ++ cl :: r0 :: rest) →
  fetch a (MkState vs bl tr) = Ret x (MkState vs bl1 tr) →
  bl1 !! b = Some (pre ++ cs ++ cl :: r0 :: rest) →
  has_values cs xs2 → slot_value cl = Some xl →
  alloc_fails 1 = false →
  move_ctor_throws xl = false →
  Forall (λ v, move_assign_throws v = false) xs2 →
  move_assign_throws x = false →
  shift moved_from (set_val cl (moved_from xl)) (reverse cs) = init ++ [h] →
  slot_value h = Some y →
  Vector.Emplace this (Ptr (Some b) (length pre)) a (MkState vs bl tr)
  = Ret (Ptr (Some b) (length pre))
        (MkState
           (<[this := MkVec m (S (length (pre ++ cs ++ [cl])))]> vs)
           (<[b := pre ++ Husk x :: reverse init ++ Obj xl :: rest]>
              (<[fresh (dom bl) := [Obj (moved_from x)]]> bl1))
           (tr ++ [ctor_event a x; EMoveCtor xl] ++ (EMoveAssign <$> reverse xs2)
               ++ [EDtor y; EMoveAssign x])).
Proof.
  intros Hthis Hb Hc Hf Hbl Hv2 Hxl Hal Hxl0 Hok2 Hx0 Hsh Hh.
  pose proof (has_values_length _ _ Hv2) as Hl2.
  destruct (fetch_alloc _ _ _ _ _ _ 1 Hf) as [Hf' Hfresh].
  set (tmp := fresh (dom bl)) in *.
  assert (Hne : tmp ≠ b) by congruence.
  assert (Hn : length (pre ++ cs ++ [cl]) = length pre + length cs + 1)
    by (rewrite !length_app; simpl; lia).
  rewrite !length_app in Hc. simpl in Hc.
  set (n := length (pre ++ cs ++ [cl])) in *.
  unfold Vector.Emplace.
  erewrite bind_ret by (by apply get_at). cbn [data_ size_].
  unfold Vector.in_range. cbn [data_ size_ blk off].
  erewrite bind_ret by (apply assert_true; split; [done|lia]).
  unfold Vector.begin, Vector.end_, RawMemory.GetAddress. cbn [data_ size_]. rewrite Hb.
  erewrite bind_ret by (apply distance_at; lia).
  rewrite !Nat.sub_0_r.
  unfold Vector.Capacity, RawMemory.Capacity. cbn [data_].
  rewrite decide_False by lia. rewrite decide_False by lia.
  rewrite !ptr_add_Ptr, !Nat.add_0_l. cbn [blk off].
  erewrite bind_ret; last first.
  { erewrite bind_ret; [reflexivity|].
    (* temp = new T(args) *)
    erewrite bind_ret by (by apply new_object_at).
    (* new (end()) T(std::move(data_[size_ - 1])) *)
    erewrite bind_ret by (apply RawMemory_index_at; lia).
    rewrite Hb. unfold move_construct.
    erewrite bind_ret; last first.
    { eapply (construct_at _ _ _ _ _ (pre ++ cs ++ [set_val cl (moved_from xl)]) r0 rest).
      - erewrite (fetch_MoveOf _ _ _ b (pre ++ cs) cl (r0 :: rest)); [by rewrite Hxl0| | |done].
        + by rewrite lookup_insert_ne, Hbl, <-app_assoc.
        + rewrite length_app. lia.
      - by rewrite lookup_insert_eq, <-!app_assoc.
      - rewrite !length_app. simpl. lia. }
    (* std::move_backward(position, end() - 1, end()) *)
    erewrite bind_ret; last first.
    { unfold Std.move_backward.
      erewrite bind_ret by (apply distance_at; lia).
      erewrite bind_ret by (apply assert_true; cbn [off]; lia).
      cbn [blk off].
      replace (n - 1 - length pre) with (length cs) by lia.
      replace (n - length cs) with (length pre + 1) by lia.
      eapply (move_backward_n_shift _ b cs xs2 (set_val cl (moved_from xl)) pre
                (Obj xl :: rest)); [|done|done|done].
      by rewrite lookup_insert_eq, <-!app_assoc. }
    rewrite Hsh, reverse_app. cbn [reverse app].
    change (reverse [h]) with [h]. cbn [app].
    (* position->~T() *)
    erewrite bind_ret; last first.
    { eapply (destroy_at_at _ _ _ b pre h); [|done|done]. apply lookup_insert_eq. }
    (* data_[dist] = std::move( *temp) *)
    erewrite bind_ret by (apply RawMemory_index_at; lia).
    rewrite Hb.
    eapply (move_assign_across _ _ _ tmp b [] (Obj x) [] pre Raw); [done| |done| |done|done|done].
    - rewrite !lookup_insert_ne by done. apply lookup_insert_eq.
    - apply lookup_insert_eq. }
  erewrite bind_ret by (by apply get_at). cbn [data_ size_].
  erewrite bind_ret by (by apply set_size_at). cbn [data_ size_].
  cbn [mret M_ret ret]. f_equal. f_equal.
  - cbn [app set_val]. subst tmp.
    rewrite !insert_insert_eq.
    rewrite (insert_insert_ne _ (fresh (dom bl)) b) by done.
    by rewrite !insert_insert_eq.
  - by rewrite <-!app_assoc.
Qed.
End ops2.

Section ops3.
Context {T : Type} `{!Elem T} `{!MemorySource}.
Implicit Types (s : state T) (vs : gmap nat Vector) (bl : gmap nat (list (slot T)))
  (tr : list (event T)) (c : slot T) (l pre post cs cells rest : list (slot T))
  (xs : list T) (m : RawMemory) (a : args T).

Lemma Resize_same vs bl tr this m n :
  vs !! this = Some (MkVec m n) →
  Vector.Resize this n (MkState vs bl tr) = Ret tt (MkState vs bl tr).
Proof.
  intros Hthis. unfold Vector.Resize.
  erewrite bind_ret by (by apply get_at). cbn [size_].
  by rewrite decide_True.
Qed.

Lemma Resize_shrink vs bl tr this m keep gone rest xs :
  vs !! this = Some (MkVec m (length (keep ++ gone))) →
  cells_at bl (buffer_ m) (keep ++ gone ++ rest) →
  has_values gone xs → gone ≠ [] →
  Vector.Resize this (length keep) (MkState vs bl tr)
  = Ret tt (MkState (<[this := MkVec m (length keep)]> vs)
              (put_block (buffer_ m) (keep ++ replicate (length gone) Raw ++ rest) bl)
              (tr ++ (EDtor <$> xs))).
Proof.
  intros Hthis Hat Hv Hne.
  assert (0 < length gone) by (destruct gone; [done|simpl; lia]).
  assert (Hn : length (keep ++ gone) = length keep + length gone)
    by (by rewrite length_app).
  unfold Vector.Resize.
  erewrite bind_ret by (by apply get_at). cbn [size_ data_].
  rewrite decide_False by lia. rewrite decide_False by lia.
  unfold RawMemory.GetAddress. rewrite ptr_add_Ptr, Nat.add_0_l.
  erewrite bind_ret; last first.
  { eapply (destroy_n_from _ _ gone xs keep rest); [done|done|done|lia]. }
  by erewrite set_size_at by done.
Qed.

Lemma Resize_extend_room vs bl tr this m b cells fill rest :
  vs !! this = Some (MkVec m (length cells)) →
  buffer_ m = Some b → capacity_ m = length (cells ++ fill ++ rest) →
  bl !! b = Some (cells ++ fill ++ rest) →
  fill ≠ [] → value_init_throws = false →
  Vector.Resize this (length cells + length fill) (MkState vs bl tr)
  = Ret tt (MkState (<[this := MkVec m (length cells + length fill)]> vs)
              (<[b := cells ++ replicate (length fill) (Obj value_initialized) ++ rest]> bl)
              (tr ++ replicate (length fill) EValueInit)).
Proof.
  intros Hthis Hb Hc Hbl Hne Hok.
  assert (0 < length fill) by (destruct fill; [done|simpl; lia]).
  rewrite !length_app in Hc.
  unfold Vector.Resize.
  erewrite bind_ret by (by apply get_at). cbn [size_ data_].
  rewrite decide_False by lia. rewrite decide_True by lia.
  unfold Vector.Capacity, RawMemory.Capacity. cbn [data_].
  rewrite decide_False by lia.
  erewrite bind_ret; last first.
  { rewrite bind_unfold. cbn [mret M_ret ret].
    erewrite bind_ret by (by apply get_at). cbn [size_ data_].
    unfold RawMemory.GetAddress. rewrite Hb, ptr_add_Ptr, Nat.add_0_l.
    replace (length cells + length fill - length cells) with (length fill) by lia.
    by eapply uninitialized_value_construct_n_ok. }
  by erewrite set_size_at by done.
Qed.

Lemma Resize_extend_reserve vs bl tr this m cells rest xs new_size :
  vs !! this = Some (MkVec m (length cells)) →
  block_is (MkState vs bl tr) m (cells ++ rest) →
  has_values cells xs →
  capacity_ m < new_size →
  alloc_fails new_size = false →
  Forall (λ v, reloc_throws v = false) xs →
  value_init_throws = false →
  Vector.Resize this new_size (MkState vs bl tr)
  = Ret tt (MkState
              (<[this := MkVec (MkRaw (Some (fresh (dom bl))) new_size) new_size]> vs)
              (<[fresh (dom bl) :=
                   (Obj <$> xs) ++ replicate (new_size - length xs) (Obj value_initialized)]>
                 (released (buffer_ m) bl))
              (tr ++ (reloc_event <$> xs) ++ (EDtor <$> (left_behind <$> xs))
                  ++ replicate (new_size - length xs) EValueInit)).
Proof.
  intros Hthis Hblock Hv Hcap Hal Hok Hvi.
  pose proof (has_values_length _ _ Hv) as Hl.
  pose proof Hblock as [Hc _]. rewrite length_app in Hc.
  unfold Vector.Resize.
  erewrite bind_ret by (by apply get_at). cbn [size_ data_].
  rewrite decide_False by lia. rewrite decide_True by lia.
  unfold Vector.Capacity, RawMemory.Capacity. cbn [data_].
  rewrite decide_True by lia.
  erewrite bind_ret; last first.
  { erewrite bind_ret by (by eapply Reserve_grow).
    erewrite bind_ret by (apply get_at, lookup_insert_eq). cbn [size_ data_].
    unfold RawMemory.GetAddress. cbn [buffer_]. rewrite ptr_add_Ptr, Nat.add_0_l.
    replace (new_size - length cells)
      with (length (replicate (new_size - length xs) (@Raw T)))
      by (rewrite length_replicate; lia).
    eapply (uninitialized_value_construct_n_ok _ _ _ (Obj <$> xs) []); [|by rewrite length_fmap|done].
    by rewrite lookup_insert_eq, app_nil_r. }
  erewrite set_size_at by apply lookup_insert_eq. cbn [data_].
  rewrite !insert_insert_eq, length_replicate, app_nil_r.
  by rewrite <-!app_assoc.
Qed.

(** Failures. *)
Lemma first_throw (f : T → bool) xs :
  Exists (λ v, f v = true) xs →
  ∃ xs1 x xs2, xs = xs1 ++ x :: xs2 ∧ Forall (λ v, f v = false) xs1 ∧ f x = true.
Proof.
  induction xs as [|x0 xs IH]; intros Hex; [by apply Exists_nil in Hex|].
  destruct (f x0) eqn:E0.
  - exists [], x0, xs. by split_and!.
  - apply Exists_cons in Hex as [Hex|Hex]; [congruence|].
    destruct (IH Hex) as (xs1 & x & xs2 & -> & Hok & Hx).
    exists (x0 :: xs1), x, xs2. split_and!; [done| |done]. by constructor.
Qed.

Lemma MoveOrCopy_fail vs ob bd xs1 x xs2 sc spre spost dpre dpost bl tr i j k :
  Vector.use_move = false →
  ob ≠ Some bd →
  cells_at bl ob (spre ++ sc ++ spost) → i = length spre →
  bl !! bd = Some (dpre ++ replicate k Raw ++ dpost) → j = length dpre →
  has_values sc (xs1 ++ x :: xs2) → k = length (xs1 ++ x :: xs2) →
  Forall (λ v, copy_ctor_throws v = false) xs1 → copy_ctor_throws x = true →
  Vector.MoveOrCopy (Ptr ob i) k (Ptr (Some bd) j) (MkState vs bl tr)
  = Throw (MkState vs bl (tr ++ (ECopyCtor <$> xs1) ++ (EDtor <$> reverse xs1))).
Proof.
  intros Hum Hne Hs -> Hd -> Hv -> Hok Hx.
  destruct ob as [bs|]; simpl in Hs; last first.
  { destruct spre; [|done]. destruct sc; [|done].
    apply has_values_nil_inv in Hv. by destruct xs1. }
  unfold Vector.MoveOrCopy. rewrite Hum.
  erewrite uninitialized_copy_n_fail; try done; [|congruence|by rewrite length_replicate].
  do 2 f_equal. apply insert_id. rewrite Hd. do 2 f_equal.
  rewrite drop_replicate, app_assoc, <-replicate_add.
  do 2 f_equal. rewrite length_app. simpl. lia.
Qed.

(** [Reserve] beyond the capacity when a copy throws: the copies made are
    destroyed and nothing has changed but the trace. *)
Lemma Reserve_reloc_throws vs bl tr this m cells rest xs1 x xs2 new_capacity :
  vs !! this = Some (MkVec m (length cells)) →
  block_is (MkState vs bl tr) m (cells ++ rest) →
  has_values cells (xs1 ++ x :: xs2) →
  capacity_ m < new_capacity →
  alloc_fails new_capacity = false →
  Vector.use_move = false →
  Forall (λ v, copy_ctor_throws v = false) xs1 → copy_ctor_throws x = true →
  Vector.Reserve this new_capacity (MkState vs bl tr)
  = Throw (MkState vs bl (tr ++ (ECopyCtor <$> xs1) ++ (EDtor <$> reverse xs1))).
Proof.
  intros Hthis Hblock Hv Hcap Hal Hum Hok Hx.
  pose proof (has_values_length _ _ Hv) as Hl.
  pose proof Hblock as [Hc Hat]. rewrite length_app in Hc. simpl in Hat.
  pose proof (cells_at_None _ _ _ _ Hat (fresh_block bl)) as Hne.
  unfold Vector.Reserve.
  erewrite bind_ret by (by apply get_at). cbn [data_ size_].
  unfold RawMemory.Capacity. rewrite decide_False by lia.
  eapply scope_throw; [lia|done| |].
  - erewrite bind_throw; [reflexivity|].
    unfold Vector.MoveOrCopyAndSwap.
    erewrite bind_ret by (by apply get_at). cbn [data_ size_].
    erewrite bind_throw; [reflexivity|].
    unfold RawMemory.GetAddress. cbn [buffer_].
    eapply (MoveOrCopy_fail _ _ _ xs1 x xs2 cells [] rest []
              (replicate (new_capacity - length cells) Raw));
      [done|done| |done| |done|done|done|done|done].
    + by apply cells_at_insert_ne.
    + rewrite lookup_insert_eq. cbn [app]. rewrite <-replicate_add.
      do 2 f_equal. lia.
  - unfold RawMemory.dtor, RawMemory.Deallocate. cbn [buffer_].
    erewrite operator_delete_at.
    + simpl. by rewrite delete_insert_id by apply fresh_block.
    + intros b [= <-]. rewrite lookup_insert_eq. by eexists.
Qed.

(** [EmplaceBack] into a full vector when the constructor of the new
    element throws. *)
Lemma EmplaceBack_ctor_throws vs bl tr this m a :
  vs !! this = Some (MkVec m (capacity_ m)) →
  alloc_fails (Vector.grown (capacity_ m)) = false →
  fetch a (MkState vs bl tr) = Throw (MkState vs bl tr) →
  Vector.EmplaceBack this a (MkState vs bl tr) = Throw (MkState vs bl tr).
Proof.
  intros Hthis Hal Hf.
  pose proof (grown_gt (capacity_ m)) as Hg.
  unfold Vector.EmplaceBack.
  erewrite bind_ret by (by apply get_at). cbn [data_ size_].
  unfold Vector.Capacity, RawMemory.Capacity. cbn [data_].
  rewrite decide_True by done.
  erewrite bind_throw; [reflexivity|].
  eapply scope_throw; [lia|done| |].
  - erewrite bind_ret by (apply RawMemory_index_at; cbn [capacity_]; lia).
    erewrite bind_throw; [reflexivity|].
    apply construct_throw. rewrite fetch_fresh by apply fresh_block.
    rewrite Hf. reflexivity.
  - unfold RawMemory.dtor, RawMemory.Deallocate.
    cbn [buffer_]. unfold set_blocks. cbn [vecs blocks trace].
    erewrite operator_delete_at.
    + simpl. by rewrite delete_insert_id by apply fresh_block.
    + intros b [= <-]. rewrite lookup_insert_eq. by eexists.
Qed.

(** [EmplaceBack] into a full vector when a copy of the relocation throws.
    The trace shows the construction of the new element, and no
    destruction of it. *)
Lemma EmplaceBack_reloc_throws vs bl bl1 tr this m cells xs1 x xs2 a x0 :
  vs !! this = Some (MkVec m (length cells)) →
  fetch a (MkState vs bl tr) = Ret x0 (MkState vs bl1 tr) →
  block_is (MkState vs bl1 tr) m cells →
  has_values cells (xs1 ++ x :: xs2) →
  alloc_fails (Vector.grown (length cells)) = false →
  Vector.use_move = false →
  Forall (λ v, copy_ctor_throws v = false) xs1 → copy_ctor_throws x = true →
  Vector.EmplaceBack this a (MkState vs bl tr)
  = Throw (MkState vs bl1
             (tr ++ [ctor_event a x0] ++ (ECopyCtor <$> xs1) ++ (EDtor <$> reverse xs1))).
Proof.
  intros Hthis Hf Hblock Hv Hal Hum Hok Hx.
  pose proof (has_values_length _ _ Hv) as Hl.
  pose proof Hblock as [Hc Hat]. simpl in Hat.
  pose proof (grown_gt (length cells)) as Hg.
  destruct (fetch_alloc _ _ _ _ _ _ (Vector.grown (length cells)) Hf) as [Hf' Hfresh].
  pose proof (cells_at_None _ _ _ _ Hat Hfresh) as Hne.
  unfold Vector.EmplaceBack.
  erewrite bind_ret by (by apply get_at). cbn [data_ size_].
  unfold Vector.Capacity, RawMemory.Capacity. cbn [data_].
  rewrite decide_True by done.
  erewrite bind_throw; [reflexivity|].
  eapply scope_throw; [lia|done| |].
  - erewrite bind_ret by (apply RawMemory_index_at; cbn [capacity_]; lia).
    cbn [buffer_].
    erewrite bind_ret; last first.
    { eapply (construct_at _ _ _ _ _ (replicate (length cells) Raw) Raw
                (replicate (Vector.grown (length cells) - S (length cells)) Raw));
        [exact Hf'| |].
      - rewrite lookup_insert_eq. f_equal.
        change (Raw :: replicate (Vector.grown (length cells) - S (length cells)) (@Raw T))
          with (replicate (S (Vector.grown (length cells) - S (length cells))) (@Raw T)).
        rewrite <-replicate_add. f_equal. lia.
      - by rewrite length_replicate. }
    erewrite bind_throw; [reflexivity|].
    unfold Vector.MoveOrCopyAndSwap.
    erewrite bind_ret by (by apply get_at). cbn [data_ size_].
    erewrite bind_throw; [reflexivity|].
    unfold RawMemory.GetAddress. cbn [buffer_].
    eapply (MoveOrCopy_fail _ _ _ xs1 x xs2 cells [] [] []
              (Obj x0 :: replicate (Vector.grown (length cells) - S (length cells)) Raw));
      [done|done| |done| |done|done|done|done|done].
    + rewrite app_nil_r. by apply cells_at_insert_ne; [|apply cells_at_insert_ne].
    + by rewrite lookup_insert_eq.
  - unfold RawMemory.dtor, RawMemory.Deallocate. cbn [buffer_].
    erewrite operator_delete_at.
    + simpl. rewrite insert_insert_eq, delete_insert_id by done.
      by rewrite <-!app_assoc.
    + intros b [= <-]. rewrite lookup_insert_eq. by eexists.
Qed.

Lemma put_block_id bl ob cells : cells_at bl ob cells → put_block ob cells bl = bl.
Proof. destruct ob as [b|]; [|done]. simpl. apply insert_id. Qed.

(** [Emplace] into a full vector when the constructor of the new element
    throws. *)
Lemma Emplace_ctor_throws vs bl tr this m a dist :
  vs !! this = Some (MkVec m (capacity_ m)) →
  dist ≤ capacity_ m →
  alloc_fails (Vector.grown (capacity_ m)) = false →
  fetch a (MkState vs bl tr) = Throw (MkState vs bl tr) →
  Vector.Emplace this (Ptr (buffer_ m) dist) a (MkState vs bl tr)
  = Throw (MkState vs bl tr).
Proof.
  intros Hthis Hd Hal Hf.
  pose proof (grown_gt (capacity_ m)) as Hg.
  unfold Vector.Emplace.
  erewrite bind_ret by (by apply get_at). cbn [data_ size_].
  unfold Vector.in_range. cbn [data_ size_ blk off].
  erewrite bind_ret by (by apply assert_true).
  unfold Vector.begin, RawMemory.GetAddress. cbn [data_].
  erewrite bind_ret by (apply distance_at; lia).
  rewrite !Nat.sub_0_r.
  unfold Vector.Capacity, RawMemory.Capacity. cbn [data_].
  rewrite decide_True by done.
  erewrite bind_throw; [reflexivity|].
  eapply scope_throw; [lia|done| |].
  - erewrite bind_throw; [reflexivity|].
    apply construct_throw. rewrite fetch_fresh by apply fresh_block.
    rewrite Hf. reflexivity.
  - unfold RawMemory.dtor, RawMemory.Deallocate.
    cbn [buffer_]. unfold set_blocks. cbn [vecs blocks trace].
    erewrite operator_delete_at.
    + simpl. by rewrite delete_insert_id by apply fresh_block.
    + intros b [= <-]. rewrite lookup_insert_eq. by eexists.
Qed.

(** [Emplace] into a full vector when a copy of the relocation throws,
    before the position or after it.  The trace shows constructions in the
    new block with no destruction. *)
Lemma Emplace_reloc_throws_before vs bl bl1 tr this m pre suf xs1 x xs2 a x0 :
  vs !! this = Some (MkVec m (length (pre ++ suf))) →
  fetch a (MkState vs bl tr) = Ret x0 (MkState vs bl1 tr) →
  block_is (MkState vs bl1 tr) m (pre ++ suf) →
  has_values pre (xs1 ++ x :: xs2) →
  alloc_fails (Vector.grown (length (pre ++ suf))) = false →
  Vector.use_move = false →
  Forall (λ v, copy_ctor_throws v = false) xs1 → copy_ctor_throws x = true →
  Vector.Emplace this (Ptr (buffer_ m) (length pre)) a (MkState vs bl tr)
  = Throw (MkState vs bl1
             (tr ++ [ctor_event a x0] ++ (ECopyCtor <$> xs1) ++ (EDtor <$> reverse xs1))).
Proof.
  intros Hthis Hf Hblock Hv Hal Hum Hok Hx.
  pose proof (has_values_length _ _ Hv) as Hl.
  pose proof Hblock as [Hc Hat]. simpl in Hat.
  pose proof (grown_gt (length (pre ++ suf))) as Hg.
  destruct (fetch_alloc _ _ _ _ _ _ (Vector.grown (length (pre ++ suf))) Hf)
    as [Hf' Hfresh].
  pose proof (cells_at_None _ _ _ _ Hat Hfresh) as Hne.
  assert (Hn : length (pre ++ suf) = length pre + length suf) by (by rewrite length_app).
  unfold Vector.Emplace.
  erewrite bind_ret by (by apply get_at). cbn [data_ size_].
  unfold Vector.in_range. cbn [data_ size_ blk off].
  erewrite bind_ret by (apply assert_true; split; [done|lia]).
  unfold Vector.begin, RawMemory.GetAddress. cbn [data_].
  erewrite bind_ret by (apply distance_at; lia).
  rewrite !Nat.sub_0_r.
  unfold Vector.Capacity, RawMemory.Capacity. cbn [data_].
  rewrite decide_True by done.
  erewrite bind_throw; [reflexivity|].
  eapply scope_throw; [lia|done| |].
  - cbn [buffer_]. rewrite !ptr_add_Ptr, !Nat.add_0_l.
    erewrite bind_ret; last first.
    { eapply (construct_at _ _ _ _ _ (replicate (length pre) Raw) Raw
                (replicate (Vector.grown (length (pre ++ suf)) - S (length pre)) Raw));
        [exact Hf'| |].
      - rewrite lookup_insert_eq. f_equal.
        change (Raw :: replicate (Vector.grown (length (pre ++ suf)) - S (length pre))
                         (@Raw T))
          with (replicate (S (Vector.grown (length (pre ++ suf)) - S (length pre)))
                          (@Raw T)).
        rewrite <-replicate_add. f_equal. lia.
      - by rewrite length_replicate. }
    erewrite bind_throw; [reflexivity|].
    eapply (MoveOrCopy_fail _ _ _ xs1 x xs2 pre [] suf []
              (Obj x0 :: replicate (Vector.grown (length (pre ++ suf)) - S (length pre)) Raw));
      [done|done| |done| |done|done|done|done|done].
    + by apply cells_at_insert_ne; [|apply cells_at_insert_ne].
    + by rewrite lookup_insert_eq.
  - unfold RawMemory.dtor, RawMemory.Deallocate. cbn [buffer_].
    erewrite operator_delete_at.
    + simpl. rewrite insert_insert_eq, delete_insert_id by done.
      by rewrite <-!app_assoc.
    + intros b [= <-]. rewrite lookup_insert_eq. by eexists.
Qed.

Lemma Emplace_reloc_throws_after vs bl bl1 tr this m pre suf xs0 xs1 x xs2 a x0 :
  vs !! this = Some (MkVec m (length (pre ++ suf))) →
  fetch a (MkState vs bl tr) = Ret x0 (MkState vs bl1 tr) →
  block_is (MkState vs bl1 tr) m (pre ++ suf) →
  has_values pre xs0 → has_values suf (xs1 ++ x :: xs2) →
  alloc_fails (Vector.grown (length (pre ++ suf))) = false →
  Vector.use_move = false →
  Forall (λ v, copy_ctor_throws v = false) (xs0 ++ xs1) → copy_ctor_throws x = true →
  Vector.Emplace this (Ptr (buffer_ m) (length pre)) a (MkState vs bl tr)
  = Throw (MkState vs bl1
             (tr ++ [ctor_event a x0] ++ (ECopyCtor <$> (xs0 ++ xs1))
                 ++ (EDtor <$> reverse xs1))).
Proof.
  intros Hthis Hf Hblock Hv0 Hv Hal Hum Hok Hx.
  apply Forall_app in Hok as [Hok0 Hok1].
  pose proof (has_values_length _ _ Hv0) as Hl0.
  pose proof (has_values_length _ _ Hv) as Hl.
  pose proof Hblock as [Hc Hat]. simpl in Hat.
  pose proof (grown_gt (length (pre ++ suf))) as Hg.
  destruct (fetch_alloc _ _ _ _ _ _ (Vector.grown (length (pre ++ suf))) Hf)
    as [Hf' Hfresh].
  pose proof (cells_at_None _ _ _ _ Hat Hfresh) as Hne.
  assert (Hn : length (pre ++ suf) = length pre + length suf) by (by rewrite length_app).
  set (g := Vector.grown (length (pre ++ suf))) in *.
  unfold Vector.Emplace.
  erewrite bind_ret by (by apply get_at). cbn [data_ size_].
  unfold Vector.in_range. cbn [data_ size_ blk off].
  erewrite bind_ret by (apply assert_true; split; [done|lia]).
  unfold Vector.begin, RawMemory.GetAddress. cbn [data_].
  erewrite bind_ret by (apply distance_at; lia).
  rewrite !Nat.sub_0_r.
  unfold Vector.Capacity, RawMemory.Capacity. cbn [data_].
  rewrite decide_True by done.
  erewrite bind_throw; [reflexivity|].
  eapply scope_throw; [unfold g; lia|done| |].
  - cbn [buffer_]. rewrite !ptr_add_Ptr, !Nat.add_0_l.
    erewrite bind_ret; last first.
    { eapply (construct_at _ _ _ _ _ (replicate (length pre) Raw) Raw
                (replicate (g - S (length pre)) Raw)); [exact Hf'| |].
      - rewrite lookup_insert_eq. f_equal.
        change (Raw :: replicate (g - S (length pre)) (@Raw T))
          with (replicate (S (g - S (length pre))) (@Raw T)).
        rewrite <-replicate_add. f_equal. lia.
      - by rewrite length_replicate. }
    erewrite bind_ret; last first.
    { eapply (MoveOrCopy_from _ (buffer_ m) _ xs0 pre (replicate (length pre) Raw)
                [] suf [] (Obj x0 :: replicate (g - S (length pre)) Raw));
        [exact Hne| |done| |done|exact Hv0|by rewrite length_replicate|done|].
      - by apply cells_at_insert_ne; [|apply cells_at_insert_ne].
      - apply lookup_insert_eq.
      - unfold reloc_throws. by rewrite Hum. }
    unfold relocated, reloc_event. rewrite Hum, list_fmap_id. cbn [app].
    rewrite put_block_id
      by (by apply cells_at_insert_ne; [|apply cells_at_insert_ne]).
    erewrite bind_throw; [reflexivity|].
    eapply (MoveOrCopy_fail _ _ _ xs1 x xs2 suf pre [] ((Obj <$> xs0) ++ [Obj x0])
              (replicate (g - S (length (pre ++ suf))) Raw));
      [done|done| |done| | |done|lia|done|done].
    + rewrite app_nil_r.
      by do 3 (apply cells_at_insert_ne; [done|]).
    + rewrite lookup_insert_eq. f_equal. rewrite <-!app_assoc. cbn [app].
      do 2 f_equal. rewrite <-replicate_add. f_equal. lia.
    + rewrite length_app, length_fmap. simpl. lia.
  - unfold RawMemory.dtor, RawMemory.Deallocate. cbn [buffer_].
    erewrite operator_delete_at.
    + simpl. rewrite !insert_insert_eq, delete_insert_id by done.
      by rewrite fmap_app, <-!app_assoc.
    + intros b [= <-]. rewrite lookup_insert_eq. by eexists.
Qed.
End ops3.

Section frame.
Context {T : Type} `{!Elem T} `{!MemorySource}.

Lemma kv_ret {A} (a : A) : keeps_vecs (mret a : M T A).
Proof. by intros s. Qed.

Lemma kv_throw {A} : keeps_vecs (throw : M T A).
Proof. by intros s. Qed.

Lemma kv_undefined {A} : keeps_vecs (undefined : M T A).
Proof. by intros s. Qed.

Lemma kv_bind {A B} (m : M T A) (f : A → M T B) :
  keeps_vecs m → (∀ a, keeps_vecs (f a)) → keeps_vecs (m ≫= f).
Proof.
  intros Hm Hf s. rewrite bind_unfold. specialize (Hm s).
  destruct (m s) as [a s1|s1|]; [|done|done].
  specialize (Hf a s1). destruct (f a s1); congruence.
Qed.

Lemma kv_unwinding {A} (m : M T A) (h : M T unit) :
  keeps_vecs m → keeps_vecs h → keeps_vecs (unwinding m h).
Proof.
  intros Hm Hh s. unfold unwinding. specialize (Hm s).
  destruct (m s) as [a s1|s1|]; [done| |done].
  specialize (Hh s1). destruct (h s1); congruence.
Qed.

Lemma kv_assert b : keeps_vecs (assert b : M T unit).
Proof. destruct b; [apply kv_ret|apply kv_undefined]. Qed.

Lemma kv_emit e : keeps_vecs (emit e : M T unit).
Proof. by intros s. Qed.

Lemma kv_read p : keeps_vecs (read p : M T T).
Proof. intros s. unfold read. by destruct (load p s) as [[]|]. Qed.

Lemma kv_store p x : keeps_vecs (store p x : M T unit).
Proof.
  intros s. unfold store. destruct (blk p); [|done].
  destruct (blocks s !! _); [|done]. by case_decide.
Qed.

Lemma kv_assign p v : keeps_vecs (assign p v : M T unit).
Proof.
  intros s. unfold assign. destruct (load p s) as [[]|]; try done; apply kv_store.
Qed.

Lemma kv_fetch a : keeps_vecs (fetch a).
Proof.
  destruct a; simpl; try apply kv_ret; try apply kv_throw;
    (apply kv_bind; [apply kv_read|intros v]).
  - destruct (copy_ctor_throws v); [apply kv_throw|apply kv_ret].
  - destruct (move_ctor_throws v); [apply kv_throw|].
    apply kv_bind; [apply kv_assign|intros _; apply kv_ret].
Qed.

Lemma kv_construct p a : keeps_vecs (construct p a).
Proof.
  unfold construct. apply kv_bind; [apply kv_fetch|intros v].
  apply kv_bind; [apply kv_store|intros _; apply kv_emit].
Qed.

Lemma kv_value_construct p : keeps_vecs (value_construct p : M T unit).
Proof.
  unfold value_construct. destruct value_init_throws; [apply kv_throw|].
  apply kv_bind; [apply kv_store|intros _; apply kv_emit].
Qed.

Lemma kv_copy_assign p q : keeps_vecs (copy_assign p q : M T unit).
Proof.
  unfold copy_assign. apply kv_bind; [apply kv_read|intros v].
  destruct (copy_assign_throws v); [apply kv_throw|].
  apply kv_bind; [apply kv_assign|intros _; apply kv_emit].
Qed.

Lemma kv_move_assign p q : keeps_vecs (move_assign p q : M T unit).
Proof.
  unfold move_assign. apply kv_bind; [apply kv_read|intros v].
  destruct (move_assign_throws v); [apply kv_throw|].
  apply kv_bind; [apply kv_assign|intros _].
  apply kv_bind; [apply kv_assign|intros _; apply kv_emit].
Qed.

Lemma kv_destroy_at p : keeps_vecs (destroy_at p : M T unit).
Proof.
  unfold destroy_at. apply kv_bind; [apply kv_read|intros v].
  apply kv_bind; [apply kv_emit|intros _; apply kv_store].
Qed.

Lemma kv_destroy_n n : ∀ p, keeps_vecs (Std.destroy_n p n : M T unit).
Proof.
  induction n as [|n IH]; intros p; [apply kv_ret|].
  apply kv_bind; [apply kv_destroy_at|intros _; apply IH].
Qed.

Lemma kv_uninitialized_value_construct_n n :
  ∀ p, keeps_vecs (Std.uninitialized_value_construct_n p n : M T unit).
Proof.
  induction n as [|n IH]; intros p; [apply kv_ret|].
  apply kv_bind; [apply kv_value_construct|intros _].
  apply kv_unwinding; [apply IH|apply kv_destroy_at].
Qed.

Lemma kv_uninitialized_copy_n n : ∀ p q, keeps_vecs (Std.uninitialized_copy_n p n q : M T unit).
Proof.
  induction n as [|n IH]; intros p q; [apply kv_ret|].
  apply kv_bind; [apply kv_construct|intros _].
  apply kv_unwinding; [apply IH|apply kv_destroy_at].
Qed.

Lemma kv_uninitialized_move_n n : ∀ p q, keeps_vecs (Std.uninitialized_move_n p n q : M T unit).
Proof.
  induction n as [|n IH]; intros p q; [apply kv_ret|].
  apply kv_bind; [apply kv_construct|intros _].
  apply kv_unwinding; [apply IH|apply kv_destroy_at].
Qed.

Lemma kv_copy_n n : ∀ p q, keeps_vecs (Std.copy_n p n q : M T unit).
Proof.
  induction n as [|n IH]; intros p q; [apply kv_ret|].
  apply kv_bind; [apply kv_copy_assign|intros _; apply IH].
Qed.

Lemma kv_move_n n : ∀ p q, keeps_vecs (Std.move_n p n q : M T unit).
Proof.
  induction n as [|n IH]; intros p q; [apply kv_ret|].
  apply kv_bind; [apply kv_move_assign|intros _; apply IH].
Qed.

Lemma kv_move_backward_n n : ∀ p q, keeps_vecs (Std.move_backward_n p n q : M T unit).
Proof.
  induction n as [|n IH]; intros p q; [apply kv_ret|].
  apply kv_bind; [apply kv_move_assign|intros _; apply IH].
Qed.

Lemma kv_distance p q : keeps_vecs (Std.distance p q : M T nat).
Proof. apply kv_bind; [apply kv_assert|intros _; apply kv_ret]. Qed.

Lemma kv_copy p q r : keeps_vecs (Std.copy p q r : M T unit).
Proof. apply kv_bind; [apply kv_distance|intros n; apply kv_copy_n]. Qed.

Lemma kv_move p q r : keeps_vecs (Std.move p q r : M T unit).
Proof. apply kv_bind; [apply kv_distance|intros n; apply kv_move_n]. Qed.

Lemma kv_move_backward p q r : keeps_vecs (Std.move_backward p q r : M T unit).
Proof.
  apply kv_bind; [apply kv_distance|intros n].
  apply kv_bind; [apply kv_assert|intros _; apply kv_move_backward_n].
Qed.

Lemma kv_operator_new n : keeps_vecs (RawMemory.operator_new n : M T (option nat)).
Proof. intros s. unfold RawMemory.operator_new. by destruct (alloc_fails n). Qed.

Lemma kv_operator_delete ob : keeps_vecs (RawMemory.operator_delete ob : M T unit).
Proof.
  destruct ob as [b|]; [|apply kv_ret]. intros s. simpl.
  by destruct (blocks s !! b).
Qed.

Lemma kv_RawMemory_ctor n : keeps_vecs (RawMemory.ctor n : M T RawMemory).
Proof.
  apply kv_bind; [|intros b; apply kv_ret].
  unfold RawMemory.Allocate. case_decide; [apply kv_operator_new|apply kv_ret].
Qed.

Lemma kv_RawMemory_dtor m : keeps_vecs (RawMemory.dtor m : M T unit).
Proof. apply kv_operator_delete. Qed.

Lemma kv_RawMemory_index m i : keeps_vecs (RawMemory.index m i : M T ptr).
Proof. apply kv_bind; [apply kv_assert|intros _; apply kv_ret]. Qed.

Lemma kv_MoveOrCopy p n q : keeps_vecs (Vector.MoveOrCopy p n q : M T unit).
Proof.
  unfold Vector.MoveOrCopy.
  destruct Vector.use_move; [apply kv_uninitialized_move_n|apply kv_uninitialized_copy_n].
Qed.

Lemma kv_new_object a : keeps_vecs (Vector.new_object a).
Proof.
  apply kv_bind; [apply kv_operator_new|intros b].
  apply kv_bind; [|intros _; apply kv_ret].
  apply kv_unwinding; [apply kv_construct|apply kv_operator_delete].
Qed.

Lemma kv_get this : keeps_vecs (Vector.get this : M T Vector).
Proof. intros s. unfold Vector.get. by destruct (vecs s !! this). Qed.

(** Rules for triples. *)
Section rules.
Context (this c : nat).
Implicit Types (P : gmap nat Vector → Prop).

Lemma triple_pure (φ : Prop) P {A} (m : M T A) Q :
  (∀ vs, P vs → φ) → (φ → triple this c P m Q) → triple this c P m Q.
Proof. intros H1 H2 s HP. by apply (H2 (H1 _ HP)). Qed.

Lemma triple_conseq P P' {A} (m : M T A) (Q Q' : A → gmap nat Vector → Prop) :
  (∀ vs, P vs → P' vs) → triple this c P' m Q' → (∀ a vs, Q' a vs → Q a vs) →
  triple this c P m Q.
Proof.
  intros HP Hm HQ s Hs. specialize (Hm s (HP _ Hs)).
  destruct (m s); [by apply HQ|done|done].
Qed.

Lemma triple_ret P {A} (a : A) (Q : A → gmap nat Vector → Prop) :
  (∀ vs, P vs → Q a vs) → triple this c P (mret a : M T A) Q.
Proof. intros HQ s Hs. by apply HQ. Qed.

Lemma triple_bind P {A B} (m : M T A) (f : A → M T B) Q Q' :
  triple this c P m Q → (∀ a, triple this c (Q a) (f a) Q') →
  triple this c P (m ≫= f) Q'.
Proof.
  intros Hm Hf s Hs. rewrite bind_unfold. specialize (Hm s Hs).
  destruct (m s) as [a s1|s1|]; [|done|done]. by apply Hf.
Qed.

Lemma triple_frame P {A} (m : M T A) :
  keeps_vecs m → (∀ vs, P vs → cap_ge this c vs) → triple this c P m (λ _, P).
Proof.
  intros Hm HP s Hs. specialize (Hm s).
  destruct (m s) as [a s1|s1|]; [by rewrite Hm| |done].
  rewrite Hm. by apply HP.
Qed.

Lemma triple_weaken P {A} (m : M T A) :
  triple this c (cap_ge this c) m (λ _, cap_ge this c) →
  (∀ vs, P vs → cap_ge this c vs) → triple this c P m (λ _, cap_ge this c).
Proof. intros Hm HP. by eapply triple_conseq. Qed.

Lemma triple_frame_cap P {A} (m : M T A) :
  keeps_vecs m → (∀ vs, P vs → cap_ge this c vs) →
  triple this c P m (λ _, cap_ge this c).
Proof.
  intros Hm HP. eapply triple_conseq; [|by apply triple_frame|]; naive_solver.
Qed.

Lemma triple_get P x :
  triple this c P (Vector.get x : M T Vector) (λ v vs, P vs ∧ vs !! x = Some v).
Proof.
  intros s Hs. unfold Vector.get. by destruct (vecs s !! x) eqn:E.
Qed.

Lemma triple_put P x v (Q : unit → gmap nat Vector → Prop) :
  (∀ vs, P vs → Q tt (<[x := v]> vs)) → triple this c P (Vector.put x v : M T unit) Q.
Proof. intros HQ s Hs. by apply HQ. Qed.

Lemma cap_ge_insert vs v' :
  c ≤ capacity_ (data_ v') → cap_ge this c (<[this := v']> vs).
Proof. intros Hc. exists v'. by rewrite lookup_insert_eq. Qed.

Lemma cap_ge_insert_ne vs x v' :
  x ≠ this → cap_ge this c vs → cap_ge this c (<[x := v']> vs).
Proof. intros Hne (v & E & Hc). exists v. by rewrite lookup_insert_ne. Qed.

Lemma triple_set_size P n :
  (∀ vs, P vs → cap_ge this c vs) →
  triple this c P (Vector.set_size this n : M T unit) (λ _, cap_ge this c).
Proof.
  intros HP. unfold Vector.set_size.
  eapply triple_bind; [apply triple_get|intros v].
  apply triple_put. intros vs [Hvs E]. apply cap_ge_insert.
  destruct (HP _ Hvs) as (v0 & E0 & Hc). simpl. congruence.
Qed.

Lemma triple_set_data P d :
  c ≤ capacity_ d →
  triple this c P (Vector.set_data this d : M T unit) (λ _, cap_ge this c).
Proof.
  intros Hd. unfold Vector.set_data.
  eapply triple_bind; [apply triple_get|intros v].
  apply triple_put. intros vs _. by apply cap_ge_insert.
Qed.

Lemma triple_unwinding P {A} (m : M T A) (h : M T unit) Q :
  triple this c P m Q → keeps_vecs h → triple this c P (unwinding m h) Q.
Proof.
  intros Hm Hh s Hs. unfold unwinding. specialize (Hm s Hs).
  destruct (m s) as [a s1|s1|]; [done| |done].
  specialize (Hh s1). destruct (h s1); [by rewrite Hh|by rewrite Hh|done].
Qed.

Lemma dtor_no_throw m s s' : RawMemory.dtor m s ≠ Throw (T:=T) s'.
Proof.
  unfold RawMemory.dtor, RawMemory.Deallocate, RawMemory.operator_delete.
  destruct (buffer_ m) as [b|]; [|done]. by destruct (blocks s !! b).
Qed.

Lemma triple_scope P {A} cap (body : RawMemory → M T (RawMemory * A)) Q :
  (∀ vs, P vs → cap_ge this c vs) →
  (∀ buffer, capacity_ buffer = cap → triple this c P (body buffer) (λ r, Q r.2)) →
  triple this c P (RawMemory.scope cap body) Q.
Proof.
  intros HP Hbody s Hs. unfold RawMemory.scope. rewrite bind_unfold.
  pose proof (kv_RawMemory_ctor cap s) as Hc.
  destruct (RawMemory.ctor cap s) as [buffer s1|s1|] eqn:E; [| |done].
  - assert (capacity_ buffer = cap) as Hcap.
    { unfold RawMemory.ctor in E. rewrite bind_unfold in E.
      destruct (RawMemory.Allocate cap s); try done. by injection E as <- _. }
    rewrite <-Hc in Hs. specialize (Hbody buffer Hcap s1 Hs).
    destruct (body buffer s1) as [[buffer' a] s2|s2|]; [| |done].
    + rewrite bind_unfold. pose proof (kv_RawMemory_dtor buffer' s2) as Hd.
      destruct (RawMemory.dtor buffer' s2) eqn:Ed; [|by apply dtor_no_throw in Ed|done].
      simpl. by rewrite Hd.
    + rewrite bind_unfold. pose proof (kv_RawMemory_dtor buffer s2) as Hd.
      destruct (RawMemory.dtor buffer s2) eqn:Ed; [|by apply dtor_no_throw in Ed|done].
      simpl. by rewrite Hd.
  - rewrite Hc. by apply HP.
Qed.

Lemma known_capacity vs v :
  cap_ge this c vs ∧ vs !! this = Some v → c ≤ capacity_ (data_ v).
Proof. intros [(v0 & E0 & Hc) E]. congruence. Qed.

(** Member functions called on [this] keep its capacity at [c] or more. *)
Lemma MoveOrCopyAndSwap_cap P n buf :
  (∀ vs, P vs → cap_ge this c vs) → c ≤ capacity_ buf →
  triple this c P (Vector.MoveOrCopyAndSwap this n buf : M T RawMemory) (λ _, cap_ge this c).
Proof.
  intros HP Hbuf. unfold Vector.MoveOrCopyAndSwap.
  eapply triple_bind; [apply triple_get|intros v].
  eapply triple_bind;
    [apply triple_frame; [apply kv_MoveOrCopy|by intros vs [? _]; apply HP]|intros ?].
  eapply triple_bind;
    [apply triple_frame; [apply kv_destroy_n|by intros vs [? _]; apply HP]|intros ?].
  eapply triple_bind; [by apply triple_set_data|intros ?].
  by apply triple_ret.
Qed.

Lemma Reserve_cap n :
  triple this c (cap_ge this c) (Vector.Reserve this n : M T unit) (λ _, cap_ge this c).
Proof.
  unfold Vector.Reserve.
  eapply triple_bind; [apply triple_get|intros v].
  apply (triple_pure (c ≤ capacity_ (data_ v))); [intros vs; apply known_capacity|intros Hc].
  case_decide; [by apply triple_ret; intros vs [? _]|].
  apply triple_scope; [by intros vs [? _]|intros buffer Hb].
  eapply triple_bind; [|intros r; apply triple_ret; intros vs Hvs; exact Hvs].
  apply MoveOrCopyAndSwap_cap; [by intros vs [? _]|].
  unfold RawMemory.Capacity in *. lia.
Qed.

Lemma PopBack_cap :
  triple this c (cap_ge this c) (Vector.PopBack this : M T unit) (λ _, cap_ge this c).
Proof.
  unfold Vector.PopBack.
  eapply triple_bind; [apply triple_get|intros v].
  case_decide; [|by apply triple_ret; intros vs [? _]].
  eapply triple_bind;
    [apply triple_frame; [apply kv_RawMemory_index|by intros vs [? _]]|intros p].
  eapply triple_bind;
    [apply triple_frame; [apply kv_destroy_at|by intros vs [? _]]|intros ?].
  apply triple_set_size. by intros vs [? _].
Qed.

Lemma index_cap i :
  triple this c (cap_ge this c) (Vector.index this i : M T ptr) (λ _, cap_ge this c).
Proof.
  unfold Vector.index.
  eapply triple_bind; [apply triple_get|intros v].
  eapply triple_bind;
    [apply triple_frame; [apply kv_assert|by intros vs [? _]]|intros ?].
  apply triple_frame_cap; [apply kv_RawMemory_index|by intros vs [? _]].
Qed.

Lemma Resize_cap n :
  triple this c (cap_ge this c) (Vector.Resize this n : M T unit) (λ _, cap_ge this c).
Proof.
  unfold Vector.Resize.
  eapply triple_bind; [apply triple_get|intros v].
  case_decide; [by apply triple_ret; intros vs [? _]|].
  eapply triple_bind; [|intros ?; apply triple_set_size; intros vs Hvs; exact Hvs].
  case_decide.
  - eapply triple_bind.
    { case_decide.
      - apply triple_weaken; [apply Reserve_cap|by intros vs [? _]].
      - apply triple_ret. by intros vs [? _]. }
    intros ?. simpl.
    eapply triple_bind; [apply triple_get|intros v'].
    apply triple_frame_cap; [apply kv_uninitialized_value_construct_n|by intros vs [? _]].
  - apply triple_frame_cap; [apply kv_destroy_n|by intros vs [? _]].
Qed.

Lemma grown_ge n : n ≤ Vector.grown n.
Proof. unfold Vector.grown. case_decide; lia. Qed.

Lemma EmplaceBack_cap a :
  triple this c (cap_ge this c) (Vector.EmplaceBack this a) (λ _, cap_ge this c).
Proof.
  unfold Vector.EmplaceBack.
  eapply triple_bind; [apply triple_get|intros v].
  apply (triple_pure (c ≤ capacity_ (data_ v))); [intros vs; apply known_capacity|intros Hc].
  eapply triple_bind with (Q := λ _, cap_ge this c).
  { case_decide as Hfull.
    - apply triple_scope; [by intros vs [? _]|intros buffer Hb].
      eapply triple_bind;
        [apply triple_frame; [apply kv_RawMemory_index|by intros vs [? _]]|intros p].
      eapply triple_bind;
        [apply triple_frame; [apply kv_construct|by intros vs [? _]]|intros ?].
      eapply triple_bind; [|intros r; apply triple_ret; intros vs Hvs; exact Hvs].
      apply MoveOrCopyAndSwap_cap; [by intros vs [? _]|].
      pose proof (grown_ge (size_ v)).
      unfold Vector.Capacity, RawMemory.Capacity in *. lia.
    - eapply triple_bind;
        [apply triple_frame; [apply kv_RawMemory_index|by intros vs [? _]]|intros p].
      apply triple_frame_cap; [apply kv_construct|by intros vs [? _]]. }
  intros ?.
  eapply triple_bind; [apply triple_get|intros v'].
  eapply triple_bind; [apply triple_set_size; by intros vs [? _]|intros ?].
  apply index_cap.
Qed.

Lemma Emplace_cap pos a :
  triple this c (cap_ge this c) (Vector.Emplace this pos a) (λ _, cap_ge this c).
Proof.
  unfold Vector.Emplace.
  eapply triple_bind; [apply triple_get|intros v].
  apply (triple_pure (c ≤ capacity_ (data_ v))); [intros vs; apply known_capacity|intros Hc].
  eapply triple_bind;
    [apply triple_frame; [apply kv_assert|by intros vs [? _]]|intros ?].
  eapply triple_bind;
    [apply triple_frame; [apply kv_distance|by intros vs [? _]]|intros dist].
  eapply triple_bind with (Q := λ _, cap_ge this c).
  { case_decide as Hfull.
    - apply triple_scope; [by intros vs [? _]|intros buffer Hb].
      eapply triple_bind;
        [apply triple_frame; [apply kv_construct|by intros vs [? _]]|intros ?].
      eapply triple_bind;
        [apply triple_frame; [apply kv_MoveOrCopy|by intros vs [? _]]|intros ?].
      eapply triple_bind;
        [apply triple_frame; [apply kv_MoveOrCopy|by intros vs [? _]]|intros ?].
      eapply triple_bind;
        [apply triple_frame; [apply kv_destroy_n|by intros vs [? _]]|intros ?].
      eapply triple_bind; [|intros r; apply triple_ret; intros vs Hvs; exact Hvs].
      apply triple_set_data. simpl.
      pose proof (grown_ge (size_ v)).
      unfold Vector.Capacity, RawMemory.Capacity in *. lia.
    - eapply triple_bind; [|intros r; apply triple_ret; intros vs Hvs; exact Hvs].
      case_decide.
      + apply triple_frame_cap; [apply kv_construct|by intros vs [? _]].
      + eapply triple_bind;
          [apply triple_frame; [apply kv_new_object|by intros vs [? _]]|intros temp].
        eapply triple_bind;
          [apply triple_frame; [apply kv_RawMemory_index|by intros vs [? _]]|intros l].
        eapply triple_bind;
          [apply triple_frame; [apply kv_construct|by intros vs [? _]]|intros ?].
        eapply triple_bind;
          [apply triple_frame; [apply kv_move_backward|by intros vs [? _]]|intros ?].
        eapply triple_bind;
          [apply triple_frame; [apply kv_destroy_at|by intros vs [? _]]|intros ?].
        eapply triple_bind;
          [apply triple_frame; [apply kv_RawMemory_index|by intros vs [? _]]|intros t].
        apply triple_frame_cap; [apply kv_move_assign|by intros vs [? _]]. }
  intros position.
  eapply triple_bind; [apply triple_get|intros v'].
  eapply triple_bind; [apply triple_set_size; by intros vs [? _]|intros ?].
  by apply triple_ret.
Qed.

Lemma Erase_cap pos :
  triple this c (cap_ge this c) (Vector.Erase this pos : M T ptr) (λ _, cap_ge this c).
Proof.
  unfold Vector.Erase.
  eapply triple_bind; [apply triple_get|intros v].
  eapply triple_bind;
    [apply triple_frame; [apply kv_assert|by intros vs [? _]]|intros ?].
  eapply triple_bind;
    [apply triple_frame; [apply kv_distance|by intros vs [? _]]|intros dist].
  eapply triple_bind;
    [apply triple_frame; [apply kv_destroy_at|by intros vs [? _]]|intros ?].
  eapply triple_bind.
  { apply triple_frame; [|by intros vs [? _]].
    destruct Vector.use_move; [apply kv_move|apply kv_copy]. }
  intros ?.
  eapply triple_bind; [apply triple_set_size; by intros vs [? _]|intros ?].
  by apply triple_ret.
Qed.

Lemma triple_RawMemory_ctor P n :
  (∀ vs, P vs → cap_ge this c vs) →
  triple this c P (RawMemory.ctor n : M T RawMemory) (λ d vs, P vs ∧ capacity_ d = n).
Proof.
  intros HP s Hs. pose proof (kv_RawMemory_ctor n s) as Hk.
  destruct (RawMemory.ctor n s) as [d s1|s1|] eqn:E; [| |done].
  - rewrite Hk. split; [done|].
    unfold RawMemory.ctor in E. rewrite bind_unfold in E.
    destruct (RawMemory.Allocate n s); try done. by injection E as <- _.
  - rewrite Hk. by apply HP.
Qed.

Lemma CopyToFilledVector_cap rhs :
  triple this c (cap_ge this c) (Vector.CopyToFilledVector this rhs : M T unit)
         (λ _, cap_ge this c).
Proof.
  unfold Vector.CopyToFilledVector.
  eapply triple_bind; [apply triple_get|intros l].
  eapply triple_bind; [apply triple_get|intros r].
  eapply triple_bind;
    [apply triple_frame; [apply kv_copy|by intros vs [[? _] _]]|intros ?].
  eapply triple_bind.
  { apply triple_frame; [|by intros vs [[? _] _]].
    case_decide; [apply kv_uninitialized_copy_n|apply kv_ret]. }
  intros ?.
  eapply triple_bind.
  { apply triple_frame; [|by intros vs [[? _] _]].
    case_decide; [apply kv_destroy_n|apply kv_ret]. }
  intros ?. apply triple_set_size. by intros vs [[? _] _].
Qed.

Lemma copy_assign_cap rhs :
  triple this c (cap_ge this c) (Vector.copy_assign this rhs : M T unit)
         (λ _, cap_ge this c).
Proof.
  unfold Vector.copy_assign.
  case_decide as Hne; [|by apply triple_ret].
  eapply triple_bind; [apply triple_get|intros l].
  apply (triple_pure (c ≤ capacity_ (data_ l))); [intros vs; apply known_capacity|intros Hc].
  eapply triple_bind; [apply triple_get|intros r].
  case_decide as Hbig;
    [|apply triple_weaken; [apply CopyToFilledVector_cap|by intros vs [[? _] _]]].
  (* Vector temp(rhs) *)
  eapply triple_bind with
    (Q := λ temp vs, (cap_ge this c vs ∧ vs !! rhs = Some r) ∧ temp ≠ this).
  { intros s [[Hs Hl] Hr]. simpl. split_and!; [done|done|].
    intros E. assert (this ∈ dom (vecs s)) as Hin by by apply elem_of_dom_2 in Hl.
    rewrite <-E in Hin. by apply is_fresh in Hin. }
  intros temp.
  apply (triple_pure (temp ≠ this)); [by intros vs [_ ?]|intros Htemp].
  eapply triple_bind with
    (Q := λ _ vs, cap_ge this c vs ∧ cap_ge temp c vs).
  { unfold Vector.copy_ctor.
    eapply triple_bind; [apply triple_get|intros o].
    apply (triple_pure (o = r)); [intros vs [[[_ ?] _] ?]; congruence|intros ->].
    eapply triple_bind;
      [apply triple_RawMemory_ctor; by intros vs [[[? _] _] _]|intros data].
    apply (triple_pure (capacity_ data = Vector.Size r)); [by intros vs [_ ?]|intros Hd].
    eapply triple_bind.
    { apply triple_unwinding; [|apply kv_RawMemory_dtor].
      apply triple_frame; [apply kv_uninitialized_copy_n|].
      by intros vs [[[[? _] _] _] _]. }
    intros ?. apply triple_put. intros vs [[[[Hvs _] _] _] _]. split.
    - by apply cap_ge_insert_ne.
    - eexists. rewrite lookup_insert_eq. split; [done|]. simpl.
      unfold Vector.Size, RawMemory.Capacity in *. lia. }
  intros ?.
  (* this->Swap(temp) *)
  eapply triple_bind with (Q := λ _, cap_ge this c).
  { unfold Vector.Swap.
    eapply triple_bind; [apply triple_get|intros va].
    eapply triple_bind; [apply triple_get|intros vb].
    apply (triple_pure (c ≤ capacity_ (data_ vb))).
    { intros vs [[[_ (v0 & E0 & Hv0)] _] E]. congruence. }
    intros Hb.
    eapply triple_bind with (Q := λ _, cap_ge this c).
    - apply triple_put. intros vs _. by apply cap_ge_insert.
    - intros ?. apply triple_put. intros vs Hvs. by apply cap_ge_insert_ne. }
  intros ?.
  (* ~Vector() of temp *)
  unfold Vector.dtor.
  eapply triple_bind; [apply triple_get|intros t].
  eapply triple_bind;
    [apply triple_frame; [apply kv_destroy_n|by intros vs [? _]]|intros ?].
  eapply triple_bind;
    [apply triple_frame; [apply kv_RawMemory_dtor|by intros vs [? _]]|intros ?].
  intros s [(v & E & Hv) _]. simpl. exists v. by rewrite lookup_delete_ne.
Qed.
End rules.
End frame.

Section specs.
Context {T : Type} `{!Elem T} `{!MemorySource}.
Implicit Types (s : state T) (vs : gmap nat Vector) (bl : gmap nat (list (slot T)))
  (tr : list (event T)) (c : slot T) (l pre post cs cells rest : list (slot T))
  (xs : list T) (m : RawMemory) (a : args T).

Lemma fetch_repr a vs bl tr x s1 m L :
  fetch a (MkState vs bl tr) = Ret x s1 → detached a (buffer_ m) →
  cells_at bl (buffer_ m) L →
  ∃ bl1, s1 = MkState vs bl1 tr ∧ cells_at bl1 (buffer_ m) L.
Proof.
  intros Hf Hd Hat. pose proof (fetch_inv a vs bl tr) as Hi. rewrite Hf in Hi.
  destruct Hi as (Hv & Ht & _ & Hb). destruct s1 as [vs1 bl1 tr1]. simpl in *. subst.
  exists bl1. split; [done|]. destruct (buffer_ m) as [b|]; [|done]. simpl in *.
  by rewrite Hb.
Qed.

Lemma has_values_take n cells xs :
  has_values cells xs → has_values (take n cells) (take n xs).
Proof. unfold has_values. intros E. by rewrite !fmap_take, E. Qed.

Lemma has_values_drop n cells xs :
  has_values cells xs → has_values (drop n cells) (drop n xs).
Proof. unfold has_values. intros E. by rewrite !fmap_drop, E. Qed.

Lemma cells_at_nonempty bl ob L :
  cells_at bl ob L → L ≠ [] → ∃ b, ob = Some b ∧ bl !! b = Some L.
Proof. destruct ob as [b|]; [eauto|done]. Qed.

(** [EmplaceBack], whichever path it takes. *)
Lemma EmplaceBack_spec s s1 this m cells rest xs a x :
  repr s this m cells rest → has_values cells xs →
  fetch a s = Ret x s1 → detached a (buffer_ m) →
  (rest = [] → alloc_fails (Vector.grown (length xs)) = false
               ∧ Forall (λ v, reloc_throws v = false) xs) →
  ∃ s' m' cells' rest',
    Vector.EmplaceBack this a s = Ret (Ptr (buffer_ m') (length xs)) s'
    ∧ repr s' this m' cells' rest' ∧ has_values cells' (xs ++ [x])
    ∧ capacity_ m' = (if decide (rest = []) then Vector.grown (length xs)
                      else capacity_ m)
    ∧ trace s' = trace s ++ [ctor_event a x]
                 ++ (if decide (rest = [])
                     then (reloc_event <$> xs) ++ (EDtor <$> (left_behind <$> xs))
                     else []).
Proof.
  destruct s as [vs bl tr]. intros (Hthis & Hc & Hat) Hv Hf Hd Hgrow.
  simpl in Hat. pose proof (has_values_length _ _ Hv) as Hl.
  destruct (fetch_repr _ _ _ _ _ _ _ _ Hf Hd Hat) as (bl1 & -> & Hat1).
  destruct rest as [|r0 rest].
  - destruct (Hgrow eq_refl) as [Hal Hok]. rewrite app_nil_r in *.
    rewrite <-Hl in Hal.
    eexists _, (MkRaw (Some (fresh (dom bl))) (Vector.grown (length xs))),
      ((Obj <$> xs) ++ [Obj x]),
      (replicate (Vector.grown (length xs) - S (length xs)) Raw).
    split_and!.
    + erewrite EmplaceBack_grow; try done. by rewrite Hl.
    + pose proof (grown_gt (length xs)).
      split; [|split]; cbn [vecs blocks buffer_ capacity_ cells_at].
      * rewrite lookup_insert_eq, length_app, length_fmap.
        cbn [length]. do 2 f_equal. lia.
      * rewrite !length_app, length_fmap, length_replicate. cbn [length]. lia.
      * by rewrite lookup_insert_eq, <-app_assoc, ?Hl.
    + apply has_values_app; [apply has_values_Obj|done].
    + by rewrite decide_True.
    + by rewrite decide_True.
  - destruct (cells_at_nonempty _ _ _ Hat1) as (b & Hb & Hbl); [by destruct cells|].
    eexists _, m, (cells ++ [Obj x]), rest. split_and!.
    + erewrite EmplaceBack_room; try done. by rewrite Hb, Hl.
    + split; [|split]; cbn [vecs blocks cells_at].
      * rewrite lookup_insert_eq, length_app. cbn [length]. do 2 f_equal. lia.
      * rewrite Hc, !length_app. cbn [length]. lia.
      * rewrite Hb. cbn [cells_at]. by rewrite lookup_insert_eq, <-app_assoc.
    + by apply has_values_app.
    + by rewrite decide_False.
    + by rewrite decide_False.
Qed.

Lemma has_values_snoc_inv cs c xs :
  has_values (cs ++ [c]) xs →
  ∃ xs' x, xs = xs' ++ [x] ∧ has_values cs xs' ∧ slot_value c = Some x.
Proof.
  unfold has_values. rewrite fmap_app. intros Hv. symmetry in Hv.
  apply fmap_app_inv in Hv as (xs1 & xs2 & E1 & E2 & ->).
  destruct xs2 as [|x [|??]]; try done. exists xs1, x. naive_solver.
Qed.

Lemma list_snoc_inv {A} (k : list A) : k ≠ [] → ∃ (k' : list A) (y : A), k = k' ++ [y].
Proof.
  induction k as [|y k _] using rev_ind; [done|]. intros _. by exists k, y.
Qed.

(** [Emplace], whichever path it takes. *)
Lemma Emplace_spec s s1 this m cells rest xs a x dist :
  repr s this m cells rest → has_values cells xs → dist ≤ length xs →
  fetch a s = Ret x s1 → detached a (buffer_ m) →
  (rest = [] → alloc_fails (Vector.grown (length xs)) = false
               ∧ Forall (λ v, reloc_throws v = false) xs) →
  (rest ≠ [] → dist < length xs →
   alloc_fails 1 = false
   ∧ Forall (λ v, move_ctor_throws v = false ∧ move_assign_throws v = false) xs
   ∧ move_assign_throws x = false) →
  ∃ s' m' cells' rest',
    Vector.Emplace this (Ptr (buffer_ m) dist) a s = Ret (Ptr (buffer_ m') dist) s'
    ∧ repr s' this m' cells' rest'
    ∧ has_values cells' (take dist xs ++ x :: drop dist xs)
    ∧ capacity_ m' = (if decide (rest = []) then Vector.grown (length xs)
                      else capacity_ m)
    ∧ (rest = [] →
       trace s' = trace s ++ [ctor_event a x] ++ (reloc_event <$> xs)
                  ++ (EDtor <$> (left_behind <$> xs))).
Proof.
  destruct s as [vs bl tr]. intros (Hthis & Hc & Hat) Hv Hdist Hf Hd Hgrow Hroom.
  cbn [blocks] in Hat. pose proof (has_values_length _ _ Hv) as Hl.
  destruct (fetch_repr _ _ _ _ _ _ _ _ Hf Hd Hat) as (bl1 & -> & Hat1).
  pose proof (has_values_take dist _ _ Hv) as Hv1.
  pose proof (has_values_drop dist _ _ Hv) as Hv2.
  assert (Hcells : cells = take dist cells ++ drop dist cells)
    by (by rewrite take_drop).
  assert (Hxs : xs = take dist xs ++ drop dist xs) by (by rewrite take_drop).
  assert (Hpre : length (take dist cells) = dist) by (rewrite length_take; lia).
  set (pre := take dist cells) in *. set (suf := drop dist cells) in *.
  set (xs1 := take dist xs) in *. set (xs2 := drop dist xs) in *.
  destruct rest as [|r0 rest].
  - destruct (Hgrow eq_refl) as [Hal Hok]. rewrite app_nil_r in *.
    rewrite <-Hl in Hal.
    eexists _, (MkRaw (Some (fresh (dom bl))) (Vector.grown (length xs))),
      ((Obj <$> xs1) ++ Obj x :: (Obj <$> xs2)),
      (replicate (Vector.grown (length xs) - S (length xs)) Raw).
    split_and!.
    + rewrite <-Hpre.
      erewrite (Emplace_grow _ _ _ _ _ _ pre suf xs1 xs2);
        [|by rewrite <-Hcells|done|by split; rewrite <-Hcells|done|done
         |by rewrite <-Hcells|by rewrite <-Hxs].
      by rewrite <-Hcells, Hl.
    + pose proof (grown_gt (length xs)).
      assert (length xs1 + length xs2 = length xs)
        by (by rewrite <-length_app, <-Hxs).
      split; [|split]; cbn [vecs blocks buffer_ capacity_ cells_at].
      * rewrite lookup_insert_eq, length_app. cbn [length].
        rewrite !length_fmap. do 2 f_equal. lia.
      * rewrite !length_app. cbn [length].
        rewrite !length_fmap, length_replicate. lia.
      * by rewrite lookup_insert_eq, <-app_assoc.
    + apply has_values_app; [apply has_values_Obj|].
      apply (has_values_app [Obj x] _ [x]); [done|apply has_values_Obj].
    + by rewrite decide_True.
    + intros _. cbn [trace]. by rewrite <-Hxs.
  - destruct (cells_at_nonempty _ _ _ Hat1) as (b & Hb & Hbl); [by destruct cells|].
    destruct (decide (dist = length xs)) as [->|Hlt].
    + (* at the end *)
      eexists _, m, (cells ++ [Obj x]), rest. split_and!.
      * rewrite Hb, <-Hl. by erewrite Emplace_end.
      * split; [|split]; cbn [vecs blocks cells_at].
        -- rewrite lookup_insert_eq, length_app. cbn [length]. do 2 f_equal. lia.
        -- rewrite Hc, !length_app. cbn [length]. lia.
        -- rewrite Hb. cbn [cells_at]. by rewrite lookup_insert_eq, <-app_assoc.
      * unfold xs1, xs2. rewrite take_ge, drop_ge by lia.
        by apply has_values_app.
      * by rewrite decide_False.
      * done.
    + (* before an element *)
      destruct (Hroom ltac:(done) ltac:(lia)) as (Hal & Hok & Hx0).
      assert (suf ≠ []) as Hsuf.
      { intros E. rewrite E, app_nil_r in Hcells.
        rewrite Hcells, Hpre in Hl. lia. }
      destruct (list_snoc_inv _ Hsuf) as (cs & cl & Esuf).
      rewrite Esuf in Hv2.
      apply has_values_snoc_inv in Hv2 as (xs2' & xl & Exs2 & Hvcs & Hxl).
      rewrite Hxs, Exs2 in Hok.
      apply Forall_app in Hok as [_ Hok]. apply Forall_app in Hok as [Hok2 Hokl].
      apply Forall_cons in Hokl as [[Hxl1 Hxl2] _].
      destruct (shift_snoc moved_from (reverse cs) (set_val cl (moved_from xl))
                  (reverse xs2') (has_values_reverse _ _ Hvcs))
        as (init & h & Hsh & Hvi & _ & Hh).
      destruct Hh as [y Hy]; [left; by rewrite slot_value_set_val|].
      assert (Hcells' : cells = pre ++ cs ++ [cl]) by (by rewrite <-Esuf).
      eexists _, m, (pre ++ Husk x :: reverse init ++ [Obj xl]), rest. split_and!.
      * rewrite Hb, <-Hpre.
        erewrite (Emplace_interior _ _ _ _ _ _ b pre cs cl r0 rest _ x xs2' xl init h y);
          [reflexivity|by rewrite <-Hcells'|done| |done| |done|done|done|done
          | |done|done|done].
        -- rewrite Hc, Hcells', <-!app_assoc. done.
        -- rewrite Hbl, Hcells', <-!app_assoc. done.
        -- eapply Forall_impl; [exact Hok2|]. by intros ? [_ ?].
      * assert (length pre + length init + 1 = length cells).
        { rewrite Hcells', !length_app. cbn [length].
          pose proof (has_values_length _ _ Hvi) as Hli.
          pose proof (has_values_length _ _ Hvcs) as Hlc.
          rewrite length_reverse in Hli. lia. }
        split; [|split]; cbn [vecs blocks cells_at].
        -- rewrite lookup_insert_eq, <-Hcells', !length_app. cbn [length].
           rewrite length_app, length_reverse. cbn [length]. do 2 f_equal. lia.
        -- rewrite Hc, !length_app. cbn [length].
           rewrite !length_app, length_reverse. cbn [length]. lia.
        -- rewrite Hb. cbn [cells_at].
           rewrite lookup_insert_eq, <-!app_assoc. cbn [app].
           by rewrite <-!app_assoc.
      * rewrite Exs2. apply has_values_app; [done|].
        apply (has_values_app [Husk x] _ [x]); [done|].
        apply has_values_app; [|done].
        rewrite <-(reverse_involutive xs2'). by apply has_values_reverse.
      * by rewrite decide_False.
      * done.
Qed.

(** [Reserve] beyond the capacity. *)
Lemma Reserve_spec s this m cells rest xs n :
  repr s this m cells rest → has_values cells xs →
  capacity_ m < n → alloc_fails n = false →
  Forall (λ v, reloc_throws v = false) xs →
  ∃ s' b',
    Vector.Reserve this n s = Ret tt s'
    ∧ repr s' this (MkRaw (Some b') n) (Obj <$> xs) (replicate (n - length xs) Raw)
    ∧ trace s' = trace s ++ (reloc_event <$> xs) ++ (EDtor <$> (left_behind <$> xs)).
Proof.
  destruct s as [vs bl tr]. intros (Hthis & Hc & Hat) Hv Hn Hal Hok.
  pose proof (has_values_length _ _ Hv) as Hl. rewrite length_app in Hc.
  eexists _, (fresh (dom bl)). split_and!.
  - eapply Reserve_grow; try done. split; [by rewrite length_app|done].
  - split; [|split]; cbn [vecs blocks buffer_ capacity_ cells_at].
    + by rewrite lookup_insert_eq, length_fmap, Hl.
    + rewrite length_app, length_fmap, length_replicate. lia.
    + by rewrite lookup_insert_eq.
  - done.
Qed.

(** [Erase] of the element at index [dist]. *)
Lemma Erase_spec s this m cells rest xs dist x :
  repr s this m cells rest → has_values cells xs →
  xs !! dist = Some x →
  Forall (λ v, shift_throws v = false) (drop (S dist) xs) →
  ∃ s' cells' rest',
    Vector.Erase this (Ptr (buffer_ m) dist) s = Ret (Ptr (buffer_ m) dist) s'
    ∧ repr s' this m cells' rest'
    ∧ has_values cells' (take dist xs ++ drop (S dist) xs)
    ∧ trace s' = trace s ++ [EDtor x] ++ (shift_event <$> drop (S dist) xs).
Proof.
  destruct s as [vs bl tr]. intros (Hthis & Hc & Hat) Hv Hx Hok.
  cbn [blocks] in Hat. pose proof (has_values_length _ _ Hv) as Hl.
  pose proof (lookup_lt_Some _ _ _ Hx) as Hdist.
  pose proof (has_values_take dist _ _ Hv) as Hv1.
  pose proof (has_values_drop (S dist) _ _ Hv) as Hv2.
  destruct (lookup_lt_is_Some_2 cells dist) as [c Hcell]; [lia|].
  assert (Hcells : cells = take dist cells ++ c :: drop (S dist) cells)
    by (by rewrite take_drop_middle).
  assert (Hcx : slot_value c = Some x).
  { unfold has_values in Hv. apply (f_equal (.!! dist)) in Hv.
    rewrite !list_lookup_fmap, Hcell, Hx in Hv. simpl in Hv. congruence. }
  assert (Hpre : length (take dist cells) = dist) by (rewrite length_take; lia).
  set (pre := take dist cells) in *. set (cs := drop (S dist) cells) in *.
  destruct (cells_at_nonempty _ _ _ Hat) as (b & Hb & Hbl); [by destruct cells|].
  destruct (shift_snoc shift_leave cs Raw _ Hv2) as (init & h & Hsh & Hvi & _ & _).
  eexists _, (pre ++ init), (h :: rest). split_and!.
  - pose proof (Erase_ok vs bl tr this m b pre c cs rest x (drop (S dist) xs)) as HE.
    rewrite Hpre, <-Hcells in HE. rewrite Hb. apply HE; try done.
    rewrite Hbl. rewrite Hcells at 1. by rewrite <-app_assoc.
  - assert (length init = length cs).
    { pose proof (has_values_length _ _ Hvi). pose proof (has_values_length _ _ Hv2).
      lia. }
    assert (length cells = length pre + S (length cs))
      by (rewrite Hcells at 1; by rewrite length_app).
    split; [|split]; cbn [vecs blocks cells_at].
    + rewrite lookup_insert_eq, length_app. do 2 f_equal. lia.
    + rewrite Hc, !length_app. cbn [length]. lia.
    + rewrite Hb. cbn [cells_at].
      rewrite lookup_insert_eq, Hsh, <-!app_assoc. done.
  - by apply has_values_app.
  - done.
Qed.

(** [Resize] to a larger and to a smaller size. *)
Lemma Resize_spec_extend s this m cells rest xs n :
  repr s this m cells rest → has_values cells xs →
  length xs < n → value_init_throws = false →
  (capacity_ m < n → alloc_fails n = false ∧ Forall (λ v, reloc_throws v = false) xs) →
  ∃ s' m' cells' rest',
    Vector.Resize this n s = Ret tt s'
    ∧ repr s' this m' (cells' ++ replicate (n - length xs) (Obj value_initialized)) rest'
    ∧ has_values cells' xs
    ∧ capacity_ m' = (if decide (capacity_ m < n) then n else capacity_ m)
    ∧ (¬ capacity_ m < n → m' = m ∧ cells' = cells)
    ∧ trace s' = trace s
                 ++ (if decide (capacity_ m < n)
                     then (reloc_event <$> xs) ++ (EDtor <$> (left_behind <$> xs))
                     else [])
                 ++ replicate (n - length xs) EValueInit.
Proof.
  destruct s as [vs bl tr]. intros (Hthis & Hc & Hat) Hv Hn Hvi Hgrow.
  cbn [blocks] in Hat. pose proof (has_values_length _ _ Hv) as Hl.
  rewrite length_app in Hc.
  destruct (decide (capacity_ m < n)) as [Hbig|Hsmall].
  - destruct (Hgrow Hbig) as [Hal Hok].
    eexists _, (MkRaw (Some (fresh (dom bl))) n), (Obj <$> xs), []. split_and!.
    + eapply Resize_extend_reserve; try done. split; [by rewrite length_app|done].
    + split; [|split]; cbn [vecs blocks buffer_ capacity_ cells_at].
      * rewrite lookup_insert_eq, length_app, length_fmap, length_replicate.
        do 2 f_equal. lia.
      * rewrite !length_app, length_fmap, length_replicate. cbn [length]. lia.
      * by rewrite lookup_insert_eq, app_nil_r.
    + apply has_values_Obj.
    + done.
    + done.
    + cbn [trace]. by rewrite <-!app_assoc.
  - destruct (cells_at_nonempty _ _ _ Hat) as (b & Hb & Hbl).
    { intros E. apply (f_equal length) in E. rewrite length_app in E.
      cbn [length] in E. lia. }
    assert (Hrest : rest = take (n - length xs) rest ++ drop (n - length xs) rest)
      by (by rewrite take_drop).
    assert (Hfill : length (take (n - length xs) rest) = n - length xs)
      by (rewrite length_take; lia).
    set (fill := take (n - length xs) rest) in *.
    eexists _, m, cells, (drop (n - length xs) rest). split_and!.
    + pose proof (Resize_extend_room vs bl tr this m b cells fill
                    (drop (n - length xs) rest)) as HE.
      replace (length cells + length fill) with n in HE by lia.
      apply HE; try done.
      * rewrite !length_app. rewrite Hrest in Hc. rewrite length_app in Hc. lia.
      * by rewrite <-Hrest.
      * intros E. rewrite E in Hfill. cbn [length] in Hfill. lia.
    + split; [|split]; cbn [vecs blocks cells_at].
      * rewrite lookup_insert_eq, length_app, length_replicate. do 2 f_equal. lia.
      * rewrite Hc, !length_app, length_replicate.
        rewrite Hrest at 1. rewrite length_app. lia.
      * rewrite Hb. cbn [cells_at].
        rewrite lookup_insert_eq, Hfill, <-!app_assoc. done.
    + done.
    + done.
    + done.
    + cbn [trace app]. by rewrite Hfill.
Qed.

Lemma Resize_spec_shrink s this m cells rest xs n :
  repr s this m cells rest → has_values cells xs → n < length xs →
  ∃ s',
    Vector.Resize this n s = Ret tt s'
    ∧ repr s' this m (take n cells) (replicate (length xs - n) Raw ++ rest)
    ∧ trace s' = trace s ++ (EDtor <$> drop n xs).
Proof.
  destruct s as [vs bl tr]. intros (Hthis & Hc & Hat) Hv Hn.
  cbn [blocks] in Hat. pose proof (has_values_length _ _ Hv) as Hl.
  pose proof (has_values_drop n _ _ Hv) as Hv2.
  assert (Hcells : cells = take n cells ++ drop n cells) by (by rewrite take_drop).
  assert (Hkeep : length (take n cells) = n) by (rewrite length_take; lia).
  assert (Hgone : length (drop n cells) = length xs - n) by (rewrite length_drop; lia).
  set (keep := take n cells) in *. set (gone := drop n cells) in *.
  destruct (cells_at_nonempty _ _ _ Hat) as (b & Hb & Hbl).
  { intros E. apply (f_equal length) in E. rewrite length_app in E.
    cbn [length] in E. lia. }
  eexists. split_and!.
  - pose proof (Resize_shrink vs bl tr this m keep gone rest (drop n xs)) as HE.
    rewrite Hkeep, <-Hcells in HE. apply HE; try done.
    + rewrite Hb. cbn [cells_at]. rewrite Hbl. rewrite Hcells at 1.
      by rewrite <-app_assoc.
    + intros E. rewrite E in Hgone. cbn [length] in Hgone. lia.
  - split; [|split]; cbn [vecs blocks cells_at].
    + by rewrite lookup_insert_eq, Hkeep.
    + rewrite Hc, !length_app, length_replicate. rewrite Hcells at 1.
      rewrite length_app. lia.
    + rewrite Hb. cbn [cells_at put_block]. by rewrite lookup_insert_eq, Hgone.
  - done.
Qed.
End specs.

(** * The claims *)

Section claims.
Context {T : Type} `{!Elem T} `{!MemorySource}.

Lemma reloc_event_fmap (xs : list T) :
  reloc_event <$> xs = if Vector.use_move then EMoveCtor <$> xs else ECopyCtor <$> xs.
Proof. unfold reloc_event. by destruct Vector.use_move. Qed.

Lemma left_behind_fmap (xs : list T) :
  left_behind <$> xs = if Vector.use_move then moved_from <$> xs else xs.
Proof.
  unfold left_behind. destruct Vector.use_move; [done|]. apply list_fmap_id.
Qed.

Lemma shift_event_fmap (xs : list T) :
  shift_event <$> xs = if Vector.use_move then EMoveAssign <$> xs else ECopyAssign <$> xs.
Proof. unfold shift_event. by destruct Vector.use_move. Qed.

Lemma has_values_lookup cells (xs : list T) i x :
  has_values cells xs → xs !! i = Some x →
  ∃ c, cells = take i cells ++ c :: drop (S i) cells ∧ length (take i cells) = i ∧
       slot_value c = Some x.
Proof.
  intros Hv Hx. pose proof (f_equal (λ l, l !! i) Hv) as E. simpl in E.
  rewrite !list_lookup_fmap, Hx in E. simpl in E.
  destruct (cells !! i) as [c|] eqn:Hc; [|done]. simpl in E.
  exists c. split; [by rewrite take_drop_middle|]. split; [|congruence].
  apply lookup_lt_Some in Hc. rewrite length_take. lia.
Qed.

Lemma fetch_own_element (s : state T) this m cells rest xs i x :
  repr s this m cells rest → has_values cells xs → xs !! i = Some x →
  copy_ctor_throws x = false →
  fetch (CopyOf (Ptr (buffer_ m) i)) s = Ret x s.
Proof.
  intros (_ & _ & Hat) Hv Hx Hc. destruct s as [vs bl tr].
  destruct (has_values_lookup _ _ _ _ Hv Hx) as (c & Hsplit & Hlen & Hval).
  destruct (buffer_ m) as [b|]; simpl in Hat.
  - rewrite Hsplit, <-app_assoc in Hat. simpl in Hat.
    erewrite fetch_CopyOf; [|exact Hat|done|exact Hval]. by rewrite Hc.
  - apply app_eq_nil in Hat as [-> _]. by destruct (take i []).
Qed.

(** C9.  Copy assignment and move assignment of a vector to itself return
    with the store as it was: length, capacity and elements unchanged, and
    no call of a member of the element type. *)
Theorem C9_self_assignment (this : nat) (s : state T) :
  Vector.copy_assign this this s = Ret tt s ∧
  Vector.move_assign this this s = Ret tt s.
Proof.
  unfold Vector.copy_assign, Vector.move_assign.
  by destruct (decide (this ≠ this)).
Qed.

(** C5 (amended).  Move construction gives the new object the block and
    capacity of the source and leaves the source empty.  Move assignment to
    another object exchanges block and capacity: the destination has what
    the source had, the source what the destination had.  Move assignment
    of an object to itself changes nothing. *)
Theorem C5_RawMemory_move (σ : RawMemory.objects) (this other : nat) (src : RawMemory) :
  σ !! other = Some src → this ≠ other →
  RawMemory.move_ctor this other σ
  = Some (<[other := RawMemory.empty]> (<[this := src]> σ)) ∧
  (∀ dst, σ !! this = Some dst →
     RawMemory.move_assign this other σ
     = Some (<[other := dst]> (<[this := src]> σ))) ∧
  RawMemory.move_assign other other σ = Some σ.
Proof.
  intros Ho Hne. split; [|split].
  - unfold RawMemory.move_ctor, RawMemory.Swap_at, RawMemory.objects in *.
    rewrite lookup_insert_eq, lookup_insert_ne, Ho by done. simpl.
    by rewrite insert_insert_eq, Raw_eta.
  - intros dst Ht.
    unfold RawMemory.move_assign, RawMemory.Swap_at, RawMemory.objects in *.
    rewrite decide_True by done. rewrite Ht, Ho. simpl. by rewrite !Raw_eta.
  - unfold RawMemory.move_assign. by destruct (decide (other ≠ other)).
Qed.

(** C3.  The calls that relocate the elements [xs] of a vector are move
    constructions when [T] is nothrow-move-constructible or not
    copy-constructible, and copy constructions otherwise: in [Reserve], in
    [EmplaceBack] (so in [PushBack]) and [Emplace] (so in [Insert]) on a
    full vector.  The shift of [Erase] assigns by move under the same
    condition and by copy otherwise. *)
Theorem C3_relocation_by_move_or_copy (s : state T) this m cells rest xs :
  repr s this m cells rest → has_values cells xs →
  let by_move := nothrow_move_constructible || negb copy_constructible in
  let relocations := if by_move then EMoveCtor <$> xs else ECopyCtor <$> xs in
  let originals := if by_move then moved_from <$> xs else xs in
  let quiet v := (if by_move then move_ctor_throws v else copy_ctor_throws v) = false in
  (∀ n, capacity_ m < n → alloc_fails n = false → Forall quiet xs →
     ∃ s', Vector.Reserve this n s = Ret tt s' ∧
           trace s' = trace s ++ relocations ++ (EDtor <$> originals)) ∧
  (∀ a x s1, rest = [] → fetch a s = Ret x s1 → detached a (buffer_ m) →
     alloc_fails (Vector.grown (length xs)) = false → Forall quiet xs →
     ∃ p s', Vector.EmplaceBack this a s = Ret p s' ∧
             trace s' = trace s ++ [ctor_event a x] ++ relocations
                                ++ (EDtor <$> originals)) ∧
  (∀ a x s1 dist, rest = [] → dist ≤ length xs →
     fetch a s = Ret x s1 → detached a (buffer_ m) →
     alloc_fails (Vector.grown (length xs)) = false → Forall quiet xs →
     ∃ p s', Vector.Emplace this (Ptr (buffer_ m) dist) a s = Ret p s' ∧
             trace s' = trace s ++ [ctor_event a x] ++ relocations
                                ++ (EDtor <$> originals)) ∧
  (∀ dist x, xs !! dist = Some x →
     Forall (λ v, (if by_move then move_assign_throws v
                   else copy_assign_throws v) = false) (drop (S dist) xs) →
     ∃ p s', Vector.Erase this (Ptr (buffer_ m) dist) s = Ret p s' ∧
             trace s' = trace s ++ [EDtor x] ++
                        (if by_move then EMoveAssign <$> drop (S dist) xs
                         else ECopyAssign <$> drop (S dist) xs)).
Proof.
  intros Hr Hv by_move relocations originals quiet.
  subst relocations originals. change by_move with (Vector.use_move (T:=T)).
  rewrite <-reloc_event_fmap, <-left_behind_fmap.
  split; [|split; [|split]].
  - intros n Hn Ha Hq.
    destruct (Reserve_spec s this m cells rest xs n Hr Hv Hn Ha Hq)
      as (s' & b' & HR & _ & Ht). eauto.
  - intros a x s1 -> Hf Hd Ha Hq.
    destruct (EmplaceBack_spec s s1 this m cells [] xs a x Hr Hv Hf Hd)
      as (s' & m' & cells' & rest' & HR & _ & _ & _ & Ht); [done|].
    rewrite decide_True in Ht by done. eauto.
  - intros a x s1 dist -> Hdist Hf Hd Ha Hq.
    destruct (Emplace_spec s s1 this m cells [] xs a x dist Hr Hv Hdist Hf Hd)
      as (s' & m' & cells' & rest' & HR & _ & _ & _ & Ht); [done|done|].
    eauto.
  - intros dist x Hx Hq. rewrite <-shift_event_fmap.
    destruct (Erase_spec s this m cells rest xs dist x Hr Hv Hx Hq)
      as (s' & cells' & rest' & HR & _ & _ & Ht). eauto.
Qed.
Lemma inserted_length (xs : list T) x dist :
  dist ≤ length xs → length (take dist xs ++ x :: drop dist xs) = S (length xs).
Proof.
  intros Hd. rewrite length_app, length_take. simpl. rewrite length_drop. lia.
Qed.

Lemma inserted_lookup (xs : list T) x dist :
  dist ≤ length xs →
  (take dist xs ++ x :: drop dist xs) !! dist = Some x ∧
  (∀ i, i < dist → (take dist xs ++ x :: drop dist xs) !! i = xs !! i) ∧
  (∀ i, dist ≤ i → (take dist xs ++ x :: drop dist xs) !! S i = xs !! i).
Proof.
  intros Hd. assert (Hl : length (take dist xs) = dist) by (rewrite length_take; lia).
  split; [|split].
  - by apply list_lookup_middle.
  - intros i Hi. rewrite lookup_app_l by lia. by apply lookup_take_lt.
  - intros i Hi. rewrite lookup_app_r by lia. rewrite Hl.
    replace (S i - dist) with (S (i - dist)) by lia. simpl.
    rewrite lookup_drop. f_equal. lia.
Qed.

Lemma repr_size (s : state T) this m cells rest n :
  repr s this m cells rest → length cells = n →
  Vector.Size <$> vecs s !! this = Some n.
Proof. intros (-> & _) <-. done. Qed.

(** C6.  [Emplace] at index [dist] of a vector with the elements [xs],
    [dist <= length xs], when no call throws: it returns with the elements
    [take dist xs ++ x :: drop dist xs], [x] the value built from the
    arguments; that is one element more, [x] at index [dist], the elements
    before [dist] where they were and those from [dist] on one index
    further.  The pointer returned is to index [dist] of the block the
    vector has afterwards.  [Insert] is [Emplace] with a reference for
    argument. *)
Theorem C6_Emplace_inserts (s s1 : state T) this m cells rest xs a x dist :
  repr s this m cells rest → has_values cells xs → dist ≤ length xs →
  fetch a s = Ret x s1 → detached a (buffer_ m) →
  (rest = [] → alloc_fails (Vector.grown (length xs)) = false
               ∧ Forall (λ v, reloc_throws v = false) xs) →
  (rest ≠ [] → dist < length xs →
   alloc_fails 1 = false
   ∧ Forall (λ v, move_ctor_throws v = false ∧ move_assign_throws v = false) xs
   ∧ move_assign_throws x = false) →
  ∃ s' m' cells' rest' ys,
    Vector.Emplace this (Ptr (buffer_ m) dist) a s = Ret (Ptr (buffer_ m') dist) s' ∧
    (∀ p, a = CopyOf p →
       Vector.Insert this (Ptr (buffer_ m) dist) p s = Ret (Ptr (buffer_ m') dist) s') ∧
    (∀ p, a = MoveOf p →
       Vector.Insert_rvalue this (Ptr (buffer_ m) dist) p s
       = Ret (Ptr (buffer_ m') dist) s') ∧
    repr s' this m' cells' rest' ∧ has_values cells' ys ∧
    ys = take dist xs ++ x :: drop dist xs ∧
    Vector.Size <$> vecs s' !! this = Some (S (length xs)) ∧
    ys !! dist = Some x ∧
    (∀ i, i < dist → ys !! i = xs !! i) ∧
    (∀ i, dist ≤ i → ys !! S i = xs !! i).
Proof.
  intros Hr Hv Hdist Hf Hd Hgrow Hroom.
  destruct (Emplace_spec s s1 this m cells rest xs a x dist Hr Hv Hdist Hf Hd Hgrow Hroom)
    as (s' & m' & cells' & rest' & HR & Hr' & Hv' & _).
  destruct (inserted_lookup xs x dist Hdist) as (Hat & Hbefore & Hafter).
  exists s', m', cells', rest', (take dist xs ++ x :: drop dist xs).
  split_and!; try done.
  - by intros p ->.
  - by intros p ->.
  - eapply repr_size; [done|].
    by rewrite (has_values_length _ _ Hv'), inserted_length.
Qed.


(** C10.  [PushBack(v[i])] on a vector with the elements [xs], [x] the
    element at index [i], when no call throws: the vector has the elements
    [xs ++ [x]] afterwards, also when it grows, and the copy construction
    of [x] is the first call, before any relocation.  [Insert] of [v[i]]
    before index [dist] of a vector with room left gives
    [take dist xs ++ x :: drop dist xs]. *)
Theorem C10_PushBack_own_element (s : state T) this m cells rest xs i x :
  repr s this m cells rest → has_values cells xs → xs !! i = Some x →
  copy_ctor_throws x = false →
  ((rest = [] → alloc_fails (Vector.grown (length xs)) = false
                ∧ Forall (λ v, reloc_throws v = false) xs) →
   ∃ s' m' cells' rest',
     Vector.PushBack this (Ptr (buffer_ m) i) s = Ret tt s' ∧
     repr s' this m' cells' rest' ∧ has_values cells' (xs ++ [x]) ∧
     trace s' = trace s ++ [ECopyCtor x]
                ++ (if decide (rest = [])
                    then (reloc_event <$> xs) ++ (EDtor <$> (left_behind <$> xs))
                    else [])) ∧
  (∀ dist, dist < length xs → rest ≠ [] → alloc_fails 1 = false →
     Forall (λ v, move_ctor_throws v = false ∧ move_assign_throws v = false) xs →
     move_assign_throws x = false →
     ∃ s' m' cells' rest',
       Vector.Insert this (Ptr (buffer_ m) dist) (Ptr (buffer_ m) i) s
       = Ret (Ptr (buffer_ m') dist) s' ∧
       repr s' this m' cells' rest' ∧
       has_values cells' (take dist xs ++ x :: drop dist xs)).
Proof.
  intros Hr Hv Hx Hc.
  pose proof (fetch_own_element s this m cells rest xs i x Hr Hv Hx Hc) as Hf.
  split.
  - intros Hgrow.
    destruct (EmplaceBack_spec s s this m cells rest xs _ x Hr Hv Hf I Hgrow)
      as (s' & m' & cells' & rest' & HR & Hr' & Hv' & _ & Ht).
    exists s', m', cells', rest'. split_and!; try done.
    unfold Vector.PushBack. by erewrite bind_ret by exact HR.
  - intros dist Hdist Hrest Ha Hq Hxq.
    destruct (Emplace_spec s s this m cells rest xs _ x dist Hr Hv
                (Nat.lt_le_incl _ _ Hdist) Hf I)
      as (s' & m' & cells' & rest' & HR & Hr' & Hv' & _); [done|done|].
    by exists s', m', cells', rest'.
Qed.
(** Where relocation can throw although [T] could be copied or is
    nothrow-move-constructible, it is a relocation by copy. *)
Lemma throwing_relocation_copies (xs : list T) :
  nothrow_move_constructible = true ∨ copy_constructible = true →
  Exists (λ v, reloc_throws v = true) xs →
  Vector.use_move (T:=T) = false ∧ Exists (λ v, copy_ctor_throws v = true) xs.
Proof.
  intros Htraits Hex. unfold reloc_throws, Vector.use_move in *.
  destruct nothrow_move_constructible eqn:En; simpl in *.
  - apply Exists_exists in Hex as (v & _ & Hv).
    by rewrite (nothrow_move_sound En v) in Hv.
  - destruct Htraits as [?|Hcc]; [done|]. rewrite Hcc in *. by simpl in *.
Qed.

Lemma fetch_throw_same a (s s1 : state T) : fetch a s = Throw s1 → s1 = s.
Proof.
  destruct s as [vs bl tr]. intros Hf.
  pose proof (fetch_inv a vs bl tr) as Hi. by rewrite Hf in Hi.
Qed.

Lemma repr_full vs bl tr this m (cells : list (slot T)) :
  vs !! this = Some (MkVec m (length cells)) → capacity_ m = length cells →
  cells_at bl (buffer_ m) cells → repr (MkState vs bl tr) this m cells [].
Proof. intros. unfold repr, block_is. by rewrite app_nil_r. Qed.

Lemma grown_max n : Vector.grown n = 1 `max` (2 * n).
Proof. unfold Vector.grown. destruct (decide (n = 0)); lia. Qed.

Lemma call_cap this c (o : operation T) :
  triple this c (cap_ge this c) (call this o) (λ _, cap_ge this c).
Proof.
  assert (Hdrop : ∀ A (f : M T A),
    triple this c (cap_ge this c) f (λ _, cap_ge this c) →
    triple this c (cap_ge this c) (f;; mret tt) (λ _, cap_ge this c)).
  { intros A f Hf. eapply triple_bind; [exact Hf|].
    intros ?. by apply triple_ret. }
  destruct o; simpl;
    unfold Vector.PushBack, Vector.PushBack_rvalue, Vector.Insert, Vector.Insert_rvalue;
    try apply Hdrop.
  - apply Reserve_cap.
  - apply Resize_cap.
  - apply EmplaceBack_cap.
  - apply EmplaceBack_cap.
  - apply EmplaceBack_cap.
  - apply PopBack_cap.
  - apply Emplace_cap.
  - apply Emplace_cap.
  - apply Emplace_cap.
  - apply Erase_cap.
  - apply index_cap.
  - apply copy_assign_cap.
Qed.

End claims.

(** * The claims on examples *)

Section examples.
Import Examples.
#[local] Existing Instance plenty.

Section string_like.
#[local] Existing Instance string_like.

(** C1 (fails).  [Erase(begin())] on the vector {1, 2, 3}, which satisfies
    the invariant, returns with length 2 and the block
    [Husk 2; Obj 3; Obj 0]: the first slot was destroyed before the shift
    assigned into it, and the slot at index 2, past the new end, still holds
    the moved-from last object, which was never destroyed.  An [Emplace] at
    index 1 of {1, 2, 3} with capacity 4 leaves the slot at index 1
    destroyed and then assigned into, and the object of [new T] in a block
    of its own.  In both cases the invariant does not hold afterwards. *)
Theorem C1_Erase_breaks_invariant :
  (well_formed v123 7 ∧
   ∃ s', Vector.Erase 7 (Ptr (Some 0) 0) v123 = Ret (Ptr (Some 0) 0) s' ∧
         vecs s' !! 7 = Some (MkVec (MkRaw (Some 0) 3) 2) ∧
         blocks s' !! 0 = Some [Husk 2; Obj 3; Obj 0] ∧
         trace s' = [EDtor 1; EMoveAssign 2; EMoveAssign 3] ∧
         ¬ well_formed s' 7) ∧
  (well_formed v123_ 7 ∧
   ∃ s', Vector.Emplace 7 (Ptr (Some 0) 1) (Build 9) v123_ = Ret (Ptr (Some 0) 1) s' ∧
         vecs s' !! 7 = Some (MkVec (MkRaw (Some 0) 4) 4) ∧
         blocks s' !! 0 = Some [Obj 1; Husk 9; Obj 2; Obj 3] ∧
         blocks s' !! 1 = Some [Obj 0] ∧
         trace s' = [ECtor 9; EMoveCtor 3; EMoveAssign 2; EDtor 0; EMoveAssign 9] ∧
         ¬ well_formed s' 7).
Proof.
  split; split.
  - exists (MkRaw (Some 0) 3), [1; 2; 3], 0. by repeat split.
  - eexists. split; [vm_compute; reflexivity|].
    split; [done|]. split; [done|]. split; [done|].
    intros (m & xs & n & Hthis & _ & Hat). vm_compute in Hthis.
    injection Hthis as <- Hlen. simpl in Hat. vm_compute in Hat.
    destruct xs as [|x xs]; [done|]. simpl in Hat. discriminate.
  - exists (MkRaw (Some 0) 4), [1; 2; 3], 1. by repeat split.
  - eexists. split; [vm_compute; reflexivity|].
    split; [done|]. split; [done|]. split; [done|]. split; [done|].
    intros (m & xs & n & Hthis & _ & Hat). vm_compute in Hthis.
    injection Hthis as <- Hlen. simpl in Hat. vm_compute in Hat.
    destruct xs as [|x [|y xs]]; [done|done|]. simpl in Hat. discriminate.
Qed.

(** C4 (fails).  For a = {1} with capacity 3 and b = {7, 8, 9}, [a = b]
    takes the branch of [CopyToFilledVector] and returns with a = {7, 8, 9},
    but it assigns three times, twice into the uninitialized slots 1 and 2
    of a, where the overlapping prefix has length [min 1 3 = 1]; then it
    copy-constructs 8 and 9 into the same two slots. *)
Theorem C4_copy_assign_assigns_past_the_prefix :
  ∃ s', Vector.copy_assign 1 2 a1_b789 = Ret tt s' ∧
        vecs s' !! 1 = Some (MkVec (MkRaw (Some 0) 3) 3) ∧
        blocks s' !! 0 = Some [Obj 7; Obj 8; Obj 9] ∧
        trace s' = [ECopyAssign 7; ECopyAssign 8; ECopyAssign 9;
                    ECopyCtor 8; ECopyCtor 9] ∧
        assignments (trace s') = 3 ∧
        assignments (trace s') ≠ 1 `min` 3.
Proof. eexists. split; [vm_compute; reflexivity|]. by repeat split. Qed.

End string_like.

Section move_only.
#[local] Existing Instance move_only.

End move_only.

(** C5 (counterexample).  Move assignment between two RawMemory objects
    that each own a block leaves the source with the block and capacity the
    destination had. *)
Lemma C5_move_assign_source_not_empty :
  ∃ σ', RawMemory.move_assign 1 2 two_buffers = Some σ' ∧
        σ' !! 1 = Some (MkRaw (Some 20) 3) ∧
        σ' !! 2 = Some (MkRaw (Some 10) 2) ∧
        σ' !! 2 ≠ Some RawMemory.empty.
Proof. eexists. split; [vm_compute; reflexivity|]. by repeat split. Qed.
End examples.

Section witnesses.
Import Examples.
#[local] Existing Instance plenty.

(** C5 at the two buffers: a third object move-constructed from the second
    takes its block, and leaves it empty. *)
Lemma C5_RawMemory_move_witness :
  two_buffers !! 2 = Some (MkRaw (Some 20) 3) ∧ 3 ≠ 2 ∧
  RawMemory.move_ctor 3 2 two_buffers
  = Some (<[2 := RawMemory.empty]> (<[3 := MkRaw (Some 20) 3]> two_buffers)).
Proof.
  split; [reflexivity|]. split; [lia|].
  apply (C5_RawMemory_move two_buffers 3 2 (MkRaw (Some 20) 3)); [reflexivity|lia].
Defined.

Section string_like.
#[local] Existing Instance string_like.

(** The stores of the examples hold what their names say. *)
Lemma v123_repr : repr v123 7 (MkRaw (Some 0) 3) [Obj 1; Obj 2; Obj 3] [].
Proof. repeat split. Qed.

Lemma v123__repr : repr v123_ 7 (MkRaw (Some 0) 4) [Obj 1; Obj 2; Obj 3] [Raw].
Proof. repeat split. Qed.

(** C3 at {1, 2, 3}: [Reserve(5)] relocates by move, the type being
    nothrow-move-constructible. *)
Lemma C3_relocation_by_move_or_copy_witness :
  ∃ s', Vector.Reserve 7 5 v123 = Ret tt s' ∧
        trace s' = [EMoveCtor 1; EMoveCtor 2; EMoveCtor 3; EDtor 0; EDtor 0; EDtor 0].
Proof.
  refine (proj1 (C3_relocation_by_move_or_copy v123 7 _ _ _ [1; 2; 3] v123_repr
                   (eq_refl : has_values [Obj 1; Obj 2; Obj 3] [1; 2; 3])) 5 _ _ _);
    [simpl; lia|reflexivity|repeat constructor].
Defined.

(** C6 at {1, 2, 3} with room for one more: [Emplace] of 9 at index 1. *)
Lemma C6_Emplace_inserts_witness :
  ∃ s' m' cells' rest' ys,
    Vector.Emplace 7 (Ptr (Some 0) 1) (Build 9) v123_ = Ret (Ptr (buffer_ m') 1) s' ∧
    repr s' 7 m' cells' rest' ∧ has_values cells' ys ∧ ys = [1; 9; 2; 3] ∧
    Vector.Size <$> vecs s' !! 7 = Some 4.
Proof.
  destruct (C6_Emplace_inserts v123_ v123_ 7 _ _ _ [1; 2; 3] (Build 9) 9 1 v123__repr
              (eq_refl : has_values [Obj 1; Obj 2; Obj 3] [1; 2; 3]))
    as (s' & m' & cells' & rest' & ys & HE & _ & _ & Hr & Hv & Hys & Hsize & _).
  - simpl; lia.
  - reflexivity.
  - exact I.
  - discriminate.
  - intros _ _. split; [reflexivity|]. split; [|reflexivity].
    repeat constructor.
  - exists s', m', cells', rest', ys.
    split; [exact HE|]. split; [exact Hr|]. split; [exact Hv|].
    split; [exact Hys|exact Hsize].
Defined.


(** C10 at the full vector {1, 2, 3}: [PushBack(v[0])] copies 1 before it
    moves 1, 2 and 3 to the new block. *)
Lemma C10_PushBack_own_element_witness :
  ∃ s' m' cells' rest',
    Vector.PushBack 7 (Ptr (Some 0) 0) v123 = Ret tt s' ∧
    repr s' 7 m' cells' rest' ∧ has_values cells' [1; 2; 3; 1] ∧
    trace s' = [ECopyCtor 1; EMoveCtor 1; EMoveCtor 2; EMoveCtor 3;
                EDtor 0; EDtor 0; EDtor 0].
Proof.
  refine (proj1 (C10_PushBack_own_element v123 7 _ _ _ [1; 2; 3] 0 1 v123_repr
                   (eq_refl : has_values [Obj 1; Obj 2; Obj 3] [1; 2; 3])
                   eq_refl eq_refl) _).
  intros _. split; [reflexivity|repeat constructor].
Defined.

End string_like.

Section copy_throws.
#[local] Existing Instance copy_throws.

Lemma v12_repr : repr v12 7 (MkRaw (Some 0) 2) [Obj 1; Obj 2] [].
Proof. repeat split. Qed.

End copy_throws.
End witnesses.

(** * Further properties of the code *)

Section more.
Context {T : Type} `{!Elem T} `{!MemorySource}.
Implicit Types (s : state T) (vs : gmap nat Vector) (bl : gmap nat (list (slot T)))
  (tr : list (event T)) (xs : list T).

(** [valid] is the invariant [well_formed] with storage and elements named. *)
Lemma valid_well_formed s this m xs : valid s this m xs → well_formed s this.
Proof. intros Hv. by eexists m, xs, _. Qed.

Lemma valid_length s this m xs : valid s this m xs → length xs ≤ capacity_ m.
Proof.
  intros (_ & Hc & _). rewrite length_app, length_fmap, length_replicate in Hc. lia.
Qed.

(** A vector whose block is [Obj <$> xs] followed by raw slots. *)
Lemma valid_intro vs bl tr this m xs n :
  vs !! this = Some (MkVec m (length xs)) →
  capacity_ m = length xs + n →
  cells_at bl (buffer_ m) ((Obj <$> xs) ++ replicate n Raw) →
  valid (MkState vs bl tr) this m xs.
Proof.
  intros Hthis Hc Hat. unfold valid, repr, block_is. rewrite length_fmap.
  replace (capacity_ m - length xs) with n by lia.
  split; [done|]. split; [|done].
  rewrite length_app, length_fmap, length_replicate. lia.
Qed.

Lemma PopBack_ok vs bl tr this m b pre c rest x :
  vs !! this = Some (MkVec m (length (pre ++ [c]))) →
  buffer_ m = Some b → capacity_ m = length (pre ++ c :: rest) →
  bl !! b = Some (pre ++ c :: rest) → slot_value c = Some x →
  Vector.PopBack this (MkState vs bl tr)
  = Ret tt (MkState (<[this := MkVec m (length pre)]> vs)
                    (<[b := pre ++ Raw :: rest]> bl) (tr ++ [EDtor x])).
Proof.
  intros Hthis Hb Hc Hbl Hx. unfold Vector.PopBack.
  erewrite bind_ret by (by apply get_at). cbn [size_ data_].
  rewrite length_app in *. simpl in *.
  rewrite decide_True by lia.
  replace (length pre + 1 - 1) with (length pre) by lia.
  erewrite bind_ret by (apply RawMemory_index_at; lia).
  rewrite Hb.
  erewrite bind_ret by (by eapply destroy_at_at).
  erewrite set_size_at by done. done.
Qed.

(** [PopBack], with or without an element to destroy. *)
Lemma PopBack_run s this m xs :
  valid s this m xs →
  (xs = [] → Vector.PopBack this s = Ret tt s) ∧
  (∀ xs' x, xs = xs' ++ [x] →
     ∃ s', Vector.PopBack this s = Ret tt s' ∧ valid s' this m xs' ∧
           trace s' = trace s ++ [EDtor x]).
Proof.
  destruct s as [vs bl tr]. intros Hv. pose proof (valid_length _ _ _ _ Hv) as Hle.
  destruct Hv as (Hthis & Hc & Hat). cbn [vecs blocks trace] in *. split.
  - intros ->. unfold Vector.PopBack. erewrite bind_ret by (by apply get_at).
    simpl. done.
  - intros xs' x ->. rewrite length_app in Hle. simpl in Hle.
    rewrite fmap_app, <-app_assoc in Hat. simpl in Hat.
    destruct (buffer_ m) as [b|] eqn:Hb; simpl in Hat;
      [|by destruct (Obj <$> xs')].
    eexists. split.
    + rewrite fmap_app in Hthis, Hc. rewrite <-app_assoc in Hc.
      by apply (PopBack_ok vs bl tr this m b (Obj <$> xs') (Obj x)
                  (replicate (capacity_ m - length (xs' ++ [x])) Raw) x).
    + split; [|done]. rewrite length_fmap.
      eapply valid_intro with (n := S (capacity_ m - length (xs' ++ [x]))).
      * by rewrite lookup_insert_eq.
      * rewrite length_app. simpl. lia.
      * rewrite Hb. simpl. by rewrite lookup_insert_eq.
Qed.

(** X1.  [PopBack] on a vector that satisfies the invariant: with no
    element it does nothing; otherwise it destroys the last element and
    nothing else, keeps block and capacity, and the invariant holds for the
    remaining elements. *)
Theorem PopBack_spec s this m xs :
  valid s this m xs →
  (xs = [] → Vector.PopBack this s = Ret tt s) ∧
  (∀ xs' x, xs = xs' ++ [x] →
     ∃ s', Vector.PopBack this s = Ret tt s' ∧ valid s' this m xs' ∧
           trace s' = trace s ++ [EDtor x]).
Proof. apply PopBack_run. Qed.

(** X3.  When [operator new] fails for the block a call needs, the call
    throws and leaves the store as it was, before any argument is read:
    [Reserve] beyond the capacity, and [EmplaceBack] and [Emplace] on a
    full vector. *)
Theorem bad_alloc_leaves_store s this v :
  vecs s !! this = Some v →
  (∀ n, capacity_ (data_ v) < n → alloc_fails n = true →
     Vector.Reserve this n s = Throw s) ∧
  (size_ v = capacity_ (data_ v) → alloc_fails (Vector.grown (size_ v)) = true →
   ∀ a, Vector.EmplaceBack this a s = Throw s ∧
        (∀ pos, Vector.in_range v pos = true → Vector.Emplace this pos a s = Throw s)).
Proof.
  destruct s as [vs bl tr]. cbn [vecs]. intros Hthis. split.
  - intros n Hn Ha. unfold Vector.Reserve. erewrite bind_ret by (by apply get_at).
    unfold RawMemory.Capacity. rewrite decide_False by lia.
    apply scope_bad_alloc; [lia|done].
  - intros Hfull Ha a.
    assert (Hg : Vector.grown (size_ v) ≠ 0) by (pose proof (grown_gt (size_ v)); lia).
    split.
    + unfold Vector.EmplaceBack. erewrite bind_ret by (by apply get_at).
      unfold Vector.Capacity, RawMemory.Capacity. rewrite decide_True by done.
      erewrite bind_throw; [done|]. by apply scope_bad_alloc.
    + intros [pb po] Hin. unfold Vector.Emplace.
      erewrite bind_ret by (by apply get_at). rewrite Hin.
      erewrite bind_ret by done.
      unfold Vector.in_range in Hin. apply bool_decide_eq_true in Hin as [Hpb Hpo].
      simpl in Hpb, Hpo. subst pb. unfold Vector.begin, RawMemory.GetAddress.
      erewrite bind_ret by (apply distance_at; lia).
      unfold Vector.Capacity, RawMemory.Capacity. rewrite decide_True by done.
      erewrite bind_throw; [done|]. by apply scope_bad_alloc.
Qed.

(** [operator[]], within and outside the elements. *)
Lemma index_run s this m cells rest xs i :
  repr s this m cells rest → has_values cells xs →
  (∀ x, xs !! i = Some x →
     Vector.index this i s = Ret (Ptr (buffer_ m) i) s ∧
     read (Ptr (buffer_ m) i) s = Ret x s) ∧
  (length xs ≤ i → Vector.index this i s = Undefined).
Proof.
  destruct s as [vs bl tr]. intros (Hthis & Hc & Hat) Hv.
  pose proof (has_values_length _ _ Hv) as Hl. cbn [vecs blocks] in *.
  rewrite length_app in Hc. split.
  - intros x Hx. pose proof (lookup_lt_Some _ _ _ Hx) as Hlt. split.
    + unfold Vector.index. erewrite bind_ret by (by apply get_at). cbn [size_ data_].
      erewrite bind_ret by (apply assert_true; lia).
      apply RawMemory_index_at. lia.
    + destruct (has_values_lookup _ _ _ _ Hv Hx) as (c & Hsplit & Hlen & Hval).
      destruct (buffer_ m) as [b|]; simpl in Hat.
      * rewrite Hsplit, <-app_assoc in Hat. simpl in Hat. by eapply read_at.
      * apply app_eq_nil in Hat as [-> _]. simpl in Hlt, Hl. lia.
  - intros Hi. unfold Vector.index. erewrite bind_ret by (by apply get_at).
    cbn [size_]. rewrite bool_decide_eq_false_2 by lia. done.
Qed.

(** X4.  [operator[]] on a vector with the elements [xs]: for an index
    below the length it returns, without changing the store, the address of
    that slot of the vector's block, where the element is read; for any
    other index its assertion fails. *)
Theorem index_spec s this m cells rest xs i :
  repr s this m cells rest → has_values cells xs →
  (∀ x, xs !! i = Some x →
     Vector.index this i s = Ret (Ptr (buffer_ m) i) s ∧
     read (Ptr (buffer_ m) i) s = Ret x s) ∧
  (length xs ≤ i → Vector.index this i s = Undefined).
Proof. apply index_run. Qed.
(** X5.  [Erase] of the last element does what [PopBack] does: the same
    store results, with the invariant kept, and [Erase] returns the new
    [end()]. *)
Theorem Erase_last_is_PopBack s this m xs x :
  valid s this m (xs ++ [x]) →
  ∃ s', Vector.PopBack this s = Ret tt s' ∧
        Vector.Erase this (Ptr (buffer_ m) (length xs)) s
        = Ret (Ptr (buffer_ m) (length xs)) s' ∧
        valid s' this m xs.
Proof.
  intros Hv. destruct (proj2 (PopBack_run s this m _ Hv) xs x eq_refl)
    as (s' & HP & Hv' & Ht).
  exists s'. split; [done|]. split; [|done].
  destruct s as [vs bl tr]. destruct Hv as (Hthis & Hc & Hat).
  cbn [vecs blocks trace] in *.
  rewrite fmap_app in Hthis, Hc, Hat. rewrite <-app_assoc in Hc, Hat. simpl in *.
  destruct (buffer_ m) as [b|] eqn:Hb; simpl in Hat; [|by destruct (Obj <$> xs)].
  set (rest := replicate (capacity_ m - length (xs ++ [x])) Raw) in *.
  pose proof (Erase_ok vs bl tr this m b (Obj <$> xs) (Obj x) [] rest x []
                Hthis Hb Hat eq_refl eq_refl (Forall_nil_2 _)) as HE.
  pose proof (PopBack_ok vs bl tr this m b (Obj <$> xs) (Obj x) rest x
                Hthis Hb Hc Hat eq_refl) as HP'.
  rewrite HP in HP'. injection HP' as ->.
  rewrite length_fmap in HE. rewrite HE. do 2 f_equal.
  rewrite length_app, length_fmap. simpl. do 2 f_equal. lia.
Qed.

Lemma read_no_object (p : ptr) s :
  load p s = None ∨ load p s = Some Raw → read p s = Undefined.
Proof. unfold read. by intros [->| ->]. Qed.


Lemma Vector_eta (v : Vector) :
  MkVec (MkRaw (buffer_ (data_ v)) (capacity_ (data_ v))) (size_ v) = v.
Proof. by destruct v as [[] ?]. Qed.

Lemma Swap_at_vecs vs bl tr a b va vb :
  vs !! a = Some va → vs !! b = Some vb →
  Vector.Swap a b (MkState vs bl tr)
  = Ret tt (MkState (<[b := va]> (<[a := vb]> vs)) bl tr).
Proof.
  intros Ha Hb. unfold Vector.Swap.
  erewrite bind_ret by (by apply get_at). erewrite bind_ret by (by apply get_at).
  erewrite bind_ret by apply put_at. rewrite put_at. simpl.
  by rewrite !Vector_eta.
Qed.

Lemma valid_vecs s s' this that m xs :
  valid s this m xs → vecs s' !! that = vecs s !! this → blocks s' = blocks s →
  valid s' that m xs.
Proof. intros (Hthis & Hc & Hat) Hv Hb. split; [congruence|]. split; [done|]. by rewrite Hb. Qed.

(** X7.  [Swap] of two vectors that satisfy the invariant exchanges their
    storage and elements, calls no member of the element type and touches
    no block; a second [Swap] restores the store.  Move assignment from
    another vector is this exchange: the elements the destination had are
    not destroyed, the source has them afterwards. *)
Theorem Swap_exchanges s a b ma mb xs ys :
  valid s a ma xs → valid s b mb ys → a ≠ b →
  ∃ s', Vector.Swap a b s = Ret tt s' ∧
        Vector.move_assign a b s = Ret tt s' ∧
        valid s' a mb ys ∧ valid s' b ma xs ∧
        blocks s' = blocks s ∧ trace s' = trace s ∧
        (∀ c, c ≠ a → c ≠ b → vecs s' !! c = vecs s !! c) ∧
        Vector.Swap a b s' = Ret tt s.
Proof.
  destruct s as [vs bl tr]. intros Hva Hvb Hne.
  pose proof Hva as (Ha & _). pose proof Hvb as (Hb & _). cbn [vecs] in Ha, Hb.
  eexists. split; [by apply Swap_at_vecs|].
  split.
  { unfold Vector.move_assign. rewrite decide_True by done. by apply Swap_at_vecs. }
  split_and!; try done.
  - eapply valid_vecs; [exact Hvb| |done]. cbn [vecs].
    by rewrite lookup_insert_ne, lookup_insert_eq by done.
  - eapply valid_vecs; [exact Hva| |done]. cbn [vecs].
    by rewrite lookup_insert_eq.
  - intros c Hca Hcb. cbn [vecs]. by rewrite !lookup_insert_ne by done.
  - erewrite Swap_at_vecs.
    + do 2 f_equal. rewrite (insert_insert_ne _ a b) by done.
      rewrite !insert_insert_eq.
      rewrite (insert_id vs a) by done. by rewrite insert_id.
    + by rewrite lookup_insert_ne, lookup_insert_eq by done.
    + by rewrite lookup_insert_eq.
Qed.

(** X8.  The move constructor gives the new vector the storage and the
    elements of its source and leaves the source empty, with no block and
    capacity 0; it calls no member of the element type and touches no
    block. *)
Theorem move_ctor_takes_storage s this rhs m xs :
  valid s rhs m xs → this ≠ rhs →
  ∃ s', Vector.move_ctor this rhs s = Ret tt s' ∧
        valid s' this m xs ∧ valid s' rhs RawMemory.empty [] ∧
        blocks s' = blocks s ∧ trace s' = trace s.
Proof.
  destruct s as [vs bl tr]. intros Hv Hne. pose proof Hv as (Hr & Hc & Hat).
  cbn [vecs blocks] in *.
  eexists. split.
  { unfold Vector.move_ctor, Vector.ctor. erewrite bind_ret by apply put_at.
    apply Swap_at_vecs; [by rewrite lookup_insert_eq|].
    by rewrite lookup_insert_ne. }
  split_and!; try done.
  - split; [|by split]. cbn [vecs].
    by rewrite lookup_insert_ne, lookup_insert_eq by done.
  - split; [|by split]. cbn [vecs]. by rewrite lookup_insert_eq.
Qed.

Lemma RawMemory_ctor_at vs bl tr n :
  n ≠ 0 → alloc_fails n = false →
  RawMemory.ctor n (MkState vs bl tr)
  = Ret (MkRaw (Some (fresh (dom bl))) n)
        (MkState vs (<[fresh (dom bl) := replicate n Raw]> bl) tr).
Proof.
  intros Hn Ha. unfold RawMemory.ctor, RawMemory.Allocate.
  rewrite decide_True by done. by erewrite bind_ret by (by apply operator_new_at).
Qed.

Lemma RawMemory_ctor_0 s : RawMemory.ctor 0 s = Ret RawMemory.empty (s : state T).
Proof.
  unfold RawMemory.ctor, RawMemory.Allocate. by rewrite decide_False by (by intros []).
Qed.

Lemma RawMemory_dtor_fresh vs bl tr n X :
  RawMemory.dtor (MkRaw (Some (fresh (dom bl))) n)
                 (MkState vs (<[fresh (dom bl) := X]> bl) tr)
  = Ret tt (MkState vs bl tr).
Proof.
  unfold RawMemory.dtor, RawMemory.Deallocate. cbn [buffer_].
  rewrite operator_delete_at.
  - simpl. by rewrite delete_insert_id by apply fresh_block.
  - intros b [= <-]. by rewrite lookup_insert_eq.
Qed.

Lemma ctor_size_ok vs bl tr this n :
  n ≠ 0 → alloc_fails n = false → value_init_throws = false →
  Vector.ctor_size this n (MkState vs bl tr)
  = Ret tt (MkState (<[this := MkVec (MkRaw (Some (fresh (dom bl))) n) n]> vs)
                    (<[fresh (dom bl) := replicate n (Obj value_initialized)]> bl)
                    (tr ++ replicate n EValueInit)).
Proof.
  intros Hn Ha Hvi. unfold Vector.ctor_size.
  erewrite bind_ret by (by apply RawMemory_ctor_at).
  unfold RawMemory.GetAddress. cbn [buffer_].
  pose proof (uninitialized_value_construct_n_ok vs (fresh (dom bl)) (replicate n Raw)
                [] [] (<[fresh (dom bl) := replicate n Raw]> bl) tr 0) as HU.
  rewrite length_replicate, app_nil_r in HU. simpl in HU.
  erewrite bind_ret;
    [|apply unwinding_ret, HU; [by rewrite lookup_insert_eq|done|done]].
  rewrite put_at. by rewrite insert_insert_eq, app_nil_r.
Qed.


Lemma copy_ctor_ok vs bl tr this other mo bs cells rest ys :
  vs !! other = Some (MkVec mo (length cells)) →
  buffer_ mo = Some bs → bl !! bs = Some (cells ++ rest) →
  has_values cells ys → ys ≠ [] →
  alloc_fails (length cells) = false →
  Forall (λ v, copy_ctor_throws v = false) ys →
  Vector.copy_ctor this other (MkState vs bl tr)
  = Ret tt (MkState
              (<[this := MkVec (MkRaw (Some (fresh (dom bl))) (length cells))
                               (length cells)]> vs)
              (<[fresh (dom bl) := Obj <$> ys]> bl)
              (tr ++ (ECopyCtor <$> ys))).
Proof.
  intros Ho Hbs Hbl Hv Hne Ha Hq. pose proof (has_values_length _ _ Hv) as Hl.
  assert (Hn : length cells ≠ 0) by (rewrite Hl; by destruct ys).
  assert (Hfr : bs ≠ fresh (dom bl)).
  { intros ->. by rewrite fresh_block in Hbl. }
  unfold Vector.copy_ctor. erewrite bind_ret by (by apply get_at).
  unfold Vector.Size. cbn [size_ data_].
  erewrite bind_ret by (by apply RawMemory_ctor_at).
  unfold RawMemory.GetAddress. cbn [buffer_]. rewrite Hbs.
  pose proof (uninitialized_copy_n_ok vs bs (fresh (dom bl)) ys cells
                (replicate (length cells) Raw) [] rest [] []
                (<[fresh (dom bl) := replicate (length cells) Raw]> bl) tr 0 0 Hfr) as HU.
  rewrite <-Hl in HU. simpl in HU. rewrite !app_nil_r in HU.
  erewrite bind_ret;
    [|apply unwinding_ret, HU; try done;
      [by rewrite lookup_insert_ne|by rewrite lookup_insert_eq
      |by rewrite length_replicate]].
  rewrite put_at. by rewrite insert_insert_eq.
Qed.

Lemma copy_ctor_fail vs bl tr this other mo bs cells rest ys1 y ys2 :
  vs !! other = Some (MkVec mo (length cells)) →
  buffer_ mo = Some bs → bl !! bs = Some (cells ++ rest) →
  has_values cells (ys1 ++ y :: ys2) →
  alloc_fails (length cells) = false →
  Forall (λ v, copy_ctor_throws v = false) ys1 → copy_ctor_throws y = true →
  Vector.copy_ctor this other (MkState vs bl tr)
  = Throw (MkState vs bl (tr ++ (ECopyCtor <$> ys1) ++ (EDtor <$> reverse ys1))).
Proof.
  intros Ho Hbs Hbl Hv Ha Hq Hy. pose proof (has_values_length _ _ Hv) as Hl.
  assert (Hn : length cells ≠ 0).
  { rewrite Hl, length_app. simpl. lia. }
  assert (Hfr : bs ≠ fresh (dom bl)).
  { intros ->. by rewrite fresh_block in Hbl. }
  unfold Vector.copy_ctor. erewrite bind_ret by (by apply get_at).
  unfold Vector.Size. cbn [size_ data_].
  erewrite bind_ret by (by apply RawMemory_ctor_at).
  unfold RawMemory.GetAddress. cbn [buffer_]. rewrite Hbs.
  pose proof (uninitialized_copy_n_fail vs bs (fresh (dom bl)) ys1 y ys2 cells
                (replicate (length cells) Raw) [] rest [] []
                (<[fresh (dom bl) := replicate (length cells) Raw]> bl) tr 0 0 Hfr) as HU.
  rewrite <-Hl in HU. simpl in HU.
  erewrite bind_throw; [done|].
  eapply unwinding_throw.
  - apply HU; try done;
      [by rewrite lookup_insert_ne|by rewrite lookup_insert_eq, app_nil_r
      |by rewrite length_replicate].
  - rewrite insert_insert_eq. apply RawMemory_dtor_fresh.
Qed.

Lemma dtor_ok vs bl tr this m cells rest xs :
  vs !! this = Some (MkVec m (length cells)) →
  cells_at bl (buffer_ m) (cells ++ rest) → has_values cells xs →
  Vector.dtor this (MkState vs bl tr)
  = Ret tt (MkState (delete this vs) (released (buffer_ m) bl)
                    (tr ++ (EDtor <$> xs))).
Proof.
  intros Hthis Hat Hv. unfold Vector.dtor.
  erewrite bind_ret by (by apply get_at). cbn [data_ size_].
  unfold RawMemory.GetAddress.
  erewrite bind_ret; last first.
  { by apply (destroy_n_from vs (buffer_ m) cells xs [] rest bl tr 0 (length cells)). }
  unfold RawMemory.dtor, RawMemory.Deallocate.
  erewrite bind_ret; last first.
  { apply operator_delete_at. intros b Hb. rewrite Hb. simpl.
    by rewrite lookup_insert_eq. }
  by rewrite released_put_block.
Qed.

(** X12.  The destructor of a vector with the elements [xs] destroys them,
    first to last, and releases the block; the object is gone. *)
Theorem dtor_destroys s this m cells rest xs :
  repr s this m cells rest → has_values cells xs →
  Vector.dtor this s
  = Ret tt (MkState (delete this (vecs s)) (released (buffer_ m) (blocks s))
                    (trace s ++ (EDtor <$> xs))).
Proof.
  destruct s as [vs bl tr]. intros (Hthis & _ & Hat) Hv. by eapply dtor_ok.
Qed.

Lemma fresh_vec vs : vs !! fresh (dom vs) = (None : option Vector).
Proof. apply not_elem_of_dom, is_fresh. Qed.

(** X13.  A copy of a vector, constructed at an unused address and then
    destroyed, leaves the store as it was: each element is copied once and
    each copy destroyed once, and the block of the copy is released. *)
Theorem copy_then_destroy s this other mo cells rest ys :
  repr s other mo cells rest → has_values cells ys →
  vecs s !! this = None →
  (ys ≠ [] → alloc_fails (length ys) = false) →
  Forall (λ v, copy_ctor_throws v = false) ys →
  (Vector.copy_ctor this other;; Vector.dtor this) s
  = Ret tt (set_trace (λ t, t ++ (ECopyCtor <$> ys) ++ (EDtor <$> ys)) s).
Proof.
  destruct s as [vs bl tr]. intros (Ho & Hc & Hat) Hv Hnew Ha Hq.
  pose proof (has_values_length _ _ Hv) as Hl. cbn [vecs blocks trace] in *.
  unfold set_trace. cbn [vecs blocks trace].
  destruct (decide (ys = [])) as [->|Hys].
  - destruct cells; [|done].
    assert (HC : Vector.copy_ctor this other (MkState vs bl tr)
                 = Ret tt (MkState (<[this := MkVec RawMemory.empty 0]> vs) bl tr)).
    { unfold Vector.copy_ctor. erewrite bind_ret by (by apply get_at).
      unfold Vector.Size. cbn [size_ length].
      by erewrite bind_ret by apply RawMemory_ctor_0. }
    erewrite bind_ret by exact HC.
    erewrite (dtor_ok _ _ _ this RawMemory.empty [] [] []);
      [|by rewrite lookup_insert_eq|done|done].
    simpl. by rewrite delete_insert_id, !app_nil_r.
  - assert (Hcs : cells ++ rest ≠ []) by (destruct cells, ys; done).
    destruct (cells_at_nonempty _ _ _ Hat Hcs) as (bs & Hbs & Hbl).
    erewrite bind_ret; last first.
    { eapply copy_ctor_ok; try done. rewrite Hl. auto. }
    erewrite (dtor_ok _ _ _ this _ (Obj <$> ys) [] ys);
      [|by rewrite lookup_insert_eq, length_fmap, Hl
       |simpl; by rewrite lookup_insert_eq, app_nil_r
       |apply has_values_Obj].
    simpl. rewrite !delete_insert_id by (done || apply fresh_block).
    by rewrite <-app_assoc.
Qed.
(** X14.  On a vector with room left, [EmplaceBack] and [Emplace] whose
    new element's constructor throws leave the store as it was; the
    temporary of an interior [Emplace] is released. *)
Theorem ctor_throws_with_room s s1 this m cells rest a :
  repr s this m cells rest → rest ≠ [] → fetch a s = Throw s1 →
  Vector.EmplaceBack this a s = Throw s ∧
  (∀ dist, dist ≤ length cells →
     Vector.Emplace this (Ptr (buffer_ m) dist) a s = Throw s).
Proof.
  destruct s as [vs bl tr]. intros (Hthis & Hc & Hat) Hrest Hf.
  cbn [vecs blocks] in *. rewrite (fetch_throw_same _ _ _ Hf) in Hf.
  rewrite length_app in Hc.
  assert (Hroom : length cells < capacity_ m) by (destruct rest; simpl in *; [done|lia]).
  split.
  - unfold Vector.EmplaceBack. erewrite bind_ret by (by apply get_at).
    unfold Vector.Capacity, RawMemory.Capacity. cbn [size_ data_].
    rewrite decide_False by lia.
    erewrite bind_throw; [done|].
    erewrite bind_ret by (by apply RawMemory_index_at).
    by apply construct_throw.
  - intros dist Hdist. unfold Vector.Emplace.
    erewrite bind_ret by (by apply get_at).
    unfold Vector.in_range. cbn [size_ data_ blk off].
    erewrite bind_ret by (by apply assert_true).
    unfold Vector.begin, RawMemory.GetAddress. cbn [data_].
    erewrite bind_ret by (apply distance_at; lia).
    unfold Vector.Capacity, RawMemory.Capacity. cbn [size_ data_].
    rewrite decide_False by lia. rewrite Nat.sub_0_r.
    erewrite bind_throw; [done|].
    erewrite bind_throw; [done|].
    destruct (decide (dist = length cells)) as [->|Hd].
    + by apply construct_throw.
    + erewrite bind_throw; [done|].
      unfold Vector.new_object.
      destruct (alloc_fails 1) eqn:Ha.
      * erewrite bind_throw; [done|]. unfold RawMemory.operator_new. by rewrite Ha.
      * erewrite bind_ret by (by apply operator_new_at).
        erewrite bind_throw; [done|].
        eapply unwinding_throw.
        -- apply construct_throw.
           rewrite fetch_fresh by apply fresh_block. by rewrite Hf.
        -- unfold set_blocks. cbn [vecs blocks trace]. rewrite operator_delete_at.
           ++ simpl. by rewrite delete_insert_id by apply fresh_block.
           ++ intros b [= <-]. by rewrite lookup_insert_eq.
Qed.

(** X15.  [EmplaceBack(v)] followed by [PopBack], on a vector that
    satisfies the invariant and has room left, restores the store: one
    construction, one destruction. *)
Theorem EmplaceBack_then_PopBack s this m xs v :
  valid s this m xs → length xs < capacity_ m →
  (Vector.EmplaceBack this (Build v);; Vector.PopBack this) s
  = Ret tt (set_trace (λ t, t ++ [ECtor v; EDtor v]) s).
Proof.
  destruct s as [vs bl tr]. intros (Hthis & Hc & Hat) Hroom.
  cbn [vecs blocks] in *.
  destruct (capacity_ m - length xs) as [|k] eqn:Hk; [lia|]. simpl in Hat, Hc.
  assert (Hcs : (Obj <$> xs) ++ Raw :: replicate k Raw ≠ []) by (by destruct xs).
  destruct (cells_at_nonempty _ _ _ Hat Hcs) as (b & Hb & Hbl).
  erewrite bind_ret; last first.
  { by eapply (EmplaceBack_room vs bl bl tr this m b (Obj <$> xs) Raw
                 (replicate k Raw) (Build v) v). }
  erewrite (PopBack_ok _ _ _ this m b (Obj <$> xs) (Obj v) (replicate k Raw) v);
    [|by rewrite lookup_insert_eq, length_app, Nat.add_1_r
     |done|rewrite Hc, !length_app; simpl; lia|by rewrite lookup_insert_eq|done].
  unfold set_trace. cbn [vecs blocks trace].
  rewrite !insert_insert_eq, (insert_id vs), (insert_id bl) by done.
  by rewrite <-app_assoc.
Qed.

(** X16.  [Emplace] at [end()] does what [EmplaceBack] does: when no call
    throws, the two return the same address and the same store, whether
    the vector grows or not. *)
Theorem Emplace_at_end_is_EmplaceBack s s1 this m cells rest xs a x :
  repr s this m cells rest → has_values cells xs →
  fetch a s = Ret x s1 → detached a (buffer_ m) →
  (rest = [] → alloc_fails (Vector.grown (length xs)) = false
               ∧ Forall (λ v, reloc_throws v = false) xs) →
  ∃ p s', Vector.EmplaceBack this a s = Ret p s' ∧
          Vector.Emplace this (Ptr (buffer_ m) (length xs)) a s = Ret p s'.
Proof.
  destruct s as [vs bl tr]. intros (Hthis & Hc & Hat) Hv Hf Hd Hgrow.
  cbn [vecs blocks] in *. pose proof (has_values_length _ _ Hv) as Hl.
  destruct (fetch_repr _ _ _ _ _ _ _ _ Hf Hd Hat) as (bl1 & -> & Hat1).
  rewrite <-Hl. destruct rest as [|r0 rest].
  - destruct Hgrow as [Ha Hq]; [done|]. rewrite app_nil_r in Hc, Hat, Hat1.
    rewrite <-Hl in Ha.
    eexists _, _. split.
    + eapply EmplaceBack_grow; try done.
    + pose proof (Emplace_grow vs bl bl1 tr this m cells [] xs [] a x) as HE.
      rewrite !app_nil_r in HE. simpl in HE. apply HE; try done.
  - assert (Hcs : cells ++ r0 :: rest ≠ []) by (by destruct cells).
    destruct (cells_at_nonempty _ _ _ Hat1 Hcs) as (b & Hb & Hbl).
    eexists _, _. split.
    + eapply EmplaceBack_room; try done.
    + rewrite Hb. eapply Emplace_end; try done.
Qed.
(** [EmplaceBack] on a vector that satisfies the invariant. *)
Lemma EmplaceBack_run s s1 this m xs a x :
  valid s this m xs → fetch a s = Ret x s1 → detached a (buffer_ m) →
  (length xs = capacity_ m →
   alloc_fails (Vector.grown (length xs)) = false
   ∧ Forall (λ v, reloc_throws v = false) xs) →
  ∃ s' m', Vector.EmplaceBack this a s = Ret (Ptr (buffer_ m') (length xs)) s' ∧
           valid s' this m' (xs ++ [x]) ∧
           (length xs < capacity_ m → m' = m).
Proof.
  destruct s as [vs bl tr]. intros Hval Hf Hd Hgrow.
  pose proof (valid_length _ _ _ _ Hval) as Hle.
  destruct Hval as (Hthis & Hc & Hat). cbn [vecs blocks] in *.
  destruct (fetch_repr _ _ _ _ _ _ _ _ Hf Hd Hat) as (bl1 & -> & Hat1).
  destruct (capacity_ m - length xs) as [|k] eqn:Hk.
  - destruct Hgrow as [Ha Hq]; [lia|]. simpl in Hc, Hat1. rewrite app_nil_r in Hc, Hat1.
    pose proof (EmplaceBack_grow vs bl bl1 tr this m (Obj <$> xs) xs a x) as HE.
    rewrite length_fmap in HE, Hthis.
    eexists _, (MkRaw (Some (fresh (dom bl))) (Vector.grown (length xs))).
    split; [|split; [|lia]].
    + apply HE; first [done|by split|apply has_values_Obj].
    + eapply valid_intro with (n := Vector.grown (length xs) - S (length xs)).
      * rewrite lookup_insert_eq, length_app. simpl. by rewrite Nat.add_1_r.
      * rewrite length_app. simpl. pose proof (grown_gt (length xs)). lia.
      * simpl. rewrite lookup_insert_eq, fmap_app, <-app_assoc. done.
  - simpl in Hc, Hat1.
    assert (Hcs : (Obj <$> xs) ++ Raw :: replicate k Raw ≠ []) by (by destruct xs).
    destruct (cells_at_nonempty _ _ _ Hat1 Hcs) as (b & Hb & Hbl).
    pose proof (EmplaceBack_room vs bl bl1 tr this m b (Obj <$> xs) Raw
                  (replicate k Raw) a x) as HE.
    rewrite length_fmap in HE.
    eexists _, m. split; [|split; [|done]].
    + rewrite Hb. apply HE; try done. by rewrite <-(length_fmap Obj xs).
    + eapply valid_intro with (n := k).
      * rewrite lookup_insert_eq, length_app. simpl.
        by rewrite Nat.add_1_r.
      * rewrite length_app. simpl. lia.
      * rewrite Hb. simpl. by rewrite lookup_insert_eq, fmap_app, <-app_assoc.
Qed.

(** X17.  [EmplaceBack] (so [PushBack]) keeps the invariant: on a vector
    that satisfies it, when no call throws, the vector has the elements
    [xs ++ [x]] afterwards and satisfies the invariant, in the same block
    when there was room. *)
Theorem EmplaceBack_valid s s1 this m xs a x :
  valid s this m xs → fetch a s = Ret x s1 → detached a (buffer_ m) →
  (length xs = capacity_ m →
   alloc_fails (Vector.grown (length xs)) = false
   ∧ Forall (λ v, reloc_throws v = false) xs) →
  ∃ s' m', Vector.EmplaceBack this a s = Ret (Ptr (buffer_ m') (length xs)) s' ∧
           valid s' this m' (xs ++ [x]) ∧
           (length xs < capacity_ m → m' = m).
Proof. apply EmplaceBack_run. Qed.

(** X18.  [Emplace] on a full vector keeps the invariant: when no call
    throws, the vector has [take dist xs ++ x :: drop dist xs] in a new
    block of the grown capacity and satisfies the invariant. *)
Theorem Emplace_growing_valid s s1 this m xs a x dist :
  valid s this m xs → length xs = capacity_ m → dist ≤ length xs →
  fetch a s = Ret x s1 → detached a (buffer_ m) →
  alloc_fails (Vector.grown (length xs)) = false →
  Forall (λ v, reloc_throws v = false) xs →
  ∃ s' m', Vector.Emplace this (Ptr (buffer_ m) dist) a s = Ret (Ptr (buffer_ m') dist) s' ∧
           valid s' this m' (take dist xs ++ x :: drop dist xs) ∧
           capacity_ m' = Vector.grown (length xs).
Proof.
  destruct s as [vs bl tr]. intros (Hthis & Hc & Hat) Hfull Hdist Hf Hd Ha Hq.
  cbn [vecs blocks] in *.
  destruct (fetch_repr _ _ _ _ _ _ _ _ Hf Hd Hat) as (bl1 & -> & Hat1).
  replace (capacity_ m - length xs) with 0 in * by lia.
  simpl in Hc, Hat1. rewrite app_nil_r in Hc, Hat1.
  assert (Hsplit : Obj <$> xs = (Obj <$> take dist xs) ++ (Obj <$> drop dist xs)).
  { by rewrite <-fmap_app, take_drop. }
  assert (Hpre : length (Obj <$> take dist xs) = dist).
  { rewrite length_fmap, length_take. lia. }
  assert (Hlen : length ((Obj <$> take dist xs) ++ (Obj <$> drop dist xs)) = length xs).
  { by rewrite <-Hsplit, length_fmap. }
  pose proof (Emplace_grow vs bl bl1 tr this m (Obj <$> take dist xs)
                (Obj <$> drop dist xs) (take dist xs) (drop dist xs) a x) as HE.
  rewrite Hpre, Hlen, <-Hsplit in HE.
  eexists _, (MkRaw (Some (fresh (dom bl))) (Vector.grown (length xs))).
  split; [|split; [|done]].
  - cbn [buffer_]. rewrite length_fmap in Hthis.
    apply HE; first [done|by split|apply has_values_Obj|by rewrite take_drop].
  - eapply valid_intro with (n := Vector.grown (length xs) - S (length xs)).
    + rewrite lookup_insert_eq, inserted_length by done. done.
    + rewrite inserted_length by done. simpl.
      pose proof (grown_gt (length xs)). lia.
    + simpl. rewrite lookup_insert_eq, fmap_app. simpl.
      by rewrite <-app_assoc.
Qed.

Lemma copy_assign_across vs bl tr bs bd spre c spost dpre d dpost i j x :
  bs ≠ bd →
  bl !! bs = Some (spre ++ c :: spost) → i = length spre →
  bl !! bd = Some (dpre ++ d :: dpost) → j = length dpre →
  slot_value c = Some x → copy_assign_throws x = false →
  copy_assign (Ptr (Some bs) i) (Ptr (Some bd) j) (MkState vs bl tr)
  = Ret tt (MkState vs (<[bd := dpre ++ set_val d x :: dpost]> bl)
                    (tr ++ [ECopyAssign x])).
Proof.
  intros Hne Hs -> Hd -> Hx Hx0. unfold copy_assign.
  erewrite bind_ret by (by eapply read_at).
  rewrite Hx0.
  erewrite bind_ret by (by eapply assign_at).
  by rewrite emit_at.
Qed.

(** [copy_n] from one block onto the objects of another. *)
Lemma copy_n_across vs bs bd xs : ∀ sc zs spre spost dpre dpost bl tr i j,
  bs ≠ bd →
  bl !! bs = Some (spre ++ sc ++ spost) → i = length spre →
  bl !! bd = Some (dpre ++ (Obj <$> zs) ++ dpost) → j = length dpre →
  has_values sc xs → length zs = length xs →
  Forall (λ v, copy_assign_throws v = false) xs →
  Std.copy_n (Ptr (Some bs) i) (length xs) (Ptr (Some bd) j) (MkState vs bl tr)
  = Ret tt (MkState vs (<[bd := dpre ++ (Obj <$> xs) ++ dpost]> bl)
                    (tr ++ (ECopyAssign <$> xs))).
Proof.
  induction xs as [|x xs IH];
    intros sc zs spre spost dpre dpost bl tr i j Hne Hs -> Hd -> Hv Hlen Hok.
  - destruct zs; [|done]. simpl. by rewrite app_nil_r, insert_id.
  - destruct sc as [|c sc]; [done|]. destruct zs as [|z zs]; [done|].
    apply has_values_cons_inv in Hv as (x' & xs' & [= <- <-] & Hx & Hv).
    apply Forall_cons in Hok as [Hx0 Hok].
    cbn [length Std.copy_n]. rewrite fmap_cons in Hd. simpl in Hd.
    erewrite bind_ret by (by eapply copy_assign_across).
    cbn [set_val].
    rewrite !ptr_add_Ptr.
    erewrite (IH sc zs (spre ++ [c]) spost (dpre ++ [Obj x]) dpost); try done.
    + by rewrite insert_insert_eq, <-!app_assoc.
    + by rewrite lookup_insert_ne, <-app_assoc.
    + by rewrite length_app.
    + by rewrite lookup_insert_eq, <-app_assoc.
    + by rewrite length_app.
    + simpl in Hlen. lia.
Qed.

Lemma put_block_put_block ob X Y (bl : gmap nat (list (slot T))) :
  put_block ob X (put_block ob Y bl) = put_block ob X bl.
Proof. destruct ob; [|done]. simpl. apply insert_insert_eq. Qed.

(** The same from and to blocks given by pointers that may be null. *)
Lemma copy_n_from vs obs obd xs sc zs spost dpost bl tr k :
  (∀ b, obd = Some b → obs ≠ Some b) →
  cells_at bl obs (sc ++ spost) → cells_at bl obd ((Obj <$> zs) ++ dpost) →
  has_values sc xs → length zs = length xs → k = length xs →
  Forall (λ v, copy_assign_throws v = false) xs →
  Std.copy_n (Ptr obs 0) k (Ptr obd 0) (MkState vs bl tr)
  = Ret tt (MkState vs (put_block obd ((Obj <$> xs) ++ dpost) bl)
                    (tr ++ (ECopyAssign <$> xs))).
Proof.
  intros Hne Hs Hd Hv Hlen -> Hok. destruct (decide (xs = [])) as [->|Hxs].
  - destruct zs; [|done]. simpl in *. by rewrite put_block_id, app_nil_r.
  - assert (Hsc : sc ++ spost ≠ []).
    { apply has_values_length in Hv. destruct sc, xs; done. }
    assert (Hzs : (Obj <$> zs) ++ dpost ≠ []) by (destruct zs, xs; done).
    destruct (cells_at_nonempty _ _ _ Hs Hsc) as (bs & -> & Hbs).
    destruct (cells_at_nonempty _ _ _ Hd Hzs) as (bd & -> & Hbd).
    assert (bs ≠ bd) by (intros ->; by eapply Hne).
    by apply (copy_n_across vs bs bd xs sc zs [] spost [] dpost bl tr 0 0).
Qed.

Lemma CopyToFilledVector_ok vs bl tr lhs rhs m mr xs lrest cells rest ys :
  vs !! lhs = Some (MkVec m (length xs)) →
  vs !! rhs = Some (MkVec mr (length cells)) →
  cells_at bl (buffer_ m) ((Obj <$> xs) ++ lrest) →
  cells_at bl (buffer_ mr) (cells ++ rest) →
  has_values cells ys →
  (∀ b, buffer_ m = Some b → buffer_ mr ≠ Some b) →
  length ys ≤ length xs →
  Forall (λ v, copy_assign_throws v = false) ys →
  Vector.CopyToFilledVector lhs rhs (MkState vs bl tr)
  = Ret tt (MkState (<[lhs := MkVec m (length ys)]> vs)
              (put_block (buffer_ m)
                 ((Obj <$> ys) ++ replicate (length xs - length ys) Raw ++ lrest) bl)
              (tr ++ (ECopyAssign <$> ys) ++ (EDtor <$> drop (length ys) xs))).
Proof.
  intros Hl Hr Hat Hatr Hv Hne Hle Hok. pose proof (has_values_length _ _ Hv) as Hlen.
  rewrite Hlen in Hr.
  unfold Vector.CopyToFilledVector.
  erewrite bind_ret by (by apply get_at). erewrite bind_ret by (by apply get_at).
  unfold Vector.Size, Vector.begin, Vector.end_, RawMemory.GetAddress.
  cbn [size_ data_]. rewrite !ptr_add_Ptr, !Nat.add_0_l.
  assert (Hxs : Obj <$> xs
                = (Obj <$> take (length ys) xs) ++ (Obj <$> drop (length ys) xs)).
  { by rewrite <-fmap_app, take_drop. }
  rewrite Hxs, <-app_assoc in Hat.
  erewrite bind_ret; last first.
  { unfold Std.copy. erewrite bind_ret by (apply distance_at; lia).
    rewrite Nat.sub_0_r.
    eapply (copy_n_from vs _ _ ys cells (take (length ys) xs)); try done.
    rewrite length_take. lia. }
  replace (length xs `min` length ys) with (length ys) by lia.
  erewrite bind_ret; last first.
  { destruct (decide (length ys = length xs)) as [E|E]; [|done].
    by rewrite E, Nat.sub_diag. }
  destruct (decide (length ys = length ys ∧ length ys ≠ length xs)) as [[_ E]|E].
  - erewrite bind_ret; last first.
    { eapply (destroy_n_from vs (buffer_ m) (Obj <$> drop (length ys) xs)
                (drop (length ys) xs) (Obj <$> ys) lrest); try done.
      - eapply cells_at_put; [exact Hat|].
        rewrite !length_app, !length_fmap, length_take. lia.
      - by rewrite length_fmap.
      - apply has_values_Obj.
      - rewrite length_fmap, length_drop. done. }
    erewrite set_size_at by done. cbn [data_].
    rewrite put_block_put_block, length_fmap, length_drop.
    by rewrite <-app_assoc.
  - assert (Heq : length ys = length xs) by lia.
    erewrite bind_ret by done.
    erewrite set_size_at by done. cbn [data_].
    rewrite drop_ge by lia. rewrite Heq, Nat.sub_diag. simpl.
    by rewrite app_nil_r.
Qed.

(** X20.  Copy assignment [a = b] when [b] is not longer than [a]: when no
    assignment throws, the elements of [b] are copy-assigned onto the first
    elements of [a], the other elements of [a] are destroyed, and [a] has
    the elements of [b] in the block and with the capacity it had, the
    invariant kept; [b] is as it was. *)
Theorem copy_assign_in_place s this rhs m mr xs cells rest ys :
  valid s this m xs → repr s rhs mr cells rest → has_values cells ys →
  this ≠ rhs → (∀ b, buffer_ m = Some b → buffer_ mr ≠ Some b) →
  length ys ≤ length xs →
  Forall (λ v, copy_assign_throws v = false) ys →
  ∃ s', Vector.copy_assign this rhs s = Ret tt s' ∧
        valid s' this m ys ∧ repr s' rhs mr cells rest ∧
        trace s' = trace s ++ (ECopyAssign <$> ys)
                           ++ (EDtor <$> drop (length ys) xs).
Proof.
  destruct s as [vs bl tr]. intros Hval (Hr & Hcr & Hatr) Hv Hne Hblk Hle Hok.
  pose proof (valid_length _ _ _ _ Hval) as Hcap.
  destruct Hval as (Hthis & Hc & Hat). cbn [vecs blocks trace] in *.
  rewrite length_fmap in Hthis.
  pose proof (has_values_length _ _ Hv) as Hlen.
  eexists. split.
  { unfold Vector.copy_assign. rewrite decide_True by done.
    erewrite bind_ret by (by apply get_at). erewrite bind_ret by (by apply get_at).
    unfold RawMemory.Capacity. cbn [data_ size_].
    rewrite decide_False by lia.
    by eapply CopyToFilledVector_ok. }
  split_and!; try done.
  - eapply valid_intro
      with (n := (length xs - length ys) + (capacity_ m - length xs)).
    + by rewrite lookup_insert_eq.
    + lia.
    + rewrite replicate_add. eapply cells_at_put; [exact Hat|].
      rewrite !length_app, !length_fmap, !length_replicate. lia.
  - split; [cbn [vecs]; by rewrite lookup_insert_ne|]. split; [done|].
    cbn [blocks]. destruct (buffer_ m) as [b|] eqn:Hb; [|done]. simpl.
    destruct (buffer_ mr) as [br|] eqn:Hbr; [|done]. simpl in *.
    rewrite lookup_insert_ne; [done|]. intros ->. by eapply Hblk.
Qed.
(** Shifting onto an object from objects. *)
Lemma shift_Obj (leave : T → T) zs : ∀ v0,
  shift leave (Obj v0) (Obj <$> zs)
  = (Obj <$> zs) ++ [Obj (default v0 (leave <$> last zs))].
Proof.
  induction zs as [|z zs IH]; intros v0; [done|].
  rewrite fmap_cons. cbn [shift slot_value set_val]. rewrite IH.
  cbn [app]. do 4 f_equal. destruct zs as [|z' zs]; [done|].
  rewrite last_cons_cons. destruct (last (z' :: zs)) eqn:E; [done|].
  by apply last_None in E.
Qed.

(** X22.  [Emplace] before an element of a vector with room left, when no
    call throws: whatever the traits of the element type, the elements
    from the position on are shifted by move (one move construction of the
    last element, move assignments for the others, last first), the
    moved-from object at the position is destroyed and the new value, built
    in a block of its own, is move-assigned there.  The vector has the
    values [pre ++ x :: mid ++ [xl]] in the block it had; the block of the
    temporary is still allocated afterwards, holding the moved-from
    temporary. *)
Theorem Emplace_interior_moves s s1 this m pre mid xl a x :
  valid s this m (pre ++ mid ++ [xl]) →
  length (pre ++ mid ++ [xl]) < capacity_ m →
  fetch a s = Ret x s1 → detached a (buffer_ m) →
  alloc_fails 1 = false → move_ctor_throws xl = false →
  Forall (λ v, move_assign_throws v = false) mid → move_assign_throws x = false →
  ∃ s' t,
    Vector.Emplace this (Ptr (buffer_ m) (length pre)) a s
    = Ret (Ptr (buffer_ m) (length pre)) s' ∧
    vector_is s' this (pre ++ x :: mid ++ [xl]) (capacity_ m) ∧
    trace s' = trace s ++ [ctor_event a x; EMoveCtor xl]
                 ++ (EMoveAssign <$> reverse mid)
                 ++ [EDtor (moved_from (default xl (head mid))); EMoveAssign x] ∧
    blocks s !! t = None ∧ blocks s' !! t = Some [Obj (moved_from x)].
Proof.
  destruct s as [vs bl tr]. intros (Hthis & Hc & Hat) Hroom Hf Hd Ha Hxl Hq Hx.
  cbn [vecs blocks trace] in *.
  destruct (fetch_repr _ _ _ _ _ _ _ _ Hf Hd Hat) as (bl1 & -> & Hat1).
  destruct (capacity_ m - length (pre ++ mid ++ [xl])) as [|k] eqn:Hk; [lia|].
  rewrite !fmap_app in Hthis, Hc, Hat1. simpl in Hthis, Hc, Hat1.
  rewrite <-!app_assoc in Hc, Hat1. simpl in Hc, Hat1.
  assert (Hcs : (Obj <$> pre) ++ (Obj <$> mid) ++ Obj xl :: Raw :: replicate k Raw ≠ []).
  { by destruct (Obj <$> pre), (Obj <$> mid). }
  destruct (cells_at_nonempty _ _ _ Hat1 Hcs) as (b & Hb & Hbl).
  pose proof (fetch_alloc a vs bl bl1 tr x 1 Hf) as [_ Hfresh].
  pose proof (Emplace_interior vs bl bl1 tr this m b (Obj <$> pre) (Obj <$> mid)
                (Obj xl) Raw (replicate k Raw) a x mid xl
                (Obj <$> reverse mid)
                (Obj (default (moved_from xl) (moved_from <$> last (reverse mid))))
                (default (moved_from xl) (moved_from <$> last (reverse mid)))
                Hthis Hb Hc Hf Hbl (has_values_Obj mid) eq_refl Ha Hxl Hq Hx) as HE.
  rewrite length_fmap in HE.
  rewrite Hb.
  eexists _, (fresh (dom bl)). split; [apply HE; [|done]|].
  { cbn [set_val]. by rewrite <-fmap_reverse, shift_Obj. }
  split_and!.
  - exists m, ((Obj <$> pre) ++ Husk x :: (Obj <$> mid) ++ [Obj xl]), (replicate k Raw).
    split_and!; [| |done].
    + split.
      * cbn [vecs]. rewrite lookup_insert_eq. do 3 f_equal.
        rewrite !length_app, !length_fmap. simpl. rewrite !length_app, length_fmap.
        simpl. lia.
      * split.
        -- rewrite Hc, !length_app. simpl. rewrite !length_app. simpl. lia.
        -- cbn [blocks]. rewrite Hb. simpl. rewrite lookup_insert_eq.
           rewrite fmap_reverse, reverse_involutive, <-!app_assoc. simpl.
           by rewrite <-!app_assoc.
    + apply has_values_app; [apply has_values_Obj|].
      apply (has_values_app [Husk x] _ [x]); [done|].
      apply has_values_app; [apply has_values_Obj|done].
  - cbn [trace]. do 4 f_equal. rewrite last_reverse.
    by destruct (head mid).
  - apply fresh_block.
  - cbn [blocks]. rewrite lookup_insert_ne; [by rewrite lookup_insert_eq|].
    intros ->. by rewrite Hbl in Hfresh.
Qed.
(** X23.  What [EmplaceBack] returns refers to the new element: on a
    vector that satisfies the invariant, when no call throws, the value
    read there is the one constructed, [operator[]] at the old length gives
    the same address, and every element the vector had is read at its
    index as before. *)
Theorem EmplaceBack_then_index s s1 this m xs a x :
  valid s this m xs → fetch a s = Ret x s1 → detached a (buffer_ m) →
  (length xs = capacity_ m →
   alloc_fails (Vector.grown (length xs)) = false
   ∧ Forall (λ v, reloc_throws v = false) xs) →
  ∃ p s', Vector.EmplaceBack this a s = Ret p s' ∧
          read p s' = Ret x s' ∧
          Vector.index this (length xs) s' = Ret p s' ∧
          (∀ i y, xs !! i = Some y →
             ∃ q, Vector.index this i s' = Ret q s' ∧ read q s' = Ret y s').
Proof.
  intros Hval Hf Hd Hgrow.
  destruct (EmplaceBack_run s s1 this m xs a x Hval Hf Hd Hgrow)
    as (s' & m' & HE & Hval' & _).
  pose proof (λ i, index_run s' this m' _ _ (xs ++ [x]) i Hval'
                     (has_values_Obj (xs ++ [x]))) as Hi.
  exists (Ptr (buffer_ m') (length xs)), s'. split; [done|].
  destruct (proj1 (Hi (length xs)) x) as [Hix Hrd].
  { by rewrite lookup_app_r, Nat.sub_diag. }
  split; [done|]. split; [done|].
  intros i y Hy. exists (Ptr (buffer_ m') i).
  apply (proj1 (Hi i)). by apply lookup_app_l_Some.
Qed.
End more.

Section more2.
Context {T : Type} `{!Elem T} `{!MemorySource}.
Implicit Types (s : state T) (vs : gmap nat Vector) (bl : gmap nat (list (slot T)))
  (tr : list (event T)) (xs : list T).

(** A move that throws at the value [x]: the objects moved so far are
    destroyed in the destination; their sources stay moved-from. *)
Lemma uninitialized_move_n_fail vs bs bd xs1 :
  ∀ x xs2 sc1 c sc2 dm spre spost dpre dpost bl tr i j,
  bs ≠ bd →
  bl !! bs = Some (spre ++ (sc1 ++ c :: sc2) ++ spost) → i = length spre →
  bl !! bd = Some (dpre ++ dm ++ dpost) → j = length dpre →
  has_values sc1 xs1 → slot_value c = Some x →
  length dm = length (xs1 ++ x :: xs2) →
  Forall (λ v, move_ctor_throws v = false) xs1 → move_ctor_throws x = true →
  Std.uninitialized_move_n (Ptr (Some bs) i) (length (xs1 ++ x :: xs2))
                           (Ptr (Some bd) j) (MkState vs bl tr)
  = Throw (MkState vs
             (<[bd := dpre ++ replicate (length xs1) Raw ++ drop (length xs1) dm ++ dpost]>
                (<[bs := spre ++ ((moved <$> sc1) ++ c :: sc2) ++ spost]> bl))
             (tr ++ (EMoveCtor <$> xs1) ++ (EDtor <$> reverse xs1))).
Proof.
  induction xs1 as [|x1 xs1 IH];
    intros x xs2 sc1 c sc2 dm spre spost dpre dpost bl tr i j
           Hne Hs -> Hd -> Hv Hc Hlen Hok Hx.
  - destruct sc1; [|done]. destruct dm as [|d dm]; [done|]. simpl in Hs.
    cbn [length app Std.uninitialized_move_n]. unfold move_construct.
    erewrite bind_throw; last first.
    { apply construct_throw. erewrite fetch_MoveOf by done. by rewrite Hx. }
    simpl. rewrite app_nil_r, (insert_id bl bs) by done. by rewrite insert_id.
  - destruct sc1 as [|c1 sc1]; [done|]. destruct dm as [|d dm]; [done|].
    apply has_values_cons_inv in Hv as (x' & xs' & [= <- <-] & Hc1 & Hv).
    apply Forall_cons in Hok as [Hx0 Hok].
    change (length ((x1 :: xs1) ++ x :: xs2)) with (S (length (xs1 ++ x :: xs2))).
    cbn [Std.uninitialized_move_n]. unfold move_construct.
    rewrite <-!app_comm_cons in Hs.
    erewrite bind_ret; last first.
    { eapply construct_at; [|by rewrite lookup_insert_ne|done].
      erewrite fetch_MoveOf by done. by rewrite Hx0. }
    rewrite !ptr_add_Ptr.
    erewrite unwinding_throw; [|
      eapply (IH x xs2 sc1 c sc2 dm (spre ++ [set_val c1 (moved_from x1)]) spost
                 (dpre ++ [Obj x1]) dpost); try done|
      eapply (destroy_at_at _ _ _ bd dpre (Obj x1)); [|done|done] ].
    + rewrite (insert_insert_ne _ bd bs) by done.
      rewrite !insert_insert_eq.
      rewrite (insert_insert_ne _ bs bd) by done.
      rewrite !insert_insert_eq. simpl.
      rewrite reverse_cons, fmap_app, <-!app_assoc. simpl.
      unfold moved at 2. by rewrite Hc1.
    + rewrite lookup_insert_ne, lookup_insert_eq by done.
      by rewrite <-(app_assoc spre).
    + by rewrite length_app.
    + by rewrite lookup_insert_eq, <-app_assoc.
    + by rewrite length_app.
    + simpl in Hlen. lia.
    + by rewrite lookup_insert_eq, <-app_assoc.
Qed.
Lemma moved_Obj (xs : list T) : moved <$> (Obj <$> xs) = Obj <$> (moved_from <$> xs).
Proof. rewrite <-!list_fmap_compose. by apply list_fmap_ext. Qed.

Lemma Reserve_move_fails vs bl tr this m b xs1 x xs2 k new_capacity :
  vs !! this = Some (MkVec m (length (xs1 ++ x :: xs2))) →
  buffer_ m = Some b →
  bl !! b = Some ((Obj <$> xs1) ++ Obj x :: (Obj <$> xs2) ++ replicate k Raw) →
  capacity_ m < new_capacity → length (xs1 ++ x :: xs2) ≤ capacity_ m →
  alloc_fails new_capacity = false →
  Vector.use_move (T:=T) = true →
  Forall (λ v, move_ctor_throws v = false) xs1 → move_ctor_throws x = true →
  Vector.Reserve this new_capacity (MkState vs bl tr)
  = Throw (MkState vs
             (<[b := (Obj <$> (moved_from <$> xs1)) ++ Obj x :: (Obj <$> xs2)
                       ++ replicate k Raw]> bl)
             (tr ++ (EMoveCtor <$> xs1) ++ (EDtor <$> reverse xs1))).
Proof.
  intros Hthis Hb Hbl Hcap Hle Hal Hum Hok Hx.
  assert (Hne : b ≠ fresh (dom bl)).
  { intros E. by rewrite E, fresh_block in Hbl. }
  unfold Vector.Reserve.
  erewrite bind_ret by (by apply get_at). cbn [data_ size_].
  unfold RawMemory.Capacity. rewrite decide_False by lia.
  eapply scope_throw; [lia|done| |].
  - erewrite bind_throw; [reflexivity|].
    unfold Vector.MoveOrCopyAndSwap.
    erewrite bind_ret by (by apply get_at). cbn [data_ size_].
    erewrite bind_throw; [reflexivity|].
    unfold RawMemory.GetAddress, Vector.MoveOrCopy. cbn [buffer_].
    rewrite Hum, Hb.
    eapply (uninitialized_move_n_fail vs b (fresh (dom bl)) xs1 x xs2 (Obj <$> xs1)
              (Obj x) (Obj <$> xs2) (replicate (length (xs1 ++ x :: xs2)) Raw) []
              (replicate k Raw) []
              (replicate (new_capacity - length (xs1 ++ x :: xs2)) Raw)); try done.
    + rewrite lookup_insert_ne by done. rewrite Hbl. simpl.
      by rewrite <-app_assoc.
    + rewrite lookup_insert_eq. simpl. rewrite <-replicate_add.
      do 2 f_equal. lia.
    + apply has_values_Obj.
    + by rewrite length_replicate.
  - unfold RawMemory.dtor, RawMemory.Deallocate. cbn [buffer_].
    erewrite operator_delete_at.
    + simpl. rewrite delete_insert_eq, delete_insert_ne, delete_insert_id
        by (done || apply fresh_block).
      by rewrite moved_Obj, <-app_assoc.
    + intros b' [= <-]. rewrite lookup_insert_eq. by eexists.
Qed.

End more2.

(** * The further properties on examples *)

Section more_witnesses.
Import Examples MoreExamples.

Section string_like.
#[local] Existing Instance string_like.
#[local] Existing Instance plenty.

Lemma v123_valid : valid v123 7 (MkRaw (Some 0) 3) [1; 2; 3].
Proof. repeat split. Qed.

Lemma v123__valid : valid v123_ 7 (MkRaw (Some 0) 4) [1; 2; 3].
Proof. repeat split. Qed.

(** X1 at {1, 2, 3}: [PopBack] destroys 3. *)
Lemma PopBack_spec_witness :
  ∃ s', Vector.PopBack 7 v123 = Ret tt s' ∧
        valid s' 7 (MkRaw (Some 0) 3) [1; 2] ∧ trace s' = [EDtor 3].
Proof.
  exact (proj2 (PopBack_spec v123 7 _ [1; 2; 3] v123_valid) [1; 2] 3 eq_refl).
Defined.


(** X4 at {1, 2, 3}: [v[1]] is 2. *)
Lemma index_spec_witness :
  Vector.index 7 1 v123 = Ret (Ptr (Some 0) 1) v123 ∧
  read (Ptr (Some 0) 1) v123 = Ret 2 v123.
Proof.
  exact (proj1 (index_spec v123 7 _ _ _ [1; 2; 3] 1 v123_repr
                  (eq_refl : has_values [Obj 1; Obj 2; Obj 3] [1; 2; 3])) 2 eq_refl).
Defined.

(** X5 at {1, 2, 3}: [Erase] of the element 3. *)
Lemma Erase_last_is_PopBack_witness :
  ∃ s', Vector.PopBack 7 v123 = Ret tt s' ∧
        Vector.Erase 7 (Ptr (Some 0) 2) v123 = Ret (Ptr (Some 0) 2) s' ∧
        valid s' 7 (MkRaw (Some 0) 3) [1; 2].
Proof. exact (Erase_last_is_PopBack v123 7 _ [1; 2] 3 v123_valid). Defined.

(** X7 at a = {1} with capacity 4 and b = {5} with capacity 1. *)
Lemma Swap_exchanges_witness :
  ∃ s', Vector.Swap 1 2 a1_b5 = Ret tt s' ∧
        Vector.move_assign 1 2 a1_b5 = Ret tt s' ∧
        valid s' 1 (MkRaw (Some 1) 1) [5] ∧ valid s' 2 (MkRaw (Some 0) 4) [1] ∧
        blocks s' = blocks a1_b5 ∧ trace s' = trace a1_b5 ∧
        (∀ c, c ≠ 1 → c ≠ 2 → vecs s' !! c = vecs a1_b5 !! c) ∧
        Vector.Swap 1 2 s' = Ret tt a1_b5.
Proof.
  refine (Swap_exchanges a1_b5 1 2 (MkRaw (Some 0) 4) (MkRaw (Some 1) 1) [1] [5] _ _ _);
    [repeat split|repeat split|lia].
Defined.

(** X8 at {1, 2, 3}: a vector at address 8 move-constructed from it. *)
Lemma move_ctor_takes_storage_witness :
  ∃ s', Vector.move_ctor 8 7 v123 = Ret tt s' ∧
        valid s' 8 (MkRaw (Some 0) 3) [1; 2; 3] ∧ valid s' 7 RawMemory.empty [] ∧
        blocks s' = blocks v123 ∧ trace s' = trace v123.
Proof.
  refine (move_ctor_takes_storage v123 8 7 _ [1; 2; 3] v123_valid _). lia.
Defined.




(** X12 at {1, 2, 3}. *)
Lemma dtor_destroys_witness :
  Vector.dtor 7 v123
  = Ret tt (MkState (delete 7 (vecs v123)) (delete 0 (blocks v123))
                    [EDtor 1; EDtor 2; EDtor 3]).
Proof.
  exact (dtor_destroys v123 7 _ _ _ [1; 2; 3] v123_repr
           (eq_refl : has_values [Obj 1; Obj 2; Obj 3] [1; 2; 3])).
Defined.

(** X13 at {1, 2, 3}: a copy at address 8, destroyed again. *)
Lemma copy_then_destroy_witness :
  (Vector.copy_ctor 8 7;; Vector.dtor 8) v123
  = Ret tt (set_trace (λ t, t ++ [ECopyCtor 1; ECopyCtor 2; ECopyCtor 3]
                              ++ [EDtor 1; EDtor 2; EDtor 3]) v123).
Proof.
  refine (copy_then_destroy v123 8 7 _ _ _ [1; 2; 3] v123_repr
            (eq_refl : has_values [Obj 1; Obj 2; Obj 3] [1; 2; 3]) _ _ _);
    [reflexivity|reflexivity|repeat constructor].
Defined.

(** X14 at {1, 2, 3} with capacity 4 and arguments whose constructor
    throws. *)
Lemma ctor_throws_with_room_witness :
  Vector.EmplaceBack 7 BuildFails v123_ = Throw v123_ ∧
  (∀ dist, dist ≤ 3 → Vector.Emplace 7 (Ptr (Some 0) dist) BuildFails v123_ = Throw v123_).
Proof.
  refine (ctor_throws_with_room v123_ v123_ 7 _ _ _ BuildFails v123__repr _ _);
    [discriminate|reflexivity].
Defined.

(** X15 at {1, 2, 3} with capacity 4. *)
Lemma EmplaceBack_then_PopBack_witness :
  (Vector.EmplaceBack 7 (Build 9);; Vector.PopBack 7) v123_
  = Ret tt (set_trace (λ t, t ++ [ECtor 9; EDtor 9]) v123_).
Proof.
  refine (EmplaceBack_then_PopBack v123_ 7 _ [1; 2; 3] 9 v123__valid _). simpl; lia.
Defined.

(** X16 at the full vector {1, 2, 3}. *)
Lemma Emplace_at_end_is_EmplaceBack_witness :
  ∃ p s', Vector.EmplaceBack 7 (Build 4) v123 = Ret p s' ∧
          Vector.Emplace 7 (Ptr (Some 0) 3) (Build 4) v123 = Ret p s'.
Proof.
  refine (Emplace_at_end_is_EmplaceBack v123 v123 7 _ _ _ [1; 2; 3] (Build 4) 4
            v123_repr (eq_refl : has_values [Obj 1; Obj 2; Obj 3] [1; 2; 3])
            eq_refl I _).
  intros _. split; [reflexivity|repeat constructor].
Defined.

(** X17 at the full vector {1, 2, 3}. *)
Lemma EmplaceBack_valid_witness :
  ∃ s' m', Vector.EmplaceBack 7 (Build 4) v123 = Ret (Ptr (buffer_ m') 3) s' ∧
           valid s' 7 m' [1; 2; 3; 4] ∧
           (3 < 3 → m' = MkRaw (Some 0) 3).
Proof.
  refine (EmplaceBack_valid v123 v123 7 _ [1; 2; 3] (Build 4) 4 v123_valid eq_refl I _).
  intros _. split; [reflexivity|repeat constructor].
Defined.

(** X18 at the full vector {1, 2, 3}: [Emplace] of 9 at index 1. *)
Lemma Emplace_growing_valid_witness :
  ∃ s' m', Vector.Emplace 7 (Ptr (Some 0) 1) (Build 9) v123 = Ret (Ptr (buffer_ m') 1) s' ∧
           valid s' 7 m' [1; 9; 2; 3] ∧ capacity_ m' = 6.
Proof.
  refine (Emplace_growing_valid v123 v123 7 _ [1; 2; 3] (Build 9) 9 1 v123_valid
            eq_refl _ eq_refl I eq_refl _); [simpl; lia|repeat constructor].
Defined.


(** X20 at a = {1} and b = {7, 8, 9}: [b = a]. *)
Lemma copy_assign_in_place_witness :
  ∃ s', Vector.copy_assign 2 1 a1_b789 = Ret tt s' ∧
        valid s' 2 (MkRaw (Some 1) 3) [1] ∧
        repr s' 1 (MkRaw (Some 0) 3) [Obj 1] [Raw; Raw] ∧
        trace s' = [ECopyAssign 1; EDtor 8; EDtor 9].
Proof.
  refine (copy_assign_in_place a1_b789 2 1 (MkRaw (Some 1) 3) (MkRaw (Some 0) 3)
            [7; 8; 9] [Obj 1] [Raw; Raw] [1] _ _ eq_refl _ _ _ _).
  - repeat split.
  - repeat split.
  - lia.
  - intros b [= <-]. discriminate.
  - simpl; lia.
  - repeat constructor.
Defined.

(** X22 at {1, 2, 3} with capacity 4: [Emplace] of 9 at index 1. *)
Lemma Emplace_interior_moves_witness :
  ∃ s' t,
    Vector.Emplace 7 (Ptr (Some 0) 1) (Build 9) v123_ = Ret (Ptr (Some 0) 1) s' ∧
    vector_is s' 7 [1; 9; 2; 3] 4 ∧
    trace s' = [ECtor 9; EMoveCtor 3; EMoveAssign 2; EDtor 0; EMoveAssign 9] ∧
    blocks v123_ !! t = None ∧ blocks s' !! t = Some [Obj 0].
Proof.
  refine (Emplace_interior_moves v123_ v123_ 7 _ [1] [2] 3 (Build 9) 9 v123__valid
            _ eq_refl I eq_refl eq_refl _ eq_refl);
    [simpl; lia|repeat constructor].
Defined.

(** X23 at the full vector {1, 2, 3}. *)
Lemma EmplaceBack_then_index_witness :
  ∃ p s', Vector.EmplaceBack 7 (Build 4) v123 = Ret p s' ∧
          read p s' = Ret 4 s' ∧
          Vector.index 7 3 s' = Ret p s' ∧
          (∀ i y, [1; 2; 3] !! i = Some y →
             ∃ q, Vector.index 7 i s' = Ret q s' ∧ read q s' = Ret y s').
Proof.
  refine (EmplaceBack_then_index v123 v123 7 _ [1; 2; 3] (Build 4) 4 v123_valid
            eq_refl I _).
  intros _. split; [reflexivity|repeat constructor].
Defined.
End string_like.

Section no_memory.
#[local] Existing Instance string_like.
#[local] Existing Instance no_memory.

(** X3 at the full vector {1, 2, 3}, with no memory to be had. *)
Lemma bad_alloc_leaves_store_witness :
  Vector.Reserve 7 5 v123 = Throw v123 ∧
  Vector.EmplaceBack 7 (Build 4) v123 = Throw v123 ∧
  Vector.Emplace 7 (Ptr (Some 0) 1) (Build 4) v123 = Throw v123.
Proof.
  destruct (bad_alloc_leaves_store v123 7 (MkVec (MkRaw (Some 0) 3) 3) eq_refl)
    as [HR HE].
  split; [apply HR; [simpl; lia|reflexivity]|].
  destruct (HE eq_refl eq_refl (Build 4)) as [HB HP].
  split; [exact HB|]. apply HP. reflexivity.
Defined.
End no_memory.
End more_witnesses.

Section more_witnesses2.
Import Examples.
#[local] Existing Instance plenty.
#[local] Existing Instance move_only.

End more_witnesses2.
